(** * asyncdef.emitter: the synchronous event emitter

    A shallow embedding of [asyncdef/emitter/emitter.py] and the proofs of
    its dispatch, registration and removal properties.

    The emitter calls back into user code (the listeners), and that user
    code may call back into the emitter.  The emitter's own methods are
    embedded as Rocq functions over an explicit state; the listeners, which
    are the environment of the program, are given as small scripts ([act])
    that the embedding interprets.  Recursion through [emit] is bounded by
    a fuel argument, which also bounds the turns of each loop of [emit]:
    Python's own bound is its recursion limit.  Running out of fuel is a
    third outcome of a call, next to returning and raising. *)

From stdpp Require Import gmap strings list fin_maps.

Local Open Scope string_scope.
Local Open Scope list_scope.
Local Open Scope nat_scope.

(** ** Python objects *)

(** A callable is a user function, identified by a name, or an instance of
    the class [_Once] that wraps a callable in its [func] slot.  [_Once]
    defines no [__eq__], so two wrappers are equal when they are the same
    object: [uid] is the identity of the instance. *)
Inductive callable : Type :=
  | Fn (name : nat)
  | _Once (uid : nat) (func : callable).

(** Exceptions: the ones user code raises, and the two the interpreter
    itself raises inside [emit] ([None] is not callable; list assignment
    index out of range).  All are subclasses of [Exception]. *)
Inductive exn : Type :=
  | UserError (n : nat)
  | TypeError
  | IndexError.

(** An entry of a listener list: a callable, or [None] once [emit] has
    overwritten the entry of a one-time listener. *)
Abbreviation slot := (option callable) (only parsing).

(** The values passed to listeners and kept by the user program.  [emit]
    hands its positional and keyword arguments to every listener alike;
    only the positional ones are modelled. *)
Inductive value : Type :=
  | VNone
  | VBool (b : bool)
  | VInt (n : Z)
  | VStr (s : string)
  | VObj (c : callable)
  | VExc (x : exn)
  | VSeq (l : list slot).

Global Instance callable_eq_dec : EqDecision callable.
Proof. solve_decision. Defined.
Global Instance exn_eq_dec : EqDecision exn.
Proof. solve_decision. Defined.
Global Instance value_eq_dec : EqDecision value.
Proof. solve_decision. Defined.

(** [isinstance(listener, _Once)] *)
Definition is_once (l : slot) : bool :=
  match l with
  | Some (_Once _ _) => true
  | _ => false
  end.

(** [listener.func if isinstance(listener, _Once) else listener] *)
Definition raw (l : slot) : slot :=
  match l with
  | Some (_Once _ f) => Some f
  | _ => l
  end.

(** ** The state *)

(** The instance attributes of [Emitter], and around them what the
    attributes refer to.  [_events] maps an event to a list object; list
    objects are mutated in place and shared ([emit] iterates over one
    while [_events] may be bound to another), so [_events] holds addresses
    into the store [lists].  The lists of [_removals] and [_additions] are
    reachable only through their dictionary until [emit] pops them, so
    they are kept by value.  [notes] is the state of the user program and
    [calls] records every invocation of a user function. *)
Record Emitter : Type := mkEmitter {
  _events : gmap string nat;
  _removals : gmap string (list callable);
  _additions : gmap string (list callable);
  _max_listeners : Z;
  _emitting : list string;
  lists : gmap nat (list slot);
  next_list : nat;
  next_uid : nat;
  notes : list value;
  calls : list (nat * list value);
}.

Definition set_events (f : gmap string nat → gmap string nat) (s : Emitter) :=
  mkEmitter (f (_events s)) (_removals s) (_additions s) (_max_listeners s)
    (_emitting s) (lists s) (next_list s) (next_uid s) (notes s) (calls s).
Definition set_removals
    (f : gmap string (list callable) → gmap string (list callable)) (s : Emitter) :=
  mkEmitter (_events s) (f (_removals s)) (_additions s) (_max_listeners s)
    (_emitting s) (lists s) (next_list s) (next_uid s) (notes s) (calls s).
Definition set_additions
    (f : gmap string (list callable) → gmap string (list callable)) (s : Emitter) :=
  mkEmitter (_events s) (_removals s) (f (_additions s)) (_max_listeners s)
    (_emitting s) (lists s) (next_list s) (next_uid s) (notes s) (calls s).
Definition set_max (z : Z) (s : Emitter) :=
  mkEmitter (_events s) (_removals s) (_additions s) z
    (_emitting s) (lists s) (next_list s) (next_uid s) (notes s) (calls s).
Definition set_emitting (f : list string → list string) (s : Emitter) :=
  mkEmitter (_events s) (_removals s) (_additions s) (_max_listeners s)
    (f (_emitting s)) (lists s) (next_list s) (next_uid s) (notes s) (calls s).
Definition set_lists
    (f : gmap nat (list slot) → gmap nat (list slot)) (s : Emitter) :=
  mkEmitter (_events s) (_removals s) (_additions s) (_max_listeners s)
    (_emitting s) (f (lists s)) (next_list s) (next_uid s) (notes s) (calls s).
Definition set_next_list (n : nat) (s : Emitter) :=
  mkEmitter (_events s) (_removals s) (_additions s) (_max_listeners s)
    (_emitting s) (lists s) n (next_uid s) (notes s) (calls s).
Definition set_next_uid (n : nat) (s : Emitter) :=
  mkEmitter (_events s) (_removals s) (_additions s) (_max_listeners s)
    (_emitting s) (lists s) (next_list s) n (notes s) (calls s).
Definition set_notes (f : list value → list value) (s : Emitter) :=
  mkEmitter (_events s) (_removals s) (_additions s) (_max_listeners s)
    (_emitting s) (lists s) (next_list s) (next_uid s) (f (notes s)) (calls s).
Definition set_calls
    (f : list (nat * list value) → list (nat * list value)) (s : Emitter) :=
  mkEmitter (_events s) (_removals s) (_additions s) (_max_listeners s)
    (_emitting s) (lists s) (next_list s) (next_uid s) (notes s) (f (calls s)).

(** [Emitter.__init__] *)
Definition default_max_listeners : Z := 10.

Definition init : Emitter :=
  mkEmitter ∅ ∅ ∅ default_max_listeners [] ∅ 0 0 [] [].

(** ** Outcomes *)

(** A call returns, raises, or exhausts the fuel. *)
Inductive outcome (A : Type) : Type :=
  | Ok (a : A) (s : Emitter)
  | Err (x : exn) (s : Emitter)
  | Timeout.
Arguments Ok {A} a s.
Arguments Err {A} x s.
Arguments Timeout {A}.

Definition M (A : Type) : Type := Emitter → outcome A.

Definition ret {A} (a : A) : M A := λ s, Ok a s.
Definition raise {A} (x : exn) : M A := λ s, Err x s.
Definition bind {A B} (m : M A) (k : A → M B) : M B :=
  λ s, match m s with
       | Ok a s' => k a s'
       | Err x s' => Err x s'
       | Timeout => Timeout
       end.
Definition modify (f : Emitter → Emitter) : M unit := λ s, Ok tt (f s).
Definition gets {A} (f : Emitter → A) : M A := λ s, Ok (f s) s.

Notation "x <- m ;; k" := (bind m (λ x, k))
  (at level 100, m at next level, right associativity).
Notation "m ;; k" := (bind m (λ _, k))
  (at level 100, right associativity).

(** [for x in l: f(x)] over a list nobody else holds. *)
Fixpoint for_each {A} (f : A → M unit) (l : list A) : M unit :=
  match l with
  | [] => ret tt
  | x :: l' => f x ;; for_each f l'
  end.

(** ** Dictionary and list primitives *)

(** The list object at an address. *)
Definition deref (a : nat) (s : Emitter) : list slot :=
  default [] (lists s !! a).

(** [self._events.get(event, ())], as the sequence of its entries. *)
Definition events_get (event : string) (s : Emitter) : list slot :=
  match _events s !! event with
  | Some a => deref a s
  | None => []
  end.

(** [self._events[event]] on a [defaultdict(list)]: a missing key is bound
    to a new empty list first.  Returns the address. *)
Definition events_getitem (event : string) : M nat :=
  λ s, match _events s !! event with
       | Some a => Ok a s
       | None =>
           let a := next_list s in
           Ok a (set_events <[event := a]>
                   (set_lists <[a := []]> (set_next_list (S a) s)))
       end.

(** [the_list.append(x)] *)
Definition list_append (a : nat) (x : slot) : M unit :=
  modify (λ s, set_lists <[a := deref a s ++ [x]]> s).

(** [the_list.pop(i)], for [i] in range (the only use). *)
Definition list_pop (a : nat) (i : nat) : M unit :=
  modify (λ s, set_lists <[a := delete i (deref a s)]> s).

(** [the_list[i] = x]: raises [IndexError] out of range. *)
Definition list_setitem (a : nat) (i : nat) (x : slot) : M unit :=
  λ s, if decide (i < length (deref a s))
       then Ok tt (set_lists <[a := <[i := x]> (deref a s)]> s)
       else Err IndexError s.

(** The queue of an event in [_removals] or [_additions]: what
    [d.pop(event, ())] returns. *)
Definition queue (m : gmap string (list callable)) (event : string)
    : list callable :=
  default [] (m !! event).

(** [d[event].append(x)] on a [defaultdict(list)]. *)
Definition enqueue (event : string) (x : callable)
    (m : gmap string (list callable)) : gmap string (list callable) :=
  <[event := queue m event ++ [x]]> m.

(** [event in self._emitting] *)
Definition is_emitting (event : string) (s : Emitter) : bool :=
  bool_decide (event ∈ _emitting s).

(** ** Queries *)

(** The property [Emitter.max_listeners] and its setter. *)
Definition max_listeners (s : Emitter) : Z := _max_listeners s.
Definition set_max_listeners (value : Z) : M unit := modify (set_max value).

(** [Emitter.listeners_count] *)
Definition listeners_count (event : string) (s : Emitter) : nat :=
  length (events_get event s).

(** [Emitter.listeners] returns a generator expression.  Its outermost
    iterable, [self._events.get(event, ())], is evaluated when the
    generator is created: the generator holds an iterator over that list
    object (or over the empty tuple), not over the dictionary entry.  A
    list iterator yields the element at its index while the index is
    within the list's current length, and is exhausted for good the first
    time it is not. *)
Record generator : Type := mkGen {
  gen_src : option nat;
  gen_pos : nat;
  gen_done : bool;
}.

Definition listeners (event : string) (s : Emitter) : generator :=
  mkGen (_events s !! event) 0 false.

(** [next(g)]: [None] is [StopIteration]. *)
Definition gen_next (g : generator) (s : Emitter) : option slot * generator :=
  if gen_done g then (None, g)
  else match gen_src g with
       | None => (None, mkGen None (gen_pos g) true)
       | Some a =>
           match deref a s !! gen_pos g with
           | Some l => (Some (raw l), mkGen (Some a) (S (gen_pos g)) false)
           | None => (None, mkGen (Some a) (gen_pos g) true)
           end
       end.

(** At most [n] calls of [next(g)], stopping at [StopIteration]. *)
Fixpoint gen_take (n : nat) (g : generator) (s : Emitter)
    : list slot * generator :=
  match n with
  | 0 => ([], g)
  | S n' =>
      match gen_next g s with
      | (Some x, g') => let r := gen_take n' g' s in (x :: r.1, r.2)
      | (None, g') => ([], g')
      end
  end.

(** [list(g)], the emitter untouched meanwhile: the source list is finite,
    so one call of [next] more than its length reaches [StopIteration]. *)
Definition gen_list (g : generator) (s : Emitter) : list slot * generator :=
  gen_take (S (from_option (λ a, length (deref a s)) 0 (gen_src g))) g s.

(** ** Listeners as scripts *)

(** What a listener does when called: it returns or raises, reads and
    writes the state of its program ([Recall], [Note]), calls the methods
    of the emitter and protects a block with [try: ... except Exception].
    [Listeners event k] is [k(list(self.listeners(event)))]. *)
Inductive act : Type :=
  | Return
  | Raise (x : exn)
  | Note (v : value) (k : act)
  | Recall (k : list value → act)
  | Emit (event : string) (args : list value) (k : bool → act)
  | On (event : string) (listener : callable) (k : act)
  | OnOnce (event : string) (listener : callable) (k : act)
  | Remove (event : string) (listener : callable) (k : act)
  | Count (event : string) (k : nat → act)
  | Listeners (event : string) (k : list slot → act)
  | Try (block : act) (handler : exn → act) (k : act).

(** ** The methods *)

Section Methods.

(** The code of every user function, by name and arguments. *)
Variable body : nat → list value → act.

Section Open.

(** [self.emit] as seen from the other methods. *)
Variable emit : string → list value → M bool.

(** [Emitter._on] *)
Definition _on (event : string) (listener : callable) : M unit :=
  emit "new_listener" [VStr event; VObj listener] ;;
  a <- events_getitem event ;;
  list_append a (Some listener).

(** [Emitter.on] *)
Definition on (event : string) (listener : callable) : M unit :=
  λ s, if negb (is_emitting event s) then _on event listener s
       else modify (set_additions (enqueue event listener)) s.

(** [Emitter.once] *)
Definition once (event : string) (listener : callable) : M unit :=
  λ s, let w := _Once (next_uid s) listener in
       let s := set_next_uid (S (next_uid s)) s in
       if negb (is_emitting event s) then _on event w s
       else modify (set_additions (enqueue event w)) s.

(** The search loop of [_remove]: the offset of the first entry whose
    raw listener equals [listener]. *)
Fixpoint find_offset (listener : callable) (l : list slot) : option nat :=
  match l with
  | [] => None
  | x :: l' =>
      if decide (Some listener = raw x) then Some 0
      else S <$> find_offset listener l'
  end.

(** [Emitter._remove] *)
Definition _remove (event : string) (listener : callable) : M unit :=
  λ s, match find_offset listener (events_get event s) with
       | None => Ok tt s
       | Some offset =>
           (a <- events_getitem event ;;
            list_pop a offset ;;
            emit "remove_listener" [VStr event; VObj listener] ;;
            ret tt) s
       end.

(** [Emitter.remove] *)
Definition remove (event : string) (listener : callable) : M unit :=
  λ s, if negb (is_emitting event s) then _remove event listener s
       else modify (set_removals (enqueue event listener)) s.

(** Running the body of a listener. *)
Fixpoint run (a : act) : M unit :=
  match a with
  | Return => ret tt
  | Raise x => raise x
  | Note v k => modify (set_notes (λ n, n ++ [v])) ;; run k
  | Recall k => n <- gets notes ;; run (k n)
  | Emit event args k => b <- emit event args ;; run (k b)
  | On event l k => on event l ;; run k
  | OnOnce event l k => once event l ;; run k
  | Remove event l k => remove event l ;; run k
  | Count event k => n <- gets (listeners_count event) ;; run (k n)
  | Listeners event k =>
      l <- gets (λ s, (gen_list (listeners event s) s).1) ;; run (k l)
  | Try block handler k =>
      λ s, match run block s with
           | Ok _ s' => run k s'
           | Err x s' => (run (handler x) ;; run k) s'
           | Timeout => Timeout
           end
  end.

(** Calling an entry: [_Once.__call__] forwards to [func]; calling
    [None] raises [TypeError]. *)
Fixpoint call (c : callable) (args : list value) : M unit :=
  match c with
  | Fn name =>
      modify (set_calls (λ l, l ++ [(name, args)])) ;;
      run (body name args)
  | _Once _ func => call func args
  end.

(** The call of an entry of the list, [None] included. *)
Definition invoke (listener : slot) (args : list value) : M unit :=
  match listener with
  | Some c => call c args
  | None => raise TypeError
  end.

(** The [finally] clause of the loop body. *)
Definition finally_clause (event : string) (offset : nat) (listener : slot)
    : M unit :=
  if is_once listener then
    a <- events_getitem event ;;
    list_setitem a offset None
  else ret tt.

(** One turn of the loop of [emit]: the [try] statement. *)
Definition turn (event : string) (args : list value) (offset : nat)
    (listener : slot) : M unit :=
  λ s,
    let r :=
      match invoke listener args s with
      | Err exc s1 =>
          if bool_decide (event = "error")
             || bool_decide (events_get "error" s1 = [])
          then Err exc s1
          else (emit "error" [VStr event; VExc exc] ;; ret tt) s1
      | r => r
      end in
    match r with
    | Ok _ s2 => finally_clause event offset listener s2
    | Err exc s2 =>
        match finally_clause event offset listener s2 with
        | Ok _ s3 => Err exc s3
        | r' => r'
        end
    | Timeout => Timeout
    end.

(** [for offset, listener in enumerate(the_list)], from [offset] on,
    over the list object at address [a].  The iterator reads the list
    afresh at every turn. *)
Fixpoint dispatch (steps : nat) (a : nat) (event : string)
    (args : list value) (offset : nat) : M unit :=
  λ s, match deref a s !! offset with
       | None => Ok tt s
       | Some listener =>
           match steps with
           | 0 => Timeout
           | S steps' =>
               (turn event args offset listener ;;
                dispatch steps' a event args (S offset)) s
           end
       end.

(** [self._emitting.pop()] *)
Definition emitting_pop : M unit :=
  λ s, match _emitting s with
       | [] => Err IndexError s
       | _ => Ok tt (set_emitting (λ l, removelast l) s)
       end.

(** [self._events[event] = list(filter(bool, self._events[event]))]:
    the event is bound to a new list of the entries that are not
    [None] (functions and [_Once] objects are true). *)
Definition purge (event : string) : M unit :=
  a <- events_getitem event ;;
  kept <- gets (λ s, filter (λ x : slot, is_Some x) (deref a s)) ;;
  modify (λ s, let b := next_list s in
               set_events <[event := b]>
                 (set_lists <[b := kept]> (set_next_list (S b) s))).

(** The body of [if event not in self._emitting]. *)
Definition flush (event : string) : M unit :=
  removals <- gets (λ s, queue (_removals s) event) ;;
  modify (set_removals (delete event)) ;;
  additions <- gets (λ s, queue (_additions s) event) ;;
  modify (set_additions (delete event)) ;;
  for_each (_remove event) removals ;;
  for_each (_on event) additions.

(** The statements of [emit] after the loop. *)
Definition epilogue (event : string) : M bool :=
  purge event ;;
  emitting_pop ;;
  idle <- gets (λ s, negb (is_emitting event s)) ;;
  (if idle : bool then flush event else ret tt) ;;
  ret true.

(** [Emitter.emit] up to the end of its loop: the event is pushed and
    the listeners are called. *)
Definition emit_loop (steps : nat) (event : string) (args : list value)
    : M unit :=
  modify (set_emitting (λ l, l ++ [event])) ;;
  a <- events_getitem event ;;
  dispatch steps a event args 0.

(** [Emitter.emit], one level of recursion unfolded. *)
Definition emit_body (steps : nat) (event : string) (args : list value)
    : M bool :=
  λ s, if bool_decide (events_get event s = []) then Ok false s
       else (emit_loop steps event args ;; epilogue event) s.

End Open.

(** [Emitter.emit]: [fuel] calls deep, each with at most [fuel] turns of
    its loop. *)
Fixpoint emit (fuel : nat) (event : string) (args : list value) : M bool :=
  match fuel with
  | 0 => λ _, Timeout
  | S n => emit_body (emit n) n event args
  end.

End Methods.

(** ** Well-formed stores and frames *)

(** The entries of an event that are not overwritten. *)
Definition live (event : string) (s : Emitter) : list slot :=
  filter (λ x : slot, is_Some x) (events_get event s).

(** Every event is bound to an allocated list object of its own. *)
Record wf (s : Emitter) : Prop := {
  wf_bound : ∀ e a, _events s !! e = Some a → a < next_list s;
  wf_inj : ∀ e1 e2 a,
    _events s !! e1 = Some a → _events s !! e2 = Some a → e1 = e2;
}.

(** What a call started in [s] on top of the stack [st] leaves in [s']:
    the stack [st] is still there and, for the events in it, the queues
    have only grown and the list has only lost entries. *)
Record frame (st : list string) (s s' : Emitter) : Prop := {
  frame_stack : st `prefix_of` _emitting s';
  frame_additions : ∀ e, e ∈ st →
    queue (_additions s) e `prefix_of` queue (_additions s') e;
  frame_removals : ∀ e, e ∈ st →
    queue (_removals s) e `prefix_of` queue (_removals s') e;
  frame_live : ∀ e, e ∈ st → live e s' `sublist_of` live e s;
}.

(** [Q] holds of the state in which [m], run from [s], returns or
    raises. *)
Definition post {A} (m : M A) (s : Emitter) (Q : Emitter → Prop) : Prop :=
  match m s with
  | Ok _ s' | Err _ s' => Q s'
  | Timeout => True
  end.

(** [m] keeps stores well formed and frames every stack it starts on. *)
Definition safe {A} (st : list string) (m : M A) : Prop :=
  ∀ s, wf s → st `prefix_of` _emitting s →
       post m s (λ s', wf s' ∧ frame st s s').

(** A check of [wf] that computes. *)
Definition wfb (s : Emitter) : bool :=
  bool_decide (map_Forall (λ _ a, a < next_list s) (_events s))
  && bool_decide (NoDup (map_to_list (_events s)).*2).

(** ** Listeners that only observe *)

(** A script that neither raises nor calls a method that changes the
    emitter. *)
Fixpoint passive (a : act) : Prop :=
  match a with
  | Return => True
  | Note _ k => passive k
  | Recall k => ∀ n, passive (k n)
  | Count _ k => ∀ n, passive (k n)
  | Listeners _ k => ∀ l, passive (k l)
  | _ => False
  end.

(** The user function a callable ends up calling. *)
Fixpoint target (c : callable) : nat :=
  match c with
  | Fn name => name
  | _Once _ func => target func
  end.

(** What the loop of [emit] leaves of an entry it has called. *)
Definition spent (x : slot) : slot :=
  if is_once x then None else x.

(** Two states with the same emitter: only the user program's side
    ([notes], [calls]) may differ. *)
Definition same_emitter (s s' : Emitter) : Prop :=
  _events s' = _events s ∧ lists s' = lists s ∧ next_list s' = next_list s ∧
  _emitting s' = _emitting s ∧ _additions s' = _additions s ∧
  _removals s' = _removals s ∧ _max_listeners s' = _max_listeners s ∧
  next_uid s' = next_uid s.

(** Two states that differ at most in the list object at address [a] and
    in the user program's side. *)
Definition touches (a : nat) (s s' : Emitter) : Prop :=
  _events s' = _events s ∧ next_list s' = next_list s ∧
  _emitting s' = _emitting s ∧ _additions s' = _additions s ∧
  _removals s' = _removals s ∧ next_uid s' = next_uid s ∧
  ∀ a', a' ≠ a → lists s' !! a' = lists s !! a'.

(** The calls that notifying the entries [l] with [args] makes. *)
Definition notify (l : list slot) (args : list value)
    : list (nat * list value) :=
  (λ c, (target c, args)) <$> omap id l.

(** An entry whose call only observes: a callable that ends up calling a
    user function with a passive body. *)
Definition observing (body : nat → list value → act) (x : slot) : Prop :=
  ∃ c, x = Some c ∧ ∀ args, passive (body (target c) args).

(** An entry that stays where it is when called: a callable other than a
    [_Once], that only observes. *)
Definition plain (body : nat → list value → act) (x : slot) : Prop :=
  observing body x ∧ is_once x = false.

(** Two states whose emitters differ at most in the lists of the events in
    [X]. *)
Definition differs_on (X : list string) (s s' : Emitter) : Prop :=
  _emitting s' = _emitting s ∧
  (∀ e, queue (_removals s') e = queue (_removals s) e) ∧
  (∀ e, queue (_additions s') e = queue (_additions s) e) ∧
  (∀ e, e ∉ X → events_get e s' = events_get e s) ∧
  next_uid s' = next_uid s.

(** ** A program of listeners

    The user functions of the scenarios below, by name. *)
Definition noop : nat := 0.
Definition reenter : nat := 1.
Definition fail : nat := 2.
Definition observer : nat := 3.
Definition adder : nat := 4.
Definition reenter_fail : nat := 5.
Definition remover : nat := 6.
Definition editor : nat := 7.
Definition unregister : nat := 8.
Definition fail_check : nat := 9.

(** What [observer] does with the arguments [(event, listener)]: it notes
    [listeners_count(event)] and [list(listeners(event))]. *)
Definition observe (event : string) : act :=
  Count event (λ n,
    Listeners event (λ l,
      Note (VInt (Z.of_nat n)) (Note (VSeq l) Return))).

Definition scripts (name : nat) (args : list value) : act :=
  match name with
  | 1 => (* called with 0, emits "e" again with 1 *)
      match args with
      | [VInt 0] => Emit "e" [VInt 1] (λ _, Return)
      | _ => Return
      end
  | 2 => Raise (UserError 7)
  | 3 =>
      match args with
      | [VStr event; _] => observe event
      | _ => Return
      end
  | 4 => (* registers [noop] for "e" and notes the count around it *)
      Count "e" (λ before,
        On "e" (Fn noop)
          (Count "e" (λ after,
             Note (VInt (Z.of_nat before))
               (Note (VInt (Z.of_nat after)) Return))))
  | 5 => (* called with 0, emits "e" again with 1, then raises *)
      match args with
      | [VInt 0] => Emit "e" [VInt 1] (λ _, Raise (UserError 7))
      | _ => Return
      end
  | 6 => Remove "e" (Fn remover) Return
  | 7 => Remove "e" (Fn noop) (On "e" (Fn adder) Return)
  | 8 => (* removes [noop] from "e" and notes the count around it *)
      Count "e" (λ before,
        Remove "e" (Fn noop)
          (Count "e" (λ after,
             Note (VInt (Z.of_nat before))
               (Note (VInt (Z.of_nat after)) Return))))
  | 9 => Raise (UserError 9)
  | _ => Return
  end.

(** The emitter after [on("new_listener", observer)]. *)
Definition watched : Emitter :=
  set_lists <[0 := [Some (Fn observer)]]>
    (set_events <["new_listener" := 0]> (set_next_list 1 init)).

(** The emitter after [on("e", noop)], [on("e", fail)], [on("e", noop)]. *)
Definition twice : Emitter :=
  set_lists <[0 := [Some (Fn noop); Some (Fn fail); Some (Fn noop)]]>
    (set_events <["e" := 0]> (set_next_list 1 init)).

(** The registrations [on("e", noop)], [once("e", editor)],
    [on("e", observer)], [on("remove_listener", observer)] and
    [on("new_listener", observer)], in this order. *)
Definition staged : Emitter :=
  mkEmitter
    (<["e" := 0]> (<["remove_listener" := 1]> (<["new_listener" := 2]> ∅)))
    ∅ ∅ 10 []
    (<[0 := [Some (Fn noop); Some (_Once 0 (Fn editor)); Some (Fn observer)]]>
       (<[1 := [Some (Fn observer)]]> (<[2 := [Some (Fn observer)]]> ∅)))
    3 1 [] [].

(** The emitter [staged] at the end of the loop of [emit("e")]: [editor]
    has queued the removal of [noop] and the addition of [adder], and its
    own entry is overwritten. *)
Definition queued : Emitter :=
  mkEmitter
    (_events staged)
    (<["e" := [Fn noop]]> ∅)
    (<["e" := [Fn adder]]> ∅)
    10 ["e"]
    (<[0 := [Some (Fn noop); None; Some (Fn observer)]]> (lists staged))
    3 1 [] [(noop, []); (editor, []); (observer, [])].

(** The emitter after [on("e", remover)] and
    [on("remove_listener", fail)]. *)
Definition doomed : Emitter :=
  set_lists (λ m, <[0 := [Some (Fn remover)]]> (<[1 := [Some (Fn fail)]]> m))
    (set_events (λ m, <["e" := 0]> (<["remove_listener" := 1]> m))
       (set_next_list 2 init)).

(** The emitter after [once("e", noop)] and [on("e", fail)]. *)
Definition fragile : Emitter :=
  set_lists <[0 := [Some (_Once 0 (Fn noop)); Some (Fn fail)]]>
    (set_events <["e" := 0]> (set_next_list 1 (set_next_uid 1 init))).

(** The emitter after [once("e", reenter)]. *)
Definition armed : Emitter :=
  set_lists <[0 := [Some (_Once 0 (Fn reenter))]]>
    (set_events <["e" := 0]> (set_next_list 1 (set_next_uid 1 init))).

(** The emitter after [once("e", reenter_fail)]. *)
Definition armed_fail : Emitter :=
  set_lists <[0 := [Some (_Once 0 (Fn reenter_fail))]]>
    (set_events <["e" := 0]> (set_next_list 1 (set_next_uid 1 init))).

(** The emitter [fragile] after [emit("e")] has raised: the entry of the
    one-time listener is overwritten and still in the list, the event is
    still on the stack. *)
Definition broken : Emitter :=
  set_calls (λ _, [(noop, []); (fail, [])])
    (set_emitting (λ _, ["e"])
       (set_lists <[0 := [None; Some (Fn fail)]]> fragile)).

(** ** A program with an exception handler

    [swallow] protects a nested [emit("b")] with a [try] statement whose
    handler registers [noop] for ["b"]; [asker] registers [noop] for
    ["a"].  The other names are those of [scripts]. *)
Definition swallow : nat := 10.
Definition asker : nat := 11.

Definition handlers (name : nat) (args : list value) : act :=
  match name with
  | 10 =>
      Try (Emit "b" [] (λ _, Return)) (λ _, On "b" (Fn noop) Return) Return
  | 11 => On "a" (Fn noop) Return
  | _ => scripts name args
  end.

(** The emitter after [on("a", asker)], [on("a", swallow)] and
    [on("b", fail)]. *)
Definition tangled : Emitter :=
  set_lists (λ m, <[0 := [Some (Fn asker); Some (Fn swallow)]]>
                    (<[1 := [Some (Fn fail)]]> m))
    (set_events (λ m, <["a" := 0]> (<["b" := 1]> m))
       (set_next_list 2 init)).

(** The emitter [tangled] after [emit("a")] has returned [True]: the
    nested [emit("b")] raised and left ["b"] on the stack, [swallow]
    handled the exception, and the pop of [emit("a")] took ["b"] off the
    stack instead of ["a"]. *)
Definition knotted : Emitter :=
  mkEmitter
    (<["a" := 2]> (<["b" := 1]> ∅))
    ∅
    (<["a" := [Fn noop]]> (<["b" := [Fn noop]]> ∅))
    10 ["a"]
    (<[2 := [Some (Fn asker); Some (Fn swallow)]]>
       (<[1 := [Some (Fn fail)]]>
          (<[0 := [Some (Fn asker); Some (Fn swallow)]]> ∅)))
    3 0 [] [(asker, []); (swallow, []); (fail, [])].

(** ** Further states of the program [scripts] *)

(** The emitter after [once("new_listener", noop)]. *)
Definition primed : Emitter :=
  set_lists <[0 := [Some (_Once 0 (Fn noop))]]>
    (set_events <["new_listener" := 0]>
       (set_next_list 1 (set_next_uid 1 init))).

(** The emitter after [on("e", editor)] and [on("new_listener", fail)]. *)
Definition lossy : Emitter :=
  set_lists (λ m, <[0 := [Some (Fn editor)]]> (<[1 := [Some (Fn fail)]]> m))
    (set_events (λ m, <["e" := 0]> (<["new_listener" := 1]> m))
       (set_next_list 2 init)).

(** The emitter after [on("remove_listener", observer)],
    [once("remove_listener", noop)] and [on("remove_listener", observer)]. *)
Definition shedding : Emitter :=
  set_lists <[0 := [Some (Fn observer); Some (_Once 0 (Fn noop));
                    Some (Fn observer)]]>
    (set_events <["remove_listener" := 0]>
       (set_next_list 1 (set_next_uid 1 init))).

(** The emitter after [on("e", adder)] and [on("new_listener", observer)],
    at the end of the loop of [emit("e")]: [adder] has queued the addition
    of [noop]. *)
Definition pending : Emitter :=
  mkEmitter
    (<["e" := 0]> (<["new_listener" := 1]> ∅))
    ∅
    (<["e" := [Fn noop]]> ∅)
    10 ["e"]
    (<[0 := [Some (Fn adder)]]> (<[1 := [Some (Fn observer)]]> ∅))
    2 0 [VInt 1; VInt 1] [(adder, [])].

(** ** The registry after an addition or a removal *)

(** The state after [self._events[event].append(x)]. *)
Definition appended (event : string) (x : slot) (s : Emitter) : Emitter :=
  match (a <- events_getitem event ;; list_append a x) s with
  | Ok _ s' => s'
  | _ => s
  end.

(** A list without its first entry whose raw listener is [listener]. *)
Definition remove_first (listener : callable) (l : list slot) : list slot :=
  match find_offset listener l with
  | Some offset => delete offset l
  | None => l
  end.

(** An event whose listeners are [l], all of them observing and staying
    after a call, and for which nothing is queued. *)
Definition ready (body : nat → list value → act) (event : string)
    (l : list slot) (s : Emitter) : Prop :=
  events_get event s = l ∧ Forall (plain body) l ∧
  queue (_removals s) event = [] ∧ queue (_additions s) event = [].

(** The calls made to the listeners [lr] of ["remove_listener"] when the
    removals [rs] are applied in order to the list [l] of [event]: one
    notification for each removal that finds its entry. *)
Fixpoint removal_calls (event : string) (lr : list slot) (rs : list callable)
    (l : list slot) : list (nat * list value) :=
  match rs with
  | [] => []
  | r :: rs' =>
      (if find_offset r l is Some _ then notify lr [VStr event; VObj r] else [])
      ++ removal_calls event lr rs' (remove_first r l)
  end.

(** The calls made to the listeners [ln] of ["new_listener"] when the
    additions [q] are applied in order. *)
Definition addition_calls (event : string) (ln : list slot)
    (q : list callable) : list (nat * list value) :=
  q ≫= λ c, notify ln [VStr event; VObj c].

(** The state after the two statements that follow the loop of [emit]:
    the purge of the list and the pop of the stack. *)
Definition unwound (event : string) (s : Emitter) : Emitter :=
  match (purge event ;; emitting_pop) s with
  | Ok _ s' => s'
  | _ => s
  end.

(** Membership in, and inclusion of, lists written out. *)
Ltac mem :=
  try (let x := fresh in intros x);
  rewrite ?not_elem_of_cons, ?elem_of_cons, ?elem_of_nil in *;
  intuition (subst; congruence).

(** ** Further states of the program of listeners *)

(** The emitter after [on("e", noop)], [once("e", noop)] and
    [on("e", observer)]. *)
Definition mixed : Emitter :=
  set_lists <[0 := [Some (Fn noop); Some (_Once 0 (Fn noop));
                    Some (Fn observer)]]>
    (set_events <["e" := 0]> (set_next_list 1 (set_next_uid 1 init))).

(** A script that raises [x] without having called a method that changes
    the emitter. *)
Fixpoint failing (x : exn) (a : act) : Prop :=
  match a with
  | Raise y => y = x
  | Note _ k => failing x k
  | Recall k => ∀ n, failing x (k n)
  | Count _ k => ∀ n, failing x (k n)
  | Listeners _ k => ∀ l, failing x (k l)
  | _ => False
  end.

(** The emitter after [on("e", noop)], [once("e", fail)], [on("e", noop)]
    and [on("error", observer)]. *)
Definition guarded : Emitter :=
  set_lists (λ m, <[0 := [Some (Fn noop); Some (_Once 0 (Fn fail));
                          Some (Fn noop)]]>
                    (<[1 := [Some (Fn observer)]]> m))
    (set_events (λ m, <["e" := 0]> (<["error" := 1]> m))
       (set_next_list 2 (set_next_uid 1 init))).

(** The emitter after [on("e", fail)], [on("e", noop)],
    [on("error", noop)] and [on("error", fail_check)]. *)
Definition faulty : Emitter :=
  set_lists (λ m, <[0 := [Some (Fn fail); Some (Fn noop)]]>
                    (<[1 := [Some (Fn noop); Some (Fn fail_check)]]> m))
    (set_events (λ m, <["e" := 0]> (<["error" := 1]> m))
       (set_next_list 2 init)).

(** ** The limit on listeners *)

(** An outcome with [_max_listeners] set to [z] in its state. *)
Definition with_max {A} (z : Z) (r : outcome A) : outcome A :=
  match r with
  | Ok a s => Ok a (set_max z s)
  | Err x s => Err x (set_max z s)
  | Timeout => Timeout
  end.

(** A computation that neither reads nor writes [_max_listeners]. *)
Definition unlimited {A} (m : M A) : Prop :=
  ∀ z s, m (set_max z s) = with_max z (m s).

(** ** Listeners that change the registrations of their own event *)

(** A script that does not raise and calls no method of the emitter that
    changes it, but [on], [once] and [remove] for [event]. *)
Fixpoint deferring (event : string) (a : act) : Prop :=
  match a with
  | Return => True
  | Note _ k => deferring event k
  | Recall k => ∀ n, deferring event (k n)
  | Count _ k => ∀ n, deferring event (k n)
  | Listeners _ k => ∀ l, deferring event (k l)
  | On e _ k | OnOnce e _ k | Remove e _ k => e = event ∧ deferring event k
  | _ => False
  end.

(** An entry whose call is such a script. *)
Definition heeding (body : nat → list value → act) (event : string)
    (x : slot) : Prop :=
  ∃ c, x = Some c ∧ ∀ args, deferring event (body (target c) args).

(** Two states that differ at most in the list object at [a], in the
    queues of [event], to which [rs] and [adds] have been appended, in
    the counter of the wrappers and in the user program's side. *)
Definition deferred (a : nat) (event : string) (rs adds : list callable)
    (s s' : Emitter) : Prop :=
  _events s' = _events s ∧ next_list s' = next_list s ∧
  _emitting s' = _emitting s ∧
  (∀ a', a' ≠ a → lists s' !! a' = lists s !! a') ∧
  (∀ e, queue (_removals s') e =
        queue (_removals s) e ++ (if decide (e = event) then rs else [])) ∧
  (∀ e, queue (_additions s') e =
        queue (_additions s) e ++ (if decide (e = event) then adds else [])).

(** ** The stack after a call that returns *)

(** A script without a [try] block that registers nothing for
    ["error"]. *)
Fixpoint forthright (a : act) : Prop :=
  match a with
  | Return | Raise _ => True
  | Note _ k => forthright k
  | Recall k => ∀ n, forthright (k n)
  | Emit _ _ k => ∀ b, forthright (k b)
  | On e _ k | OnOnce e _ k => e ≠ "error" ∧ forthright k
  | Remove _ _ k => forthright k
  | Count _ k => ∀ n, forthright (k n)
  | Listeners _ k => ∀ l, forthright (k l)
  | Try _ _ _ => False
  end.

(** A well-formed state in which nothing listens for ["error"]. *)
Definition unhandled (s : Emitter) : Prop :=
  wf s ∧ events_get "error" s = [].

(** Run in such a state, [m] ends in such a state, and with the stack as
    it was when it returns. *)
Definition balanced {A} (m : M A) : Prop :=
  ∀ s, unhandled s →
  match m s with
  | Ok _ s' => unhandled s' ∧ _emitting s' = _emitting s
  | Err _ s' => unhandled s'
  | Timeout => True
  end.

(** ** Listeners that emit another event *)

(** A script that calls [emit(x, args)] once and otherwise only
    observes. *)
Fixpoint relaying (x : string) (args : list value) (a : act) : Prop :=
  match a with
  | Emit e ar k => e = x ∧ ar = args ∧ ∀ b, passive (k b)
  | Note _ k => relaying x args k
  | Recall k => ∀ n, relaying x args (k n)
  | Count _ k => ∀ n, relaying x args (k n)
  | Listeners _ k => ∀ l, relaying x args (k l)
  | _ => False
  end.

(** What a dispatch of [x], bound to the list at [ax], to listeners that
    only observe makes of [s]: [x] is bound to a new list without the
    one-time entries, and [calls] has grown by [cs]. *)
Definition dispatched (x : string) (ax : nat) (cs : list (nat * list value))
    (s s' : Emitter) : Prop :=
  _events s' = <[x := next_list s]> (_events s) ∧
  next_list s' = S (next_list s) ∧
  lists s' !! next_list s =
    Some (filter (λ y : slot, is_once y = false) (deref ax s)) ∧
  (∀ a', a' ≠ ax → a' ≠ next_list s → lists s' !! a' = lists s !! a') ∧
  _emitting s' = _emitting s ∧
  (∀ e, queue (_removals s') e = queue (_removals s) e) ∧
  (∀ e, queue (_additions s') e = queue (_additions s) e) ∧
  calls s' = calls s ++ cs.

(** The emitter after [on("outer", noop)], [once("outer", reenter)],
    [on("outer", noop)], [on("e", observer)] and [once("e", noop)]:
    called with [0], [reenter] emits ["e"] with [1]. *)
Definition chained : Emitter :=
  set_lists (λ m, <[0 := [Some (Fn noop); Some (_Once 0 (Fn reenter));
                          Some (Fn noop)]]>
                    (<[1 := [Some (Fn observer); Some (_Once 1 (Fn noop))]]>
                       m))
    (set_events (λ m, <["outer" := 0]> (<["e" := 1]> m))
       (set_next_list 2 (set_next_uid 2 init))).

(** ** The frame of a call *)

Lemma frame_refl st s : st `prefix_of` _emitting s → frame st s s.
Proof. intros H. split; auto. Qed.

Lemma frame_trans st s1 s2 s3 : frame st s1 s2 → frame st s2 s3 → frame st s1 s3.
Proof.
  intros [A1 B1 C1 D1] [A2 B2 C2 D2]. split.
  - done.
  - intros e He. by etrans; [apply B1 | apply B2].
  - intros e He. by etrans; [apply C1 | apply C2].
  - intros e He. by etrans; [apply D2 | apply D1].
Qed.

Lemma safe_ret {A} st (a : A) : safe st (ret a).
Proof. intros s Hw Hp. split; [done | by apply frame_refl]. Qed.

Lemma safe_raise {A} st x : safe st (@raise A x).
Proof. intros s Hw Hp. split; [done | by apply frame_refl]. Qed.

Lemma safe_gets {A} st (f : Emitter → A) : safe st (gets f).
Proof. intros s Hw Hp. split; [done | by apply frame_refl]. Qed.

Lemma safe_bind {A B} st (m : M A) (k : A → M B) :
  safe st m → (∀ a, safe st (k a)) → safe st (bind m k).
Proof.
  intros Hm Hk s Hw Hp. specialize (Hm s Hw Hp).
  unfold post, bind in *. destruct (m s) as [a s1|x s1|]; try done.
  destruct Hm as [Hw1 Hf1].
  specialize (Hk a s1 Hw1 (frame_stack _ _ _ Hf1)). unfold post in Hk.
  destruct (k a s1) as [b s2|x s2|]; try done;
    destruct Hk; split; eauto using frame_trans.
Qed.

Lemma safe_modify st (f : Emitter → Emitter) :
  (∀ s, wf s → st `prefix_of` _emitting s → wf (f s) ∧ frame st s (f s)) →
  safe st (modify f).
Proof. intros H s Hw Hp. apply H; done. Qed.

(** Steps that leave the registry, the queues and the stack as they are. *)
Lemma frame_same st s s' :
  st `prefix_of` _emitting s →
  _emitting s' = _emitting s →
  _additions s' = _additions s →
  _removals s' = _removals s →
  (∀ e, events_get e s' = events_get e s) →
  frame st s s'.
Proof.
  intros Hp He Ha Hr Hg. split.
  - by rewrite He.
  - intros e _. by rewrite Ha.
  - intros e _. by rewrite Hr.
  - intros e _. unfold live. by rewrite Hg.
Qed.

Lemma events_getitem_spec e s :
  wf s →
  ∃ a s1, events_getitem e s = Ok a s1 ∧ wf s1 ∧ _events s1 !! e = Some a ∧
    (∀ e', events_get e' s1 = events_get e' s) ∧
    _emitting s1 = _emitting s ∧ _additions s1 = _additions s ∧
    _removals s1 = _removals s.
Proof.
  intros [Hb Hi]. unfold events_getitem.
  destruct (_events s !! e) as [a|] eqn:He.
  { exists a, s. repeat split; eauto. }
  eexists _, _. split; [done|]. repeat split; simpl.
  - intros e' a'. rewrite lookup_insert. case_decide; [naive_solver lia|].
    intros Ha. apply Hb in Ha. lia.
  - intros e1 e2 a'. rewrite !lookup_insert.
    repeat case_decide; simplify_eq; try done.
    + intros [= <-] Ha. apply Hb in Ha. lia.
    + intros Ha [= <-]. apply Hb in Ha. lia.
    + eauto.
  - by rewrite lookup_insert_eq.
  - intros e'. unfold events_get, deref. simpl. rewrite lookup_insert.
    case_decide; simplify_eq.
    + by rewrite He, lookup_insert_eq.
    + destruct (_events s !! e') as [a'|] eqn:He'; [|done].
      rewrite lookup_insert_ne; [done|]. apply Hb in He'. lia.
Qed.

Lemma store_spec e a l s :
  wf s → _events s !! e = Some a →
  let s' := set_lists <[a := l]> s in
  wf s' ∧ events_get e s' = l ∧
  (∀ e', e' ≠ e → events_get e' s' = events_get e' s).
Proof.
  intros [Hb Hi] He s'. split; [by split|]. split.
  - unfold events_get, deref. simpl. by rewrite He, lookup_insert_eq.
  - intros e' Hne. unfold events_get, deref. simpl.
    destruct (_events s !! e') as [a'|] eqn:He'; [|done].
    rewrite lookup_insert_ne; [done|]. intros <-. eauto.
Qed.

Lemma frame_store st e a l s :
  wf s → st `prefix_of` _emitting s → _events s !! e = Some a →
  (e ∈ st → filter (λ x : slot, is_Some x) l `sublist_of` live e s) →
  wf (set_lists <[a := l]> s) ∧ frame st s (set_lists <[a := l]> s).
Proof.
  intros Hw Hp He Hl. destruct (store_spec e a l s Hw He) as (Hw' & Hg & Hg').
  split; [done|]. split; try done.
  intros e' He'. unfold live. destruct (decide (e' = e)) as [->|Hne].
  - rewrite Hg. by apply Hl.
  - by rewrite Hg'.
Qed.

(** Writing into the list of an event: [getitem] then the write. *)
Lemma safe_update st e (f : list slot → list slot) :
  (e ∈ st → ∀ l, filter (λ x : slot, is_Some x) (f l)
                   `sublist_of` filter (λ x : slot, is_Some x) l) →
  safe st (a <- events_getitem e ;;
           modify (λ s, set_lists <[a := f (deref a s)]> s)).
Proof.
  intros Hf s Hw Hp.
  destruct (events_getitem_spec e s Hw)
    as (a & s1 & Hg & Hw1 & He1 & Hv & Hem & Had & Hre).
  unfold post, bind. rewrite Hg. unfold modify.
  assert (Hp1 : st `prefix_of` _emitting s1) by by rewrite Hem.
  destruct (frame_store st e a (f (deref a s1)) s1 Hw1 Hp1 He1) as [Hw2 Hf2].
  { intros Hin. unfold live, events_get. rewrite He1. by apply Hf. }
  split; [done|]. eapply frame_trans; [|done]. by apply frame_same.
Qed.

Lemma filter_sublist_mono {A} (P : A → Prop) `{!∀ x, Decision (P x)} l1 l2 :
  l1 `sublist_of` l2 → filter P l1 `sublist_of` filter P l2.
Proof.
  induction 1 as [|x l1 l2 _ IH|x l1 l2 _ IH]; [done| |].
  - rewrite !filter_cons. case_decide; [by constructor | done].
  - rewrite filter_cons. case_decide; [by constructor | done].
Qed.

Lemma filter_tombstone (l : list slot) i :
  filter (λ x : slot, is_Some x) (<[i := None]> l)
    `sublist_of` filter (λ x : slot, is_Some x) l.
Proof.
  revert i. induction l as [|x l IH]; intros [|i]; simpl; try done.
  - rewrite filter_cons_False by (by intros [? ?]).
    rewrite filter_cons. case_decide; [by constructor | done].
  - rewrite !filter_cons. case_decide; [by constructor | done].
Qed.

Lemma safe_list_pop st e i :
  safe st (a <- events_getitem e ;; list_pop a i).
Proof.
  apply (safe_update st e (λ l, delete i l)).
  intros _ l. apply filter_sublist_mono, sublist_delete.
Qed.

Lemma safe_list_append st e x :
  e ∉ st → safe st (a <- events_getitem e ;; list_append a x).
Proof. intros He. by apply (safe_update st e (λ l, l ++ [x])). Qed.

Lemma safe_list_setitem st e i :
  safe st (a <- events_getitem e ;; list_setitem a i None).
Proof.
  intros s Hw Hp.
  pose proof (safe_update st e (λ l, <[i := None]> l)
                (λ _ l, filter_tombstone l i) s Hw Hp) as H.
  destruct (events_getitem_spec e s Hw)
    as (a & s1 & Hg & Hw1 & He1 & Hv & Hem & Had & Hre).
  unfold post, bind, list_setitem, modify in *. rewrite Hg in *.
  case_decide; [done|]. split; [done|]. by apply frame_same.
Qed.

(** Rebinding the event to the list of its kept entries. *)
Lemma safe_purge st e : safe st (purge e).
Proof.
  intros s Hw Hp.
  destruct (events_getitem_spec e s Hw)
    as (a & s1 & Hg & [Hb Hi] & He1 & Hv & Hem & Had & Hre).
  unfold post, purge, bind, gets, modify. rewrite Hg. simpl. split.
  - split; simpl.
    + intros e' a'. rewrite lookup_insert. case_decide; [naive_solver lia|].
      intros Ha. apply Hb in Ha. lia.
    + intros e1 e2 a'. rewrite !lookup_insert.
      repeat case_decide; simplify_eq; try done.
      * intros [= <-] Ha. apply Hb in Ha. lia.
      * intros Ha [= <-]. apply Hb in Ha. lia.
      * eauto.
  - split; simpl; try (by rewrite ?Hem, ?Had, ?Hre).
    intros e' _. unfold live. rewrite <- (Hv e').
    unfold events_get, deref. simpl. rewrite lookup_insert.
    case_decide; simplify_eq.
    + rewrite lookup_insert_eq, He1. simpl.
      by rewrite list_filter_filter_l.
    + destruct (_events s1 !! e') as [a'|] eqn:He'; [|done].
      rewrite lookup_insert_ne; [done|]. apply Hb in He'. lia.
Qed.

Lemma queue_enqueue e x m e' :
  queue (enqueue e x m) e' =
  if decide (e = e') then queue m e' ++ [x] else queue m e'.
Proof.
  unfold enqueue, queue at 1. rewrite lookup_insert.
  by case_decide; simplify_eq.
Qed.

Lemma safe_enqueue_addition st e x :
  safe st (modify (set_additions (enqueue e x))).
Proof.
  apply safe_modify. intros s Hw Hp. split; [by destruct Hw|].
  split; simpl; try done.
  intros e' _. rewrite queue_enqueue.
  case_decide; [by apply prefix_app_r|done].
Qed.

Lemma safe_enqueue_removal st e x :
  safe st (modify (set_removals (enqueue e x))).
Proof.
  apply safe_modify. intros s Hw Hp. split; [by destruct Hw|].
  split; simpl; try done.
  intros e' _. rewrite queue_enqueue.
  case_decide; [by apply prefix_app_r|done].
Qed.

Lemma safe_clear_additions st e :
  e ∉ st → safe st (modify (set_additions (delete e))).
Proof.
  intros He. apply safe_modify. intros s Hw Hp. split; [by destruct Hw|].
  split; simpl; try done.
  intros e' He'. unfold queue. rewrite lookup_delete_ne; [done|]. by intros ->.
Qed.

Lemma safe_clear_removals st e :
  e ∉ st → safe st (modify (set_removals (delete e))).
Proof.
  intros He. apply safe_modify. intros s Hw Hp. split; [by destruct Hw|].
  split; simpl; try done.
  intros e' He'. unfold queue. rewrite lookup_delete_ne; [done|]. by intros ->.
Qed.

Lemma safe_quiet st (f : Emitter → Emitter) :
  (∀ s, _events (f s) = _events s ∧ lists (f s) = lists s ∧
        next_list (f s) = next_list s ∧ _emitting (f s) = _emitting s ∧
        _additions (f s) = _additions s ∧ _removals (f s) = _removals s) →
  safe st (modify f).
Proof.
  intros H. apply safe_modify. intros s [Hb Hi] Hp.
  destruct (H s) as (E1 & E2 & E3 & E4 & E5 & E6). split.
  - split; rewrite ?E1, ?E3; done.
  - apply frame_same; try done. intros e. unfold events_get, deref.
    by rewrite E1, E2.
Qed.

Lemma safe_for_each {A} st (f : A → M unit) l :
  (∀ x, safe st (f x)) → safe st (for_each f l).
Proof.
  intros Hf. induction l as [|x l IH]; simpl.
  - apply safe_ret.
  - apply safe_bind; auto.
Qed.

Lemma prefix_not_elem (st l : list string) e :
  st `prefix_of` l → e ∉ l → e ∉ st.
Proof. intros Hp Hn Hin. apply Hn. by eapply elem_of_prefix. Qed.

Section Safe.
Variable body : nat → list value → act.
Variable emit_rec : string → list value → M bool.
Hypothesis emit_rec_safe : ∀ st event args, safe st (emit_rec event args).

Lemma safe__on st event listener :
  event ∉ st → safe st (_on emit_rec event listener).
Proof.
  intros He. unfold _on. apply safe_bind; [apply emit_rec_safe|].
  intros _. by apply safe_list_append.
Qed.

Lemma safe_on st event listener : safe st (on emit_rec event listener).
Proof.
  intros s Hw Hp. unfold post, on, is_emitting.
  case_bool_decide as He; simpl.
  - apply (safe_enqueue_addition st event listener s Hw Hp).
  - apply (safe__on st event listener (prefix_not_elem _ _ _ Hp He) s Hw Hp).
Qed.

Lemma safe_once st event listener : safe st (once emit_rec event listener).
Proof.
  intros s Hw Hp. unfold post, once, is_emitting. simpl.
  assert (Hq : safe st (modify (set_next_uid (S (next_uid s))))).
  { by apply safe_quiet. }
  specialize (Hq s Hw Hp). unfold post, modify in Hq. destruct Hq as [Hw1 Hf1].
  case_bool_decide as He; simpl.
  - pose proof (safe_enqueue_addition st event (_Once (next_uid s) listener)
      _ Hw1 (frame_stack _ _ _ Hf1)) as H.
    unfold post in *. simpl in *. destruct H. split; [done|].
    by eapply frame_trans.
  - pose proof (safe__on st event (_Once (next_uid s) listener)
      (prefix_not_elem _ _ _ Hp He) _ Hw1 (frame_stack _ _ _ Hf1)) as H.
    unfold post in *.
    destruct (_on _ _ _ _) as [[] s2|x s2|]; try done;
      destruct H; split; try done; by eapply frame_trans.
Qed.

Lemma safe__remove st event listener :
  safe st (_remove emit_rec event listener).
Proof.
  intros s Hw Hp. unfold post, _remove.
  destruct (find_offset _ _) as [offset|].
  - revert s Hw Hp.
    change (safe st
      (a <- events_getitem event ;;
       list_pop a offset ;;
       emit_rec "remove_listener" [VStr event; VObj listener] ;; ret tt)).
    pose proof (safe_bind st
      (a <- events_getitem event ;; list_pop a offset)
      (λ _, emit_rec "remove_listener" [VStr event; VObj listener] ;; ret tt))
      as H.
    intros s Hw Hp. specialize (H (safe_list_pop st event offset)).
    specialize (H (λ _, safe_bind st _ _ (emit_rec_safe st _ _)
                          (λ _, safe_ret st tt)) s Hw Hp).
    unfold post, bind in *.
    by destruct (events_getitem event s) as [a s1|x s1|].
  - split; [done | by apply frame_refl].
Qed.

Lemma safe_remove st event listener :
  safe st (remove emit_rec event listener).
Proof.
  intros s Hw Hp. unfold post, remove, is_emitting.
  case_bool_decide as He; simpl.
  - apply (safe_enqueue_removal st event listener s Hw Hp).
  - apply (safe__remove st event listener s Hw Hp).
Qed.

Lemma safe_run st a : safe st (run emit_rec a).
Proof.
  induction a as [|x|v k IH|k IH|event args k IH|event l k IH|event l k IH
                  |event l k IH|event k IH|event k IH|block IHb handler IHh k IHk];
    simpl.
  - apply safe_ret.
  - apply safe_raise.
  - apply safe_bind; [by apply safe_quiet | done].
  - apply safe_bind; [apply safe_gets | done].
  - apply safe_bind; [apply emit_rec_safe | done].
  - apply safe_bind; [apply safe_on | done].
  - apply safe_bind; [apply safe_once | done].
  - apply safe_bind; [apply safe_remove | done].
  - apply safe_bind; [apply safe_gets | done].
  - apply safe_bind; [apply safe_gets | done].
  - intros s Hw Hp. specialize (IHb s Hw Hp). unfold post in *.
    destruct (run emit_rec block s) as [[] s1|x s1|]; [| |done].
    + destruct IHb as [Hw1 Hf1].
      specialize (IHk s1 Hw1 (frame_stack _ _ _ Hf1)). unfold post in IHk.
      destruct (run emit_rec k s1); try done;
        destruct IHk; split; try done; by eapply frame_trans.
    + destruct IHb as [Hw1 Hf1].
      pose proof (safe_bind st _ _ (IHh x) (λ _, IHk) s1 Hw1
                    (frame_stack _ _ _ Hf1)) as H.
      unfold post in H.
      destruct ((run emit_rec (handler x);; run emit_rec k) s1); try done;
        destruct H; split; try done; by eapply frame_trans.
Qed.

Lemma safe_call st c args : safe st (call body emit_rec c args).
Proof.
  induction c as [name|uid func IH]; simpl; [|done].
  apply safe_bind; [by apply safe_quiet | intros _; apply safe_run].
Qed.

Lemma safe_invoke st listener args :
  safe st (invoke body emit_rec listener args).
Proof.
  destruct listener; simpl; [apply safe_call | apply safe_raise].
Qed.

Lemma safe_finally st event offset listener :
  safe st (finally_clause event offset listener).
Proof.
  unfold finally_clause. destruct (is_once listener).
  - apply safe_list_setitem.
  - apply safe_ret.
Qed.

Lemma safe_turn st event args offset listener :
  safe st (turn body emit_rec event args offset listener).
Proof.
  intros s Hw Hp. unfold post, turn.
  pose proof (safe_invoke st listener args s Hw Hp) as Hi. unfold post in Hi.
  assert (Hfin : ∀ s1, wf s1 → frame st s s1 →
    post (finally_clause event offset listener) s1
      (λ s', wf s' ∧ frame st s s')).
  { intros s1 Hw1 Hf1.
    pose proof (safe_finally st event offset listener s1 Hw1
                  (frame_stack _ _ _ Hf1)) as H.
    unfold post in *. destruct (finally_clause _ _ _ _); try done;
      destruct H; split; try done; by eapply frame_trans. }
  destruct (invoke body emit_rec listener args s) as [[] s1|exc s1|];
    [| |done]; destruct Hi as [Hw1 Hf1].
  - apply (Hfin s1 Hw1 Hf1).
  - destruct (_ || _).
    + specialize (Hfin s1 Hw1 Hf1). unfold post in Hfin.
      by destruct (finally_clause _ _ _ _).
    + pose proof (safe_bind st _ _ (emit_rec_safe st "error"
                    [VStr event; VExc exc]) (λ _, safe_ret st tt) s1 Hw1
                    (frame_stack _ _ _ Hf1)) as H.
      unfold post in H.
      destruct ((emit_rec "error" [VStr event; VExc exc];; ret ()) s1)
        as [[] s2|y s2|]; [| |done]; destruct H as [Hw2 Hf2];
        specialize (Hfin s2 Hw2 (frame_trans _ _ _ _ Hf1 Hf2));
        unfold post in Hfin; by destruct (finally_clause _ _ _ _).
Qed.

Lemma safe_dispatch st steps a event args offset :
  safe st (dispatch body emit_rec steps a event args offset).
Proof.
  revert offset. induction steps as [|steps IH]; intros offset s Hw Hp;
    unfold post; simpl.
  - destruct (deref a s !! offset); [done|].
    split; [done | by apply frame_refl].
  - destruct (deref a s !! offset) as [listener|].
    + apply (safe_bind st _ _ (safe_turn st event args offset listener)
               (λ _, IH (S offset)) s Hw Hp).
    + split; [done | by apply frame_refl].
Qed.
End Safe.

Section SafeEmit.
Variable body : nat → list value → act.
Variable emit_rec : string → list value → M bool.
Hypothesis emit_rec_safe : ∀ st event args, safe st (emit_rec event args).

Lemma emit_loop_frame steps event args s :
  wf s →
  post (emit_loop body emit_rec steps event args) s
    (λ s', wf s' ∧ frame (_emitting s ++ [event]) s s').
Proof.
  intros Hw. unfold emit_loop.
  set (s1 := set_emitting (λ l, l ++ [event]) s).
  assert (Hw1 : wf s1) by by destruct Hw.
  pose proof (λ H1 H2, safe_bind (_emitting s ++ [event])
    (events_getitem event)
    (λ a, dispatch body emit_rec steps a event args 0) H1 H2 s1 Hw1
    (reflexivity _)) as H.
  unfold post, bind at 1, modify. fold s1.
  assert (Hget : safe (_emitting s ++ [event]) (events_getitem event)).
  { intros s' Hw' Hp'.
    destruct (events_getitem_spec event s' Hw')
      as (a & s2 & Hg & Hw2 & _ & Hv & Hem & Had & Hre).
    unfold post. rewrite Hg. split; [done|]. by apply frame_same. }
  specialize (H Hget (λ a, safe_dispatch body emit_rec emit_rec_safe _ _ _ _ _ _)).
  unfold post in H.
  destruct ((a <- events_getitem event;;
             dispatch body emit_rec steps a event args 0) s1);
    try done; destruct H as [Hw2 [A B C D]]; split; done.
Qed.

Lemma removelast_prefix (stk junk : list string) event :
  stk `prefix_of` removelast (stk ++ [event] ++ junk).
Proof.
  destruct junk as [|x junk _] using rev_ind.
  - rewrite app_nil_r, removelast_last. done.
  - rewrite !app_assoc, removelast_last, <- app_assoc. by apply prefix_app_r.
Qed.

Lemma safe_flush st event : event ∉ st → safe st (flush emit_rec event).
Proof.
  intros He. unfold flush.
  apply safe_bind; [apply safe_gets|]. intros removals.
  apply safe_bind; [by apply safe_clear_removals|]. intros _.
  apply safe_bind; [apply safe_gets|]. intros additions.
  apply safe_bind; [by apply safe_clear_additions|]. intros _.
  apply safe_bind.
  - apply safe_for_each, (safe__remove emit_rec emit_rec_safe).
  - intros _. apply safe_for_each. intros l.
    by apply (safe__on emit_rec emit_rec_safe).
Qed.

Lemma epilogue_frame stk event s :
  wf s → stk ++ [event] `prefix_of` _emitting s →
  post (epilogue emit_rec event) s (λ s', wf s' ∧ frame stk s s').
Proof.
  intros Hw Hp.
  pose proof (safe_purge (stk ++ [event]) event s Hw Hp) as H.
  unfold epilogue, post. unfold post in H. unfold bind at 1.
  destruct (purge event s) as [[] s2|x s2|] eqn:Hpurge; [| |done].
  2:{ destruct H as [Hw2 [A B C D]]. split; [done|]. split.
      - by eapply prefix_app_l.
      - intros e He. apply B. set_solver.
      - intros e He. apply C. set_solver.
      - intros e He. apply D. set_solver. }
  destruct H as [Hw2 Hf2].
  destruct (frame_stack _ _ _ Hf2) as [junk Hj].
  unfold bind at 1, emitting_pop. rewrite Hj.
  destruct ((stk ++ [event]) ++ junk) as [|x0 l0] eqn:Hnil.
  { by destruct stk. }
  rewrite <- Hnil in Hj. rewrite <- app_assoc in Hj. clear Hnil.
  set (s3 := set_emitting _ s2).
  assert (Hw3 : wf s3) by by destruct Hw2.
  assert (Hp3 : stk `prefix_of` _emitting s3).
  { change (stk `prefix_of` removelast (_emitting s2)).
    rewrite Hj. apply removelast_prefix. }
  assert (Hf3 : frame stk s s3).
  { destruct Hf2 as [A B C D]. split; try done.
    - intros e He. apply B. set_solver.
    - intros e He. apply C. set_solver.
    - intros e He. apply (D e). set_solver. }
  unfold bind at 1, gets at 1.
  destruct (negb (is_emitting event s3)) eqn:Hidle.
  - assert (He : event ∉ stk).
    { apply negb_true_iff, bool_decide_eq_false in Hidle.
      by eapply prefix_not_elem. }
    pose proof (safe_flush stk event He s3 Hw3 Hp3) as H.
    unfold post in H. unfold bind, ret.
    destruct (flush emit_rec event s3); try done;
      destruct H; split; try done; by eapply frame_trans.
  - unfold bind, ret. by split.
Qed.

Lemma safe_emit_body st steps event args :
  safe st (emit_body body emit_rec steps event args).
Proof.
  intros s Hw Hp. unfold post, emit_body.
  case_bool_decide; [split; [done | by apply frame_refl]|].
  pose proof (emit_loop_frame steps event args s Hw) as H1.
  unfold post in H1. unfold bind.
  destruct (emit_loop _ _ _ _ _ s) as [[] s1|x s1|]; [| |done];
    destruct H1 as [Hw1 Hf1].
  - pose proof (epilogue_frame (_emitting s) event s1 Hw1
                  (frame_stack _ _ _ Hf1)) as H2.
    unfold post in H2.
    assert (Hf : frame st s s1).
    { destruct Hp as [k Hk]. destruct Hf1 as [A B C D]. split.
      - etrans; [|done]. rewrite Hk, <- app_assoc. by apply prefix_app_r.
      - intros e He. apply B. rewrite Hk. set_solver.
      - intros e He. apply C. rewrite Hk. set_solver.
      - intros e He. apply D. rewrite Hk. set_solver. }
    assert (Hsub : ∀ s2, frame (_emitting s) s1 s2 → frame st s s2).
    { intros s2 [A B C D]. destruct Hp as [k Hk]. eapply frame_trans; [done|].
      split.
      - etrans; [|done]. rewrite Hk. by apply prefix_app_r.
      - intros e He. apply B. rewrite Hk. set_solver.
      - intros e He. apply C. rewrite Hk. set_solver.
      - intros e He. apply D. rewrite Hk. set_solver. }
    destruct (epilogue emit_rec event s1); try done;
      destruct H2; split; auto.
  - split; [done|]. destruct Hp as [k Hk]. destruct Hf1 as [A B C D]. split.
    + etrans; [|done]. rewrite Hk, <- app_assoc. by apply prefix_app_r.
    + intros e He. apply B. rewrite Hk. set_solver.
    + intros e He. apply C. rewrite Hk. set_solver.
    + intros e He. apply D. rewrite Hk. set_solver.
Qed.
End SafeEmit.

Lemma emit_safe body fuel st event args : safe st (emit body fuel event args).
Proof.
  revert st event args. induction fuel as [|fuel IH]; intros st event args.
  - by intros s Hw Hp.
  - simpl. by apply safe_emit_body.
Qed.

Lemma NoDup_snd_inj {K V} (l : list (K * V)) k1 k2 v :
  NoDup l.*2 → (k1, v) ∈ l → (k2, v) ∈ l → k1 = k2.
Proof.
  induction l as [|[k w] l IH]; simpl; intros Hnd H1 H2.
  - by apply elem_of_nil in H1.
  - apply NoDup_cons in Hnd as [Hw Hnd].
    apply elem_of_cons in H1 as [H1|H1];
      apply elem_of_cons in H2 as [H2|H2]; simplify_eq; try done.
    + destruct Hw. apply list_elem_of_fmap. by exists (k2, w).
    + destruct Hw. apply list_elem_of_fmap. by exists (k1, w).
    + eauto.
Qed.

Lemma wfb_wf s : wfb s = true → wf s.
Proof.
  unfold wfb. intros [H1%bool_decide_eq_true H2%bool_decide_eq_true]%andb_true_iff.
  split.
  - intros e a He. by apply (H1 e a).
  - intros e1 e2 a He1 He2.
    apply (NoDup_snd_inj (map_to_list (_events s)) e1 e2 a H2);
      by apply elem_of_map_to_list.
Qed.

(** ** Dispatch to listeners that only observe *)

Lemma run_passive emit_rec a s :
  passive a →
  ∃ s', run emit_rec a s = Ok tt s' ∧ same_emitter s s' ∧ calls s' = calls s.
Proof.
  revert s. induction a as [|x|v k IH|k IH|event args k IH|event l k IH
    |event l k IH|event l k IH|event k IH|event k IH|b IHb h IHh k IHk];
    intros s Hp; simpl in Hp; try done.
  - exists s. by repeat split.
  - destruct (IH (set_notes (λ n, n ++ [v]) s) Hp) as (s' & Hr & Hs & Hc).
    exists s'. simpl. unfold bind, modify. by rewrite Hr.
  - destruct (IH (notes s) s (Hp _)) as (s' & Hr & Hs & Hc).
    exists s'. simpl. unfold bind, gets. by rewrite Hr.
  - destruct (IH (listeners_count event s) s (Hp _)) as (s' & Hr & Hs & Hc).
    exists s'. simpl. unfold bind, gets. by rewrite Hr.
  - destruct (IH (gen_list (listeners event s) s).1 s (Hp _))
      as (s' & Hr & Hs & Hc).
    exists s'. simpl. unfold bind, gets. by rewrite Hr.
Qed.

Lemma call_passive body emit_rec c args s :
  (∀ args, passive (body (target c) args)) →
  ∃ s', call body emit_rec c args s = Ok tt s' ∧ same_emitter s s' ∧
        calls s' = calls s ++ [(target c, args)].
Proof.
  induction c as [name|uid func IH]; simpl; intros Hb; [|by apply IH].
  destruct (run_passive emit_rec (body name args)
              (set_calls (λ l, l ++ [(name, args)]) s) (Hb _))
    as (s' & Hr & Hs & Hc).
  exists s'. unfold bind, modify. by rewrite Hr.
Qed.

Lemma observer_observing : observing scripts (Some (Fn observer)).
Proof.
  exists (Fn observer). split; [done|].
  by intros [|[] [|? []]].
Qed.

Section Passive.
Variable body : nat → list value → act.
Variable emit_rec : string → list value → M bool.

Lemma touches_refl a s : touches a s s.
Proof. by repeat split. Qed.

Lemma touches_trans a s1 s2 s3 :
  touches a s1 s2 → touches a s2 s3 → touches a s1 s3.
Proof.
  intros (A1 & A2 & A3 & A4 & A5 & A6 & A7) (B1 & B2 & B3 & B4 & B5 & B6 & B7).
  repeat split; try congruence. intros a' Ha. by rewrite B7, A7.
Qed.

Lemma same_emitter_touches a s s' : same_emitter s s' → touches a s s'.
Proof.
  intros (E1 & E2 & E3 & E4 & E5 & E6 & E7 & E8).
  repeat split; try done. intros a' _. by rewrite E2.
Qed.

Lemma turn_passive event args a offset c s :
  (∀ args, passive (body (target c) args)) →
  _events s !! event = Some a →
  deref a s !! offset = Some (Some c) →
  ∃ s', turn body emit_rec event args offset (Some c) s = Ok tt s' ∧
    touches a s s' ∧
    deref a s' = <[offset := spent (Some c)]> (deref a s) ∧
    calls s' = calls s ++ [(target c, args)].
Proof.
  intros Hb He Hl. unfold turn. simpl.
  destruct (call_passive body emit_rec c args s Hb)
    as (s1 & Hc & Hsame & Hcalls).
  pose proof (same_emitter_touches a _ _ Hsame) as Ht.
  destruct Hsame as (E1 & E2 & _).
  rewrite Hc. unfold finally_clause, spent.
  assert (Hd : deref a s1 = deref a s) by (unfold deref; by rewrite E2).
  destruct (is_once (Some c)).
  - unfold bind, events_getitem. rewrite E1, He. unfold list_setitem.
    rewrite Hd. case_decide as Hlt.
    + eexists. split; [done|]. split; [|split].
      * eapply touches_trans; [done|]. repeat split; try done.
        intros a' Ha. simpl. by rewrite lookup_insert_ne.
      * unfold deref. simpl. by rewrite lookup_insert_eq.
      * done.
    + apply lookup_lt_Some in Hl. by destruct Hlt.
  - exists s1. repeat split; try done; try apply Ht.
    rewrite Hd. symmetry. by apply list_insert_id.
Qed.

Lemma dispatch_S steps a event args offset s :
  dispatch body emit_rec (S steps) a event args offset s =
  match deref a s !! offset with
  | Some listener =>
      (turn body emit_rec event args offset listener ;;
       dispatch body emit_rec steps a event args (S offset)) s
  | None => Ok tt s
  end.
Proof. done. Qed.

Lemma dispatch_passive event args a rest :
  ∀ done steps s,
  _events s !! event = Some a →
  deref a s = done ++ rest →
  Forall (observing body) rest →
  length rest ≤ steps →
  ∃ s', dispatch body emit_rec steps a event args (length done) s = Ok tt s' ∧
    touches a s s' ∧
    deref a s' = done ++ (spent <$> rest) ∧
    calls s' = calls s ++ notify rest args.
Proof.
  induction rest as [|x rest IH]; intros done steps s He Hd Hall Hlen.
  - exists s. rewrite app_nil_r in *.
    assert (Hn : deref a s !! length done = None).
    { rewrite Hd. by apply lookup_ge_None. }
    destruct steps; simpl; rewrite Hn; rewrite ?app_nil_r;
      repeat split; try done.
  - destruct steps as [|steps]; [simpl in Hlen; lia|].
    apply Forall_cons in Hall as [(c & -> & Hb) Hall].
    assert (Hx : deref a s !! length done = Some (Some c)).
    { rewrite Hd. by apply list_lookup_middle. }
    destruct (turn_passive event args a (length done) c s Hb He Hx)
      as (s1 & Ht & T1 & Hd1 & Hc1).
    destruct (IH (done ++ [spent (Some c)]) steps s1) as
      (s2 & Hdis & T2 & Hd2 & Hc2).
    { destruct T1 as (-> & _). done. }
    { rewrite Hd1, Hd, <- app_assoc. simpl.
      by rewrite insert_app_r_alt, Nat.sub_diag by lia. }
    { done. }
    { simpl in Hlen. lia. }
    exists s2. rewrite dispatch_S, Hx. unfold bind. rewrite Ht.
    rewrite length_app, Nat.add_1_r in Hdis. rewrite Hdis.
    split; [done|]. split; [by eapply touches_trans|]. split.
    + rewrite Hd2, <- app_assoc. done.
    + rewrite Hc2, Hc1, <- app_assoc. done.
Qed.
End Passive.

Lemma queue_delete m e e' : queue m e = [] → queue (delete e m) e' = queue m e'.
Proof.
  unfold queue. intros H. rewrite lookup_delete. case_decide; simplify_eq; [|done].
  by rewrite H.
Qed.

Lemma emitting_pop_snoc stk event s :
  _emitting s = stk ++ [event] →
  emitting_pop s = Ok tt (set_emitting (λ _, stk) s).
Proof.
  intros H. unfold emitting_pop, set_emitting. rewrite H, removelast_last.
  by destruct stk.
Qed.

(** The statements after the loop when nothing is queued for the event. *)
Lemma epilogue_quiet emit_rec event a stk s :
  _events s !! event = Some a →
  _emitting s = stk ++ [event] →
  queue (_removals s) event = [] →
  queue (_additions s) event = [] →
  ∃ s', epilogue emit_rec event s = Ok true s' ∧
    _events s' = <[event := next_list s]> (_events s) ∧
    lists s' =
      <[next_list s := filter (λ x : slot, is_Some x) (deref a s)]> (lists s) ∧
    next_list s' = S (next_list s) ∧
    _emitting s' = stk ∧
    (∀ e, queue (_removals s') e = queue (_removals s) e) ∧
    (∀ e, queue (_additions s') e = queue (_additions s) e) ∧
    calls s' = calls s ∧ notes s' = notes s ∧ next_uid s' = next_uid s.
Proof.
  intros He Hst Hr Ha. unfold epilogue.
  unfold bind at 1, purge. unfold bind at 1, events_getitem. rewrite He.
  unfold bind at 1, gets at 1, modify at 1.
  unfold bind at 1. rewrite (emitting_pop_snoc stk event) by done.
  unfold bind at 1, gets at 1, is_emitting. simpl.
  case_bool_decide as Hin; simpl.
  - eexists. split; [done|]. done.
  - unfold flush, bind, gets, modify. simpl. rewrite Hr, Ha.
    simpl. unfold ret. eexists. split; [done|]. simpl.
    repeat split; try done.
    + intros e. by apply queue_delete.
    + intros e. by apply queue_delete.
Qed.

Lemma filter_spent (l : list slot) :
  Forall is_Some l →
  filter (λ x : slot, is_Some x) (spent <$> l) =
  filter (λ x : slot, is_once x = false) l.
Proof.
  induction 1 as [|x l [c ->] _ IH]; [done|].
  rewrite fmap_cons, !filter_cons, IH. unfold spent.
  destruct (is_once (Some c)) eqn:Ho.
  - rewrite decide_False by (by intros [? ?]). by rewrite decide_False.
  - rewrite decide_True by done. by rewrite decide_True.
Qed.

Lemma events_get_bound event s :
  events_get event s ≠ [] → ∃ a, _events s !! event = Some a.
Proof. unfold events_get. destruct (_ !! _); [eauto|done]. Qed.

(** Every listener of the event is called once, in registration order, with
    the arguments of [emit]; the one-time listeners are gone afterwards and
    nothing else in the emitter has changed. *)
Lemma emit_passive body fuel event args s :
  events_get event s ≠ [] →
  Forall (observing body) (events_get event s) →
  queue (_removals s) event = [] →
  queue (_additions s) event = [] →
  length (events_get event s) ≤ fuel →
  ∃ s', emit body (S fuel) event args s = Ok true s' ∧
    events_get event s' =
      filter (λ x : slot, is_once x = false) (events_get event s) ∧
    calls s' = calls s ++ notify (events_get event s) args ∧
    _emitting s' = _emitting s ∧
    (wf s → differs_on [event] s s').
Proof.
  intros Hne Hall Hr Ha Hlen.
  destruct (events_get_bound event s Hne) as [a He].
  assert (Hg : events_get event s = deref a s).
  { unfold events_get. by rewrite He. }
  simpl. unfold emit_body. rewrite bool_decide_eq_false_2 by done.
  unfold bind at 1, emit_loop. unfold bind at 1, modify at 1.
  unfold bind at 1, events_getitem. simpl. rewrite He.
  set (s1 := set_emitting _ s).
  destruct (dispatch_passive body (emit body fuel) event args a
              (deref a s) [] fuel s1) as
    (s2 & Hd & (E1 & E2 & E3 & E4 & E5 & E6 & E7) & Hl & Hc); try done.
  { by rewrite <- Hg. }
  { by rewrite <- Hg. }
  simpl in Hd. rewrite Hd.
  destruct (epilogue_quiet (emit body fuel) event a (_emitting s) s2)
    as (s3 & Hep & F1 & F2 & F3 & F4 & F5 & F6 & F7 & F8 & F9).
  { by rewrite E1. }
  { by rewrite E3. }
  { by rewrite E5. }
  { by rewrite E4. }
  rewrite Hep. exists s3. split; [done|]. split; [|split; [|split]].
  - unfold events_get, deref. rewrite F1, F2, lookup_insert_eq.
    rewrite lookup_insert_eq. simpl. rewrite He, Hl. simpl.
    apply (filter_spent (deref a s)). rewrite <- Hg.
    eapply Forall_impl; [done|]. intros x (c & -> & _). by eexists.
  - rewrite F7, Hc, Hg. done.
  - done.
  - intros [Hbound Hinj]. split; [done|]. split; [|split; [|split]].
    + intros e. by rewrite F5, E5.
    + intros e. by rewrite F6, E4.
    + intros e Hin. assert (e ≠ event) as Hn by set_solver.
      unfold events_get, deref. rewrite F1, F2, E1. simpl.
      rewrite lookup_insert_ne by done.
      destruct (_events s !! e) as [a'|] eqn:He'; [|done].
      rewrite lookup_insert_ne, E7; [done|..].
      * intros ->. apply Hn. by eapply Hinj.
      * rewrite E2. simpl. apply Hbound in He'. lia.
    + by rewrite F9, E6.
Qed.

(** ** The result of [emit] *)

Lemma bind_Ok_inv {A B} (m : M A) (k : A → M B) s b s' :
  bind m k s = Ok b s' → ∃ a s1, m s = Ok a s1 ∧ k a s1 = Ok b s'.
Proof. unfold bind. destruct (m s) as [a s1| |]; [eauto|done..]. Qed.

Lemma epilogue_true emit_rec event s b s' :
  epilogue emit_rec event s = Ok b s' → b = true.
Proof.
  unfold epilogue. intros H.
  apply bind_Ok_inv in H as (? & s1 & _ & H).
  apply bind_Ok_inv in H as (? & s2 & _ & H).
  apply bind_Ok_inv in H as (idle & s3 & _ & H).
  apply bind_Ok_inv in H as (? & s4 & _ & H).
  by injection H.
Qed.

Lemma listeners_count_0 event s :
  listeners_count event s = 0 ↔ events_get event s = [].
Proof. unfold listeners_count. by rewrite length_zero_iff_nil. Qed.

Lemma emit_no_listener body fuel event args s :
  events_get event s = [] → emit body (S fuel) event args s = Ok false s.
Proof. intros H. simpl. unfold emit_body. by rewrite bool_decide_eq_true_2. Qed.

(** ** Removal *)

Lemma find_offset_None listener l :
  find_offset listener l = None ↔ Forall (λ x, raw x ≠ Some listener) l.
Proof.
  induction l as [|x l IH]; simpl; [done|].
  rewrite Forall_cons. case_decide as Hx.
  - split; [done|]. intros [H _]. by destruct H.
  - rewrite fmap_None, IH. split; [by intros H | by intros [_ H]].
Qed.

Lemma find_offset_middle listener l1 x l2 :
  Forall (λ y, raw y ≠ Some listener) l1 → raw x = Some listener →
  find_offset listener (l1 ++ x :: l2) = Some (length l1).
Proof.
  intros H1 Hx. induction H1 as [|y l1 Hy _ IH]; simpl.
  - by rewrite decide_True.
  - rewrite decide_False by done. by rewrite IH.
Qed.

Lemma find_offset_Some listener l i :
  find_offset listener l = Some i →
  ∃ l1 x l2, l = l1 ++ x :: l2 ∧ length l1 = i ∧ raw x = Some listener ∧
             Forall (λ y, raw y ≠ Some listener) l1.
Proof.
  revert i. induction l as [|x l IH]; intros i; simpl; [done|].
  case_decide as Hx.
  - intros [= <-]. by exists [], x, l.
  - destruct (find_offset listener l) as [j|]; [|done]. intros [= <-].
    destruct (IH j eq_refl) as (l1 & y & l2 & -> & <- & Hy & Hl1).
    exists (x :: l1), y, l2. repeat split; try done.
    constructor; [congruence | done].
Qed.

(** ** Lifecycle events with listeners that only observe *)

Lemma differs_on_refl X s : differs_on X s s.
Proof. by repeat split. Qed.

Lemma differs_on_trans X s1 s2 s3 :
  differs_on X s1 s2 → differs_on X s2 s3 → differs_on X s1 s3.
Proof.
  intros (A1 & A2 & A3 & A4 & A5) (B1 & B2 & B3 & B4 & B5).
  split; [congruence|]. split; [|split; [|split]].
  - intros e. by rewrite B2.
  - intros e. by rewrite B3.
  - intros e He. by rewrite B4, A4.
  - congruence.
Qed.

Lemma differs_on_mono X Y s s' :
  X ⊆ Y → differs_on X s s' → differs_on Y s s'.
Proof.
  intros HXY (A1 & A2 & A3 & A4 & A5). repeat split; try done.
  intros e He. apply A4. intros Hin. by apply He, HXY.
Qed.

Lemma ready_differs body event l X s s' :
  event ∉ X → differs_on X s s' →
  ready body event l s → ready body event l s'.
Proof.
  intros He (A1 & A2 & A3 & A4 & A5) (R1 & R2 & R3 & R4).
  split; [by rewrite A4|]. split; [done|]. by rewrite A2, A3.
Qed.

Lemma appended_spec event x s :
  wf s →
  wf (appended event x s) ∧
  events_get event (appended event x s) = events_get event s ++ [x] ∧
  differs_on [event] s (appended event x s) ∧
  calls (appended event x s) = calls s ∧
  notes (appended event x s) = notes s.
Proof.
  intros Hw. unfold appended, bind.
  destruct (events_getitem_spec event s Hw)
    as (a & s1 & Hg & Hw1 & He1 & Hv & Hem & Had & Hre).
  rewrite Hg. unfold list_append, modify.
  destruct (store_spec event a (deref a s1 ++ [x]) s1 Hw1 He1)
    as (Hw2 & Hg2 & Hother).
  split; [done|]. split.
  { rewrite Hg2, <- Hv. unfold events_get. by rewrite He1. }
  assert (Hc : calls s1 = calls s ∧ notes s1 = notes s ∧
               next_uid s1 = next_uid s).
  { unfold events_getitem in Hg. destruct (_events s !! event);
      by injection Hg as <- <-. }
  destruct Hc as (Hc1 & Hc2 & Hc3).
  split; [|by split]. repeat split; simpl; try congruence.
  intros e He. rewrite Hother by mem. apply Hv.
Qed.


Lemma _on_unfold emit_rec event listener s :
  _on emit_rec event listener s =
  match emit_rec "new_listener" [VStr event; VObj listener] s with
  | Ok _ s1 => Ok tt (appended event (Some listener) s1)
  | Err x s1 => Err x s1
  | Timeout => Timeout
  end.
Proof.
  unfold _on. unfold bind at 1.
  destruct (emit_rec _ _ s) as [b s1|x s1|]; try done.
  unfold appended, bind, events_getitem, list_append, modify.
  by destruct (_ !! _).
Qed.

Lemma filter_plain body (l : list slot) :
  Forall (plain body) l → filter (λ x : slot, is_once x = false) l = l.
Proof.
  induction 1 as [|x l [_ Hx] _ IH]; [done|].
  by rewrite filter_cons_True, IH.
Qed.

Lemma emit_wf body fuel event args s :
  wf s →
  match emit body fuel event args s with
  | Ok _ s' | Err _ s' => wf s'
  | Timeout => True
  end.
Proof.
  intros Hw. pose proof (emit_safe body fuel [] event args s Hw
                           (prefix_nil _)) as H.
  unfold post in H. destruct (emit body fuel event args s); try done;
    by destruct H.
Qed.

Section Ready.
Variable body : nat → list value → act.

Lemma emit_ready fuel event l args s :
  wf s → ready body event l s → length l ≤ fuel →
  ∃ b s', emit body (S fuel) event args s = Ok b s' ∧ wf s' ∧
    ready body event l s' ∧ differs_on [event] s s' ∧
    calls s' = calls s ++ notify l args.
Proof.
  intros Hw (Hl & Hplain & Hr & Ha) Hlen.
  destruct (decide (l = [])) as [->|Hne].
  - exists false, s. rewrite emit_no_listener by done.
    split; [done|]. split; [done|]. split; [by split|].
    split; [apply differs_on_refl|]. unfold notify. simpl.
    by rewrite app_nil_r.
  - destruct (emit_passive body fuel event args s)
      as (s' & He & Hg & Hc & _ & Hd); try done; try by rewrite Hl.
    { rewrite Hl. eapply Forall_impl; [done|]. by intros x [? _]. }
    specialize (Hd Hw). exists true, s'. split; [done|].
    pose proof (emit_wf body (S fuel) event args s Hw) as Hw'.
    rewrite He in Hw'. split; [done|].
    destruct Hd as (D1 & D2 & D3 & D4 & D5).
    split; [|split].
    + split; [by rewrite Hg, Hl, (filter_plain body)|]. split; [done|].
      by rewrite D2, D3.
    + by repeat split.
    + by rewrite Hc, Hl.
Qed.

Lemma _on_ready fuel event c ln s :
  wf s → event ≠ "new_listener" → ready body "new_listener" ln s →
  length ln ≤ fuel →
  ∃ s', _on (emit body (S fuel)) event c s = Ok tt s' ∧ wf s' ∧
    events_get event s' = events_get event s ++ [Some c] ∧
    differs_on [event; "new_listener"] s s' ∧
    ready body "new_listener" ln s' ∧
    calls s' = calls s ++ notify ln [VStr event; VObj c].
Proof.
  intros Hw Hne Hready Hlen.
  destruct (emit_ready fuel "new_listener" ln [VStr event; VObj c] s
              Hw Hready Hlen) as (b & s1 & He & Hw1 & Hr1 & Hd1 & Hc1).
  rewrite _on_unfold, He.
  destruct (appended_spec event (Some c) s1 Hw1) as (Hw2 & Hg2 & Hd2 & Hc2 & _).
  eexists. split; [done|]. split; [done|]. split; [|split; [|split]].
  - rewrite Hg2. f_equal. apply Hd1. mem.
  - eapply differs_on_trans; (eapply differs_on_mono; [|done]); mem.
  - eapply ready_differs; [|done..]. mem.
  - by rewrite Hc2, Hc1.
Qed.

Lemma _remove_ready fuel event c lr s :
  wf s → event ≠ "remove_listener" → ready body "remove_listener" lr s →
  length lr ≤ fuel →
  ∃ s', _remove (emit body (S fuel)) event c s = Ok tt s' ∧ wf s' ∧
    events_get event s' = remove_first c (events_get event s) ∧
    differs_on [event; "remove_listener"] s s' ∧
    ready body "remove_listener" lr s' ∧
    calls s' = calls s ++
      (if find_offset c (events_get event s) is Some _
       then notify lr [VStr event; VObj c] else []).
Proof.
  intros Hw Hne Hready Hlen. unfold _remove, remove_first.
  destruct (find_offset c (events_get event s)) as [offset|] eqn:Hfind.
  - destruct (events_get_bound event s) as [a Ha].
    { intros Hnil. by rewrite Hnil in Hfind. }
    unfold bind at 1, events_getitem. rewrite Ha.
    unfold bind at 1, list_pop, modify.
    set (s1 := set_lists _ s).
    destruct (store_spec event a (delete offset (deref a s)) s Hw Ha)
      as (Hw1 & Hg1 & Hother). fold s1 in Hw1, Hg1, Hother.
    assert (Hd01 : differs_on [event] s s1).
    { repeat split; try done. intros e He. apply Hother. mem. }
    assert (Hr1 : ready body "remove_listener" lr s1).
    { eapply ready_differs; [|done..]. mem. }
    destruct (emit_ready fuel "remove_listener" lr [VStr event; VObj c] s1
                Hw1 Hr1 Hlen) as (b & s2 & He & Hw2 & Hr2 & Hd2 & Hc2).
    unfold bind, ret. rewrite He. eexists. split; [done|]. split; [done|].
    split; [|split; [|split]].
    + destruct Hd2 as (_ & _ & _ & D4 & _). rewrite D4 by mem.
      rewrite Hg1. unfold events_get. by rewrite Ha.
    + eapply differs_on_trans; (eapply differs_on_mono; [|done]); mem.
    + done.
    + by rewrite Hc2.
  - exists s. split; [done|]. split; [done|]. split; [done|].
    split; [apply differs_on_refl|]. split; [done|]. by rewrite app_nil_r.
Qed.

Lemma removals_ready fuel event lr rs :
  ∀ s, wf s → event ≠ "remove_listener" → ready body "remove_listener" lr s →
  length lr ≤ fuel →
  ∃ s', for_each (_remove (emit body (S fuel)) event) rs s = Ok tt s' ∧
    wf s' ∧
    events_get event s' =
      foldl (λ l r, remove_first r l) (events_get event s) rs ∧
    differs_on [event; "remove_listener"] s s' ∧
    ready body "remove_listener" lr s' ∧
    calls s' = calls s ++ removal_calls event lr rs (events_get event s).
Proof.
  induction rs as [|r rs IH]; intros s Hw Hne Hready Hlen.
  - exists s. split; [done|]. split; [done|]. split; [done|].
    split; [apply differs_on_refl|]. split; [done|]. simpl.
    by rewrite app_nil_r.
  - destruct (_remove_ready fuel event r lr s Hw Hne Hready Hlen)
      as (s1 & H1 & Hw1 & Hg1 & Hd1 & Hr1 & Hc1).
    destruct (IH s1 Hw1 Hne Hr1 Hlen) as (s2 & H2 & Hw2 & Hg2 & Hd2 & Hr2 & Hc2).
    exists s2. cbn [for_each]. unfold bind. rewrite H1. split; [done|].
    split; [done|]. split; [|split; [|split]].
    + by rewrite Hg2, Hg1.
    + by eapply differs_on_trans.
    + done.
    + by rewrite Hc2, Hc1, Hg1, <- app_assoc.
Qed.

Lemma additions_ready fuel event ln q :
  ∀ s, wf s → event ≠ "new_listener" → ready body "new_listener" ln s →
  length ln ≤ fuel →
  ∃ s', for_each (_on (emit body (S fuel)) event) q s = Ok tt s' ∧
    wf s' ∧
    events_get event s' = events_get event s ++ (Some <$> q) ∧
    differs_on [event; "new_listener"] s s' ∧
    ready body "new_listener" ln s' ∧
    calls s' = calls s ++ addition_calls event ln q.
Proof.
  induction q as [|c q IH]; intros s Hw Hne Hready Hlen.
  - exists s. split; [done|]. split; [done|]. split; [by rewrite app_nil_r|].
    split; [apply differs_on_refl|]. split; [done|]. simpl.
    by rewrite app_nil_r.
  - destruct (_on_ready fuel event c ln s Hw Hne Hready Hlen)
      as (s1 & H1 & Hw1 & Hg1 & Hd1 & Hr1 & Hc1).
    destruct (IH s1 Hw1 Hne Hr1 Hlen) as (s2 & H2 & Hw2 & Hg2 & Hd2 & Hr2 & Hc2).
    exists s2. cbn [for_each]. unfold bind. rewrite H1. split; [done|].
    split; [done|]. split; [|split; [|split]].
    + by rewrite Hg2, Hg1, <- app_assoc.
    + by eapply differs_on_trans.
    + done.
    + rewrite Hc2, Hc1, <- app_assoc. done.
Qed.

Lemma flush_ready fuel event ln lr s :
  wf s → event ≠ "new_listener" → event ≠ "remove_listener" →
  ready body "new_listener" ln s → ready body "remove_listener" lr s →
  length ln ≤ fuel → length lr ≤ fuel →
  ∃ s', flush (emit body (S fuel)) event s = Ok tt s' ∧ wf s' ∧
    events_get event s' =
      foldl (λ l r, remove_first r l) (events_get event s)
        (queue (_removals s) event)
      ++ (Some <$> queue (_additions s) event) ∧
    calls s' = calls s
      ++ removal_calls event lr (queue (_removals s) event)
           (events_get event s)
      ++ addition_calls event ln (queue (_additions s) event) ∧
    queue (_removals s') event = [] ∧ queue (_additions s') event = [] ∧
    _emitting s' = _emitting s ∧
    ready body "new_listener" ln s' ∧ ready body "remove_listener" lr s'.
Proof.
  intros Hw Hn Hr Hrn Hrr Hln Hlr. unfold flush.
  unfold bind at 1, gets at 1. unfold bind at 1, modify at 1.
  unfold bind at 1, gets at 1. unfold bind at 1, modify at 1.
  set (s0 := set_additions _ _).
  assert (Hw0 : wf s0) by by destruct Hw.
  assert (Hq : ∀ e, e ≠ event →
            queue (_removals s0) e = queue (_removals s) e ∧
            queue (_additions s0) e = queue (_additions s) e).
  { intros e He. unfold queue. simpl. by rewrite !lookup_delete_ne. }
  assert (Hq0 : queue (_removals s0) event = [] ∧
                queue (_additions s0) event = []).
  { unfold queue. simpl. by rewrite !lookup_delete_eq. }
  assert (Hrn0 : ready body "new_listener" ln s0).
  { destruct Hrn as (R1 & R2 & R3 & R4). destruct (Hq "new_listener") as [Q1 Q2];
      [done|]. split; [done|]. split; [done|]. by rewrite Q1, Q2. }
  assert (Hrr0 : ready body "remove_listener" lr s0).
  { destruct Hrr as (R1 & R2 & R3 & R4).
    destruct (Hq "remove_listener") as [Q1 Q2]; [done|].
    split; [done|]. split; [done|]. by rewrite Q1, Q2. }
  destruct (removals_ready fuel event lr (queue (_removals s) event) s0
              Hw0 Hr Hrr0 Hlr) as (s1 & H1 & Hw1 & Hg1 & Hd1 & Hr1 & Hc1).
  assert (Hrn1 : ready body "new_listener" ln s1).
  { eapply ready_differs; [|done..]. mem. }
  destruct (additions_ready fuel event ln (queue (_additions s) event) s1
              Hw1 Hn Hrn1 Hln) as (s2 & H2 & Hw2 & Hg2 & Hd2 & Hr2 & Hc2).
  exists s2. unfold bind.
  change (_additions (set_removals (delete event) s)) with (_additions s).
  rewrite H1, H2.
  split; [done|]. split; [done|].
  destruct Hd1 as (D1 & D2 & D3 & D4 & D5).
  destruct Hd2 as (E1 & E2 & E3 & E4 & E5).
  destruct Hq0 as [Q1 Q2].
  split; [by rewrite Hg2, Hg1|]. split; [by rewrite Hc2, Hc1, <- app_assoc|].
  split; [by rewrite E2, D2|]. split; [by rewrite E3, D3|].
  split; [by rewrite E1, D1|]. split; [done|].
  eapply ready_differs; [|done..]. mem.
Qed.
End Ready.

(** ** The end of [emit] *)

Lemma purge_spec event s :
  wf s →
  ∃ s', purge event s = Ok tt s' ∧ wf s' ∧
    events_get event s' = live event s ∧
    (∀ e, e ≠ event → events_get e s' = events_get e s) ∧
    _emitting s' = _emitting s ∧ _removals s' = _removals s ∧
    _additions s' = _additions s ∧ calls s' = calls s ∧ notes s' = notes s ∧
    next_uid s' = next_uid s.
Proof.
  intros Hw.
  pose proof (safe_purge [] event s Hw (prefix_nil _)) as Hsafe.
  unfold post in Hsafe. unfold purge in *.
  destruct (events_getitem_spec event s Hw)
    as (a & s1 & Hg & [Hb Hi] & He1 & Hv & Hem & Had & Hre).
  assert (Hc : calls s1 = calls s ∧ notes s1 = notes s ∧
               next_uid s1 = next_uid s).
  { unfold events_getitem in Hg. destruct (_events s !! event);
      by injection Hg as <- <-. }
  destruct Hc as (Hc1 & Hc2 & Hc3).
  unfold bind, gets, modify in *. rewrite Hg in *.
  eexists. split; [done|]. destruct Hsafe as [Hw' _]. split; [done|].
  simpl. repeat split; try done.
  - unfold live. rewrite <- (Hv event). unfold events_get, deref. simpl.
    by rewrite !lookup_insert_eq, He1.
  - intros e Hne. rewrite <- (Hv e). unfold events_get, deref. simpl.
    rewrite lookup_insert_ne by done.
    destruct (_events s1 !! e) as [a'|] eqn:He'; [|done].
    rewrite lookup_insert_ne; [done|]. apply Hb in He'. lia.
Qed.

Lemma unwound_spec event stk x s :
  wf s → _emitting s = stk ++ [x] →
  (purge event ;; emitting_pop) s = Ok tt (unwound event s) ∧
  wf (unwound event s) ∧
  _emitting (unwound event s) = stk ∧
  events_get event (unwound event s) = live event s ∧
  (∀ e, e ≠ event → events_get e (unwound event s) = events_get e s) ∧
  _removals (unwound event s) = _removals s ∧
  _additions (unwound event s) = _additions s ∧
  calls (unwound event s) = calls s ∧ notes (unwound event s) = notes s ∧
  next_uid (unwound event s) = next_uid s.
Proof.
  intros Hw Hst. unfold unwound.
  destruct (purge_spec event s Hw)
    as (s1 & Hp & Hw1 & Hg & Ho & Hem & Hr & Ha & Hc & Hn & Hu).
  unfold bind. rewrite Hp.
  rewrite (emitting_pop_snoc stk x s1) by congruence.
  split; [done|]. split; [by destruct Hw1|]. by repeat split.
Qed.

Lemma epilogue_unfold emit_rec event stk x s :
  wf s → _emitting s = stk ++ [x] →
  epilogue emit_rec event s =
  if bool_decide (event ∈ stk) then Ok true (unwound event s)
  else (flush emit_rec event ;; ret true) (unwound event s).
Proof.
  intros Hw Hst.
  destruct (unwound_spec event stk x s Hw Hst) as (Hu & _ & Hem & _).
  unfold epilogue. unfold bind in Hu. unfold bind at 1.
  destruct (purge event s) as [[] s1|y s1|]; [|done..].
  unfold bind at 1. rewrite Hu. unfold bind at 1, gets at 1, is_emitting.
  rewrite Hem. by case_bool_decide.
Qed.


Lemma epilogue_ready body fuel event stk x ln lr s :
  wf s → _emitting s = stk ++ [x] → event ∉ stk →
  event ≠ "new_listener" → event ≠ "remove_listener" →
  ready body "new_listener" ln s → ready body "remove_listener" lr s →
  length ln ≤ fuel → length lr ≤ fuel →
  ∃ s', epilogue (emit body (S fuel)) event s = Ok true s' ∧ wf s' ∧
    events_get event s' =
      foldl (λ l r, remove_first r l) (live event s)
        (queue (_removals s) event)
      ++ (Some <$> queue (_additions s) event) ∧
    calls s' = calls s
      ++ removal_calls event lr (queue (_removals s) event) (live event s)
      ++ addition_calls event ln (queue (_additions s) event) ∧
    queue (_removals s') event = [] ∧ queue (_additions s') event = [] ∧
    _emitting s' = stk.
Proof.
  intros Hw Hst Hidle Hn Hr (N1 & N2 & N3 & N4) (R1 & R2 & R3 & R4) Hln Hlr.
  rewrite (epilogue_unfold _ _ stk x) by done.
  rewrite bool_decide_eq_false_2 by done.
  destruct (unwound_spec event stk x s Hw Hst)
    as (_ & Hwu & Hem & Hg & Ho & Hre & Had & Hc & _).
  destruct (flush_ready body fuel event ln lr (unwound event s))
    as (s' & Hf & Hw' & Hg' & Hc' & Q1 & Q2 & Hem' & _); try done.
  { split; [by rewrite Ho|]. split; [done|]. by rewrite Hre, Had. }
  { split; [by rewrite Ho|]. split; [done|]. by rewrite Hre, Had. }
  exists s'. unfold bind, ret. rewrite Hf. split; [done|]. split; [done|].
  rewrite Hg', Hc', Hg, Hre, Had, Hc, Hem', Hem. by repeat split.
Qed.

(** ** [on] by the state of the stack *)

Lemma on_idle emit_rec event listener s :
  event ∉ _emitting s →
  on emit_rec event listener s = _on emit_rec event listener s.
Proof. intros H. unfold on, is_emitting. by rewrite bool_decide_eq_false_2. Qed.

Lemma on_emitting emit_rec event listener s :
  event ∈ _emitting s →
  on emit_rec event listener s =
  Ok tt (set_additions (enqueue event listener) s).
Proof. intros H. unfold on, is_emitting. by rewrite bool_decide_eq_true_2. Qed.

(** What a call of [emit] leaves of an event that is on the stack. *)
Lemma emit_keeps_emitting body fuel event' args s event :
  wf s → event ∈ _emitting s →
  post (emit body fuel event' args) s (λ s',
    wf s' ∧ _emitting s `prefix_of` _emitting s' ∧
    queue (_additions s) event `prefix_of` queue (_additions s') event ∧
    queue (_removals s) event `prefix_of` queue (_removals s') event ∧
    live event s' `sublist_of` live event s).
Proof.
  intros Hw Hin.
  pose proof (emit_safe body fuel (_emitting s) event' args s Hw
                (reflexivity _)) as H.
  unfold post in *. destruct (emit body fuel event' args s); try done;
    destruct H as [Hw' [A B C D]]; (split; [done|]); repeat split; auto.
Qed.

(** ** The generator of [listeners] *)

Lemma gen_take_done n g s : gen_done g = true → gen_take n g s = ([], g).
Proof.
  intros H. destruct n; [done|]. simpl. unfold gen_next. by rewrite H.
Qed.

Lemma gen_take_list a s :
  ∀ n pos, pos ≤ length (deref a s) → length (deref a s) - pos < n →
  gen_take n (mkGen (Some a) pos false) s =
  (raw <$> drop pos (deref a s), mkGen (Some a) (length (deref a s)) true).
Proof.
  induction n as [|n IH]; intros pos Hle Hlt; [lia|].
  simpl. unfold gen_next. simpl.
  destruct (deref a s !! pos) as [x|] eqn:Hx.
  - pose proof (lookup_lt_Some _ _ _ Hx) as Hpos.
    rewrite IH by lia. simpl.
    by rewrite (drop_S _ _ _ Hx).
  - apply lookup_ge_None in Hx.
    assert (pos = length (deref a s)) as -> by lia.
    by rewrite drop_all.
Qed.

(** [list(g)] for a generator that has not been advanced: the raw entries
    of the list object it was created on, as they are when it is
    iterated. *)
Lemma gen_list_new src s :
  gen_list (mkGen src 0 false) s =
  (raw <$> from_option (λ a, deref a s) [] src,
   mkGen src (from_option (λ a, length (deref a s)) 0 src) true).
Proof.
  unfold gen_list. destruct src as [a|]; cbn [gen_src from_option].
  - rewrite (gen_take_list a s (S (length (deref a s))) 0) by lia. done.
  - done.
Qed.

Lemma gen_list_listeners event s :
  (gen_list (listeners event s) s).1 = raw <$> events_get event s.
Proof.
  unfold listeners. rewrite gen_list_new. unfold events_get.
  by destruct (_events s !! event).
Qed.

(** ** A recording observer of ["new_listener"] *)

Lemma dispatch_end body emit_rec steps a event args offset s :
  deref a s !! offset = None →
  dispatch body emit_rec steps a event args offset s = Ok tt s.
Proof. intros H. destruct steps; simpl; by rewrite H. Qed.

(** [emit("new_listener", event, listener)] with the single listener
    [obs], whose body is [observe event]: the observer is called once and
    notes the count and the listeners of [event] as they are before the
    call. *)
Lemma emit_body_observed body emit_rec steps event listener obs s :
  wf s →
  events_get "new_listener" s = [Some (Fn obs)] →
  body obs [VStr event; VObj listener] = observe event →
  queue (_removals s) "new_listener" = [] →
  queue (_additions s) "new_listener" = [] →
  ∃ s', emit_body body emit_rec (S steps) "new_listener"
          [VStr event; VObj listener] s = Ok true s' ∧
    wf s' ∧
    notes s' = notes s ++ [VInt (Z.of_nat (listeners_count event s));
                           VSeq (raw <$> events_get event s)] ∧
    calls s' = calls s ++ [(obs, [VStr event; VObj listener])] ∧
    events_get "new_listener" s' = [Some (Fn obs)] ∧
    (∀ e, e ≠ "new_listener" → events_get e s' = events_get e s) ∧
    _emitting s' = _emitting s.
Proof.
  intros Hw Hg Hbody Hr Ha.
  destruct (events_get_bound "new_listener" s) as [a He]; [by rewrite Hg|].
  assert (Hd : deref a s = [Some (Fn obs)]).
  { unfold events_get in Hg. by rewrite He in Hg. }
  unfold emit_body. rewrite bool_decide_eq_false_2 by by rewrite Hg.
  unfold bind at 1, emit_loop. unfold bind at 1, modify at 1.
  unfold bind at 1, events_getitem. simpl _events. rewrite He.
  set (s1 := set_emitting _ s).
  rewrite dispatch_S. change (deref a s1) with (deref a s). rewrite Hd.
  simpl lookup. unfold bind at 1, turn, invoke, call.
  unfold bind at 1, modify at 1. rewrite Hbody. unfold observe.
  cbn [run]. unfold bind at 1, gets at 1.
  unfold bind at 1, gets at 1.
  unfold bind at 1, modify at 1. unfold bind at 1, modify at 1.
  unfold ret at 1. cbn [is_once finally_clause]. unfold ret at 1.
  set (s2 := set_notes _ _).
  rewrite dispatch_end by (change (deref a s2) with (deref a s); by rewrite Hd).
  destruct (epilogue_quiet emit_rec "new_listener" a (_emitting s) s2)
    as (s3 & Hep & F1 & F2 & F3 & F4 & F5 & F6 & F7 & F8 & F9); try done.
  rewrite Hep. exists s3. split; [done|].
  assert (Hw3 : wf s3).
  { destruct Hw as [Hb Hi]. split.
    - intros e a'. rewrite F1, F3. rewrite lookup_insert.
      case_decide; [intros [= <-]; simpl; lia|].
      intros H'. apply Hb in H'. simpl. lia.
    - intros e1 e2 a'. rewrite F1, !lookup_insert.
      repeat case_decide; simplify_eq; try done.
      + intros [= <-] H'. apply Hb in H'. simpl in H'. lia.
      + intros H' [= <-]. apply Hb in H'. simpl in H'. lia.
      + apply Hi. }
  split; [done|]. split; [|split; [|split; [|split]]].
  - rewrite F8. simpl. rewrite gen_list_listeners, <- app_assoc. done.
  - by rewrite F7.
  - unfold events_get, deref. rewrite F1, F2, !lookup_insert_eq. simpl.
    change (deref a s2) with (deref a s). by rewrite Hd.
  - intros e Hne. unfold events_get, deref. rewrite F1, F2.
    rewrite lookup_insert_ne by done. simpl.
    destruct (_events s !! e) as [a'|] eqn:He'; [|done].
    rewrite lookup_insert_ne; [done|]. destruct Hw as [Hb _].
    apply Hb in He'. lia.
  - done.
Qed.

(** ** One-time listeners *)

Lemma once_unfold emit_rec event listener s :
  once emit_rec event listener s =
  on emit_rec event (_Once (next_uid s) listener)
    (set_next_uid (S (next_uid s)) s).
Proof. done. Qed.


(** ** The demonstration states are reached from the initial one *)

Example watched_reached :
  on (emit scripts 1) "new_listener" (Fn observer) init = Ok tt watched.
Proof. reflexivity. Qed.

Example doomed_reached :
  (on (emit scripts 1) "e" (Fn remover) ;;
   on (emit scripts 1) "remove_listener" (Fn fail)) init = Ok tt doomed.
Proof. reflexivity. Qed.

Example fragile_reached :
  (once (emit scripts 1) "e" (Fn noop) ;;
   on (emit scripts 1) "e" (Fn fail)) init = Ok tt fragile.
Proof. reflexivity. Qed.

Example armed_reached :
  once (emit scripts 1) "e" (Fn reenter) init = Ok tt armed.
Proof. reflexivity. Qed.

Example armed_fail_reached :
  once (emit scripts 1) "e" (Fn reenter_fail) init = Ok tt armed_fail.
Proof. reflexivity. Qed.

Example twice_reached :
  for_each (on (emit scripts 1) "e") [Fn noop; Fn fail; Fn noop] init
  = Ok tt twice.
Proof. reflexivity. Qed.

Example staged_reached :
  (on (emit scripts 1) "e" (Fn noop) ;;
   once (emit scripts 1) "e" (Fn editor) ;;
   on (emit scripts 1) "e" (Fn observer) ;;
   on (emit scripts 1) "remove_listener" (Fn observer) ;;
   on (emit scripts 1) "new_listener" (Fn observer)) init = Ok tt staged.
Proof. reflexivity. Qed.

Example queued_reached :
  emit_loop scripts (emit scripts 3) 3 "e" [] staged = Ok tt queued.
Proof. reflexivity. Qed.

(** ** An exception out of [emit] *)

Lemma once_emitting emit_rec event listener s :
  event ∈ _emitting s →
  once emit_rec event listener s =
  Ok tt (set_additions (enqueue event (_Once (next_uid s) listener))
           (set_next_uid (S (next_uid s)) s)).
Proof. intros H. by rewrite once_unfold, on_emitting. Qed.

Lemma remove_emitting emit_rec event listener s :
  event ∈ _emitting s →
  remove emit_rec event listener s =
  Ok tt (set_removals (enqueue event listener) s).
Proof. intros H. unfold remove, is_emitting. by rewrite bool_decide_eq_true_2. Qed.

(** ** A listener that raises *)

(** The [except] clause: with the event ["error"] itself, or no listener
    for ["error"], the exception of the listener goes on after the
    [finally] clause, and replaces nothing unless that clause raises. *)
Lemma turn_raise_escapes body emit_rec event args offset listener s x s1 :
  invoke body emit_rec listener args s = Err x s1 →
  event = "error" ∨ listeners_count "error" s1 = 0 →
  turn body emit_rec event args offset listener s =
  match finally_clause event offset listener s1 with
  | Ok _ s2 => Err x s2
  | r => r
  end.
Proof.
  intros Hi Hc. unfold turn. rewrite Hi.
  assert (bool_decide (event = "error")
          || bool_decide (events_get "error" s1 = []) = true) as ->; [|done].
  apply orb_true_iff. destruct Hc as [->|Hc].
  - left. by apply bool_decide_eq_true.
  - right. by apply bool_decide_eq_true, listeners_count_0.
Qed.

(** Otherwise ["error"] is emitted with the event and the exception, and
    what that nested [emit] raises goes on in the same way. *)
Lemma turn_raise_redirects body emit_rec event args offset listener s x s1 :
  invoke body emit_rec listener args s = Err x s1 →
  event ≠ "error" → listeners_count "error" s1 ≠ 0 →
  turn body emit_rec event args offset listener s =
  match emit_rec "error" [VStr event; VExc x] s1 with
  | Ok _ s2 => finally_clause event offset listener s2
  | Err y s2 =>
      match finally_clause event offset listener s2 with
      | Ok _ s3 => Err y s3
      | r => r
      end
  | Timeout => Timeout
  end.
Proof.
  intros Hi Hne Hc. unfold turn. rewrite Hi.
  rewrite bool_decide_eq_false_2 by done.
  rewrite bool_decide_eq_false_2 by by rewrite <- listeners_count_0.
  simpl. unfold bind, ret. by destruct (emit_rec _ _ s1).
Qed.

(** The [finally] clause returns for an entry that is not one-time, and
    for a one-time entry whose offset is within the list the event is
    bound to by then. *)
Lemma finally_clause_returns event offset listener s :
  is_once listener = false ∨ offset < listeners_count event s →
  ∃ s', finally_clause event offset listener s = Ok tt s'.
Proof.
  unfold finally_clause. intros [->|Hlt]; [by eexists|].
  destruct (is_once listener); [|by eexists].
  unfold listeners_count, events_get in Hlt.
  unfold bind, events_getitem.
  destruct (_events s !! event) as [a|]; [|simpl in Hlt; lia].
  unfold list_setitem. rewrite decide_True by done. by eexists.
Qed.

(** A turn that raises ends the loop: the entries after it are not
    called. *)
Lemma dispatch_raise body emit_rec steps a event args offset listener s x s' :
  deref a s !! offset = Some listener →
  turn body emit_rec event args offset listener s = Err x s' →
  dispatch body emit_rec (S steps) a event args offset s = Err x s'.
Proof. intros Hl Ht. rewrite dispatch_S, Hl. unfold bind. by rewrite Ht. Qed.

(** ** One-time listeners that only observe *)

(** A one-time listener that only observes, among listeners that only
    observe: the first [emit] calls it once, after the listeners
    registered before it, and leaves the list without its wrapper. *)
Lemma once_fires_once_observing body fuel event listener args s :
  wf s → event ∉ _emitting s → event ≠ "new_listener" →
  ready body "new_listener" [] s →
  Forall (observing body) (events_get event s) →
  (∀ args', passive (body (target listener) args')) →
  queue (_removals s) event = [] → queue (_additions s) event = [] →
  length (events_get event s) < fuel →
  ∃ s1 s2,
    once (emit body (S fuel)) event listener s = Ok tt s1 ∧
    emit body (S fuel) event args s1 = Ok true s2 ∧
    calls s2 = calls s ++ notify (events_get event s) args
               ++ [(target listener, args)] ∧
    events_get event s2 =
      filter (λ x : slot, is_once x = false) (events_get event s) ∧
    Some (_Once (next_uid s) listener) ∉ events_get event s2.
Proof.
  intros Hw Hidle Hne Hready Hall Hpass Hr Ha Hlen.
  rewrite once_unfold, on_idle by done.
  set (w := _Once (next_uid s) listener).
  set (s0 := set_next_uid _ s).
  destruct (_on_ready body fuel event w [] s0) as
    (s1 & H1 & Hw1 & Hg1 & (D1 & D2 & D3 & D4 & D5) & _ & Hc1); try done.
  { by destruct Hw. }
  { simpl. lia. }
  change (events_get event s0) with (events_get event s) in Hg1.
  destruct (emit_passive body fuel event args s1) as
    (s2 & H2 & Hg2 & Hc2 & _); rewrite ?Hg1, ?D2, ?D3; try done.
  { by destruct (events_get event s). }
  { apply Forall_app. split; [done|]. apply Forall_singleton.
    by exists w. }
  { rewrite length_app. simpl. lia. }
  exists s1, s2. split; [done|]. split; [done|].
  rewrite Hg1 in Hg2, Hc2.
  assert (Hf : events_get event s2 =
               filter (λ x : slot, is_once x = false) (events_get event s)).
  { rewrite Hg2, filter_app. simpl. rewrite filter_cons_False by done.
    by rewrite filter_nil, app_nil_r. }
  split; [|split; [done|]].
  - rewrite Hc2, Hc1. unfold notify. rewrite omap_app, fmap_app. simpl.
    by rewrite app_nil_r.
  - rewrite Hf. by intros [Hx _]%list_elem_of_filter.
Qed.

(** ** The tests of the repository, on the model

    The scenarios of [test_emitter.py] that concern the emitter's own
    behaviour, run from the initial emitter. *)

(** [test_new_listener_fired_first]: the observer reads a count of 0. *)
Example test_new_listener_fired_first :
  ∃ s, (on (emit scripts 2) "new_listener" (Fn observer) ;;
        on (emit scripts 2) "e" (Fn noop)) init = Ok tt s
    ∧ notes s = [VInt 0; VSeq []] ∧ listeners_count "e" s = 1.
Proof. eexists. split; [vm_compute; reflexivity|]. by vm_compute. Qed.

(** [test_on_waits_until_event_over]: the count is the same before and
    after the call of [on] inside the listener, and 2 after [emit]. *)
Example test_on_waits_until_event_over :
  ∃ s, (on (emit scripts 3) "e" (Fn adder) ;;
        emit scripts 3 "e" []) init = Ok true s
    ∧ notes s = [VInt 1; VInt 1] ∧ listeners_count "e" s = 2.
Proof. eexists. split; [vm_compute; reflexivity|]. by vm_compute. Qed.

(** [test_once_fires_once] *)
Example test_once_fires_once :
  ∃ s, (once (emit scripts 3) "e" (Fn noop) ;;
        emit scripts 3 "e" []) init = Ok true s
    ∧ emit scripts 3 "e" [] s = Ok false s
    ∧ calls s = [(noop, [])].
Proof. eexists. split; [vm_compute; reflexivity|]. by vm_compute. Qed.

(** [test_remove_removes_listeners] *)
Example test_remove_removes_listeners :
  ∃ s, (on (emit scripts 2) "e" (Fn noop) ;;
        remove (emit scripts 2) "e" (Fn noop)) init = Ok tt s
    ∧ listeners_count "e" s = 0
    ∧ (gen_list (listeners "e" s) s).1 = [].
Proof. eexists. split; [vm_compute; reflexivity|]. by vm_compute. Qed.

(** [test_remove_allows_missing] *)
Example test_remove_allows_missing :
  remove (emit scripts 2) "e" (Fn noop) init = Ok tt init.
Proof. reflexivity. Qed.

(** [test_remove_waits_until_event_over]: the count is the same before
    and after the call of [remove] inside the listener, and 1 after
    [emit]. *)
Example test_remove_waits_until_event_over :
  ∃ s, (on (emit scripts 3) "e" (Fn noop) ;;
        on (emit scripts 3) "e" (Fn unregister) ;;
        emit scripts 3 "e" []) init = Ok true s
    ∧ notes s = [VInt 2; VInt 2] ∧ listeners_count "e" s = 1.
Proof. eexists. split; [vm_compute; reflexivity|]. by vm_compute. Qed.

(** [test_error_raises_with_no_listener] *)
Example test_error_raises_with_no_listener :
  ∃ s, (on (emit scripts 3) "e" (Fn fail_check) ;;
        emit scripts 3 "e" []) init = Err (UserError 9) s.
Proof. eexists. vm_compute. reflexivity. Qed.

(** [test_error_raises_with_broken_listener]: the exception of the
    listener of ["error"] is the one that leaves [emit]. *)
Example test_error_raises_with_broken_listener :
  ∃ s, (on (emit scripts 3) "error" (Fn fail_check) ;;
        on (emit scripts 3) "e" (Fn fail) ;;
        emit scripts 3 "e" []) init = Err (UserError 9) s
    ∧ calls s = [(fail, []); (fail_check, [VStr "e"; VExc (UserError 7)])].
Proof. eexists. split; [vm_compute; reflexivity|]. by vm_compute. Qed.

(** ** The states of the further scenarios are reached *)

Example tangled_reached :
  (on (emit handlers 1) "a" (Fn asker) ;;
   on (emit handlers 1) "a" (Fn swallow) ;;
   on (emit handlers 1) "b" (Fn fail)) init = Ok tt tangled.
Proof. reflexivity. Qed.

Example knotted_reached : emit handlers 4 "a" [] tangled = Ok true knotted.
Proof. reflexivity. Qed.

Example primed_reached :
  once (emit scripts 1) "new_listener" (Fn noop) init = Ok tt primed.
Proof. reflexivity. Qed.

Example lossy_reached :
  (on (emit scripts 1) "e" (Fn editor) ;;
   on (emit scripts 1) "new_listener" (Fn fail)) init = Ok tt lossy.
Proof. reflexivity. Qed.

Example shedding_reached :
  (on (emit scripts 1) "remove_listener" (Fn observer) ;;
   once (emit scripts 1) "remove_listener" (Fn noop) ;;
   on (emit scripts 1) "remove_listener" (Fn observer)) init = Ok tt shedding.
Proof. reflexivity. Qed.

Example pending_reached :
  (on (emit scripts 1) "e" (Fn adder) ;;
   on (emit scripts 1) "new_listener" (Fn observer) ;;
   emit_loop scripts (emit scripts 3) 3 "e" []) init = Ok tt pending.
Proof. reflexivity. Qed.

(** ** The specification, claim by claim *)

(** C1, at the failing input.  With [once("e", reenter)] registered,
    [emit("e", 0)] calls [reenter], which emits ["e"] again before its
    entry is overwritten: [reenter] is called a second time, and the outer
    [finally] clause then raises [IndexError] on the purged list. *)
Theorem once_reentered_called_twice :
  once (emit scripts 1) "e" (Fn reenter) init = Ok tt armed
  ∧ ∃ s', emit scripts 3 "e" [VInt 0] armed = Err IndexError s'
      ∧ calls s' = [(reenter, [VInt 0]); (reenter, [VInt 1])]
      ∧ _emitting s' = ["e"].
Proof.
  split; [reflexivity|]. eexists.
  split; [vm_compute; reflexivity|]. by vm_compute.
Qed.

(** C2, at the failing input.  With [once("e", reenter_fail)] registered
    and no listener for ["error"], the listener called by [emit("e", 0)]
    raises [UserError 7] after emitting ["e"] again; [emit] raises
    [IndexError] instead, from its [finally] clause. *)
Theorem raise_replaced_after_reentry :
  once (emit scripts 1) "e" (Fn reenter_fail) init = Ok tt armed_fail
  ∧ listeners_count "error" armed_fail = 0
  ∧ (∃ s1, invoke scripts (emit scripts 2) (Some (_Once 0 (Fn reenter_fail)))
             [VInt 0] (set_emitting (λ l, l ++ ["e"]) armed_fail)
           = Err (UserError 7) s1)
  ∧ ∃ s', emit scripts 3 "e" [VInt 0] armed_fail = Err IndexError s'.
Proof.
  split; [reflexivity|]. split; [reflexivity|].
  split; eexists; vm_compute; reflexivity.
Qed.







(** C5. [emit] returns [False] at once, leaving the emitter as it was and
    calling nobody, when the event has no listener; when it returns at all
    its result tells whether the event had a listener; and it does return
    [True] when the listeners only observe, the list of the event has no
    pending entry and nothing is queued for the event. *)
Theorem emit_result body fuel event args s :
  (listeners_count event s = 0 →
     emit body (S fuel) event args s = Ok false s)
  ∧ (∀ b s', emit body fuel event args s = Ok b s' →
       (b = true ↔ 0 < listeners_count event s))
  ∧ (0 < listeners_count event s →
     Forall (observing body) (events_get event s) →
     queue (_removals s) event = [] →
     queue (_additions s) event = [] →
     listeners_count event s ≤ fuel →
     ∃ s', emit body (S fuel) event args s = Ok true s' ∧
           _emitting s' = _emitting s).
Proof.
  split; [|split].
  - intros H%listeners_count_0. by apply emit_no_listener.
  - intros b s' H. destruct fuel as [|fuel]; [done|].
    simpl in H. unfold emit_body in H. case_bool_decide as Hnil.
    + injection H as <- <-. apply listeners_count_0 in Hnil. split; [done|lia].
    + apply bind_Ok_inv in H as (? & s1 & _ & H).
      apply epilogue_true in H as ->. split; [|done]. intros _.
      rewrite <- listeners_count_0 in Hnil. lia.
  - intros Hpos Hall Hr Ha Hlen.
    destruct (emit_passive body fuel event args s)
      as (s' & H & _ & _ & Hst & _);
      try done.
    + rewrite <- listeners_count_0. lia.
    + eauto.
Qed.

Lemma emit_result_witness :
  emit scripts 1 "x" [] init = Ok false init
  ∧ ∃ s', emit scripts 2 "new_listener" [VStr "e"; VObj (Fn noop)]
            watched = Ok true s' ∧ _emitting s' = _emitting watched.
Proof.
  split.
  - apply (proj1 (emit_result scripts 0 "x" [] init)). reflexivity.
  - apply (proj2 (proj2 (emit_result scripts 1 "new_listener"
             [VStr "e"; VObj (Fn noop)] watched))).
    + vm_compute. lia.
    + apply Forall_singleton, observer_observing.
    + reflexivity.
    + reflexivity.
    + vm_compute. lia.
Defined.




(** C7 (amended). When the loop of [emit] raises, [emit] raises with the
    emitter as the loop left it: the event is still on the stack, under
    whatever was pushed after it, and nothing after the loop has run.  In
    that state [on], [once] and [remove] for the event only queue; and no
    call of [emit] started while the event is on the stack takes the
    event off the stack, consumes its queues or adds an entry to its
    list. *)
Theorem emit_raise_in_loop body fuel event args s x s' :
  wf s →
  events_get event s ≠ [] →
  emit_loop body (emit body fuel) fuel event args s = Err x s' →
  emit body (S fuel) event args s = Err x s'
  ∧ wf s'
  ∧ _emitting s ++ [event] `prefix_of` _emitting s'
  ∧ (∀ listener fuel',
       on (emit body fuel') event listener s' =
         Ok tt (set_additions (enqueue event listener) s')
       ∧ once (emit body fuel') event listener s' =
         Ok tt (set_additions (enqueue event (_Once (next_uid s') listener))
                  (set_next_uid (S (next_uid s')) s'))
       ∧ remove (emit body fuel') event listener s' =
         Ok tt (set_removals (enqueue event listener) s'))
  ∧ (∀ s1, wf s1 → event ∈ _emitting s1 → ∀ fuel' event' args',
       post (emit body fuel' event' args') s1 (λ s2,
         wf s2 ∧ event ∈ _emitting s2 ∧
         queue (_additions s1) event `prefix_of` queue (_additions s2) event ∧
         queue (_removals s1) event `prefix_of` queue (_removals s2) event ∧
         live event s2 `sublist_of` live event s1)).
Proof.
  intros Hw Hne Hloop.
  pose proof (emit_loop_frame body (emit body fuel) (emit_safe body fuel)
                fuel event args s Hw) as Hf.
  unfold post in Hf. rewrite Hloop in Hf. destruct Hf as [Hw' [Hp _ _ _]].
  assert (Hin : event ∈ _emitting s').
  { eapply elem_of_prefix; [|done]. apply elem_of_app. right.
    by apply list_elem_of_singleton. }
  split; [|split; [done|split; [done|split]]].
  - simpl. unfold emit_body. rewrite bool_decide_eq_false_2 by done.
    unfold bind. by rewrite Hloop.
  - intros listener fuel'.
    by rewrite on_emitting, once_emitting, remove_emitting.
  - intros s1 Hw1 Hin1 fuel' event' args'.
    pose proof (emit_keeps_emitting body fuel' event' args' s1 event Hw1 Hin1)
      as H.
    unfold post in *. destruct (emit body fuel' event' args' s1); try done;
      destruct H as (? & Hp1 & ? & ? & ?);
      (split; [done|]); (split; [by eapply elem_of_prefix|]); done.
Qed.

Lemma emit_raise_in_loop_witness :
  emit scripts 3 "e" [] fragile = Err (UserError 7) broken
  ∧ events_get "e" broken = [None; Some (Fn fail)]
  ∧ _emitting broken = ["e"]
  ∧ remove (emit scripts 3) "e" (Fn fail) broken =
      Ok tt (set_removals (enqueue "e" (Fn fail)) broken).
Proof.
  destruct (emit_raise_in_loop scripts 2 "e" [] fragile (UserError 7) broken)
    as (H1 & _ & _ & H4 & _).
  - apply wfb_wf. vm_compute. reflexivity.
  - discriminate.
  - reflexivity.
  - split; [exact H1|]. split; [reflexivity|]. split; [reflexivity|].
    apply (H4 (Fn fail) 3).
Defined.

(** Without these conditions the property fails, in two ways.  An exception
    raised by a listener of ["remove_listener"] during the flush also leaves
    [emit("e")] as an exception, yet after the list was purged, the event
    popped and the queued removal applied.  And the event does not stay on
    the stack for good when the exception is handled by a listener of an
    enclosing [emit]: in [emit("a")], [swallow] catches what the nested
    [emit("b")] raised (the exception of [fail]), and the pop of [emit("a")]
    takes ["b"] off the stack; a later [on("b", observer)] is then applied
    at once. *)
Lemma emit_raise_after_loop_counterexample :
  (∃ s', emit scripts 3 "e" [] doomed = Err (UserError 7) s'
    ∧ ("e" ∉ _emitting s')
    ∧ events_get "e" doomed = [Some (Fn remover)]
    ∧ events_get "e" s' = []
    ∧ calls s' = [(remover, []); (fail, [VStr "e"; VObj (Fn remover)])])
  ∧ emit handlers 4 "a" [] tangled = Ok true knotted
  ∧ calls knotted = [(asker, []); (swallow, []); (fail, [])]
  ∧ _emitting knotted = ["a"]
  ∧ (∃ s', on (emit handlers 2) "b" (Fn observer) knotted = Ok tt s'
       ∧ events_get "b" s' = [Some (Fn fail); Some (Fn observer)]
       ∧ _additions s' = _additions knotted).
Proof.
  split.
  { eexists. split; [vm_compute; reflexivity|]. split; [|by vm_compute].
    simpl. by intros ?%list_elem_of_singleton. }
  split; [by vm_compute|]. split; [by vm_compute|]. split; [by vm_compute|].
  eexists. split; [vm_compute; reflexivity|]. by vm_compute.
Qed.

(** C8. [on] for an event that is not being emitted first emits
    ["new_listener"] with the event and the listener, and only then
    appends the listener to the list of the event: the observer of
    ["new_listener"] is called with [(event, listener)] and the count and
    the listeners it reads for [event] are those of before the call of
    [on], while after it the list has the listener at its end. *)
Theorem on_fires_new_listener_first body fuel event listener obs s :
  event ∉ _emitting s →
  on (emit body fuel) event listener s =
    (emit body fuel "new_listener" [VStr event; VObj listener] ;;
     a <- events_getitem event ;;
     list_append a (Some listener)) s
  ∧ (wf s →
     events_get "new_listener" s = [Some (Fn obs)] →
     body obs [VStr event; VObj listener] = observe event →
     queue (_removals s) "new_listener" = [] →
     queue (_additions s) "new_listener" = [] →
     ∃ s', on (emit body (S (S fuel))) event listener s = Ok tt s' ∧
       calls s' = calls s ++ [(obs, [VStr event; VObj listener])] ∧
       notes s' = notes s ++ [VInt (Z.of_nat (listeners_count event s));
                              VSeq (raw <$> events_get event s)] ∧
       events_get event s' = events_get event s ++ [Some listener] ∧
       listeners_count event s' = listeners_count event s + 1).
Proof.
  intros Hidle. split; [by rewrite on_idle|].
  intros Hw Hg Hbody Hr Ha. rewrite on_idle, _on_unfold by done.
  destruct (emit_body_observed body (emit body (S fuel)) fuel event listener
              obs s Hw Hg Hbody Hr Ha)
    as (s1 & He & Hw1 & Hn & Hc & Hg1 & Ho & _).
  change (emit body (S (S fuel))) with
    (emit_body body (emit body (S fuel)) (S fuel)).
  rewrite He.
  destruct (appended_spec event (Some listener) s1 Hw1)
    as (_ & Hg2 & _ & Hc2 & Hn2).
  assert (Hsame : events_get event s1 = events_get event s).
  { destruct (decide (event = "new_listener")) as [->|Hne]; [|by apply Ho].
    by rewrite Hg1, Hg. }
  eexists. split; [done|]. rewrite Hc2, Hn2, Hg2, Hsame.
  repeat split; try done.
  unfold listeners_count. rewrite Hg2, Hsame, length_app. done.
Qed.

Lemma on_fires_new_listener_first_witness :
  ∃ s', on (emit scripts 2) "e" (Fn noop) watched = Ok tt s' ∧
    calls s' = [(observer, [VStr "e"; VObj (Fn noop)])] ∧
    notes s' = [VInt 0; VSeq []] ∧
    events_get "e" s' = [Some (Fn noop)] ∧
    listeners_count "e" s' = 1.
Proof.
  destruct (on_fires_new_listener_first scripts 0 "e" (Fn noop) observer
              watched (not_elem_of_nil _)) as [_ H].
  apply H; try done.
  apply wfb_wf. vm_compute. reflexivity.
Defined.

(** C9 (amended). [listeners(event)] returns a lazy, finite, single-pass
    sequence: iterated at once it yields the raw entries of the event in
    registration order; iterated later it yields the raw entries that the
    list object bound to the event at the time of the call holds by then;
    once exhausted it yields nothing more, whatever the registry has
    become; a new call of [listeners] reflects the registry at the time of
    that call. *)
Theorem listeners_single_pass event s s' s'' :
  (gen_list (listeners event s) s).1 = raw <$> events_get event s
  ∧ (gen_list (listeners event s) s').1 =
      raw <$> from_option (λ a, deref a s') [] (_events s !! event)
  ∧ gen_done (gen_list (listeners event s) s').2 = true
  ∧ gen_list (gen_list (listeners event s) s').2 s'' =
      ([], (gen_list (listeners event s) s').2)
  ∧ (gen_list (listeners event s') s').1 = raw <$> events_get event s'.
Proof.
  split; [apply gen_list_listeners|]. split; [|split; [|split]].
  - unfold listeners. by rewrite gen_list_new.
  - unfold listeners. by rewrite gen_list_new.
  - unfold listeners. rewrite gen_list_new. simpl.
    unfold gen_list. by rewrite gen_take_done.
  - apply gen_list_listeners.
Qed.

(** Iterating the sequence a second time yields nothing, although the
    event still has its three listeners. *)
Lemma listeners_restart_counterexample :
  (gen_list (gen_list (listeners "e" twice) twice).2 twice).1
  ≠ raw <$> events_get "e" twice.
Proof. by vm_compute. Qed.



(** ** Further properties of the methods *)

(** X1. [listeners] and [listeners_count] agree: the sequence has as many
    items as the count says, an overwritten one-time entry being counted
    and yielded as [None]; its items that are not [None] are the raw
    listeners of the entries still in place. *)
Theorem listeners_agree_with_count event s :
  length (gen_list (listeners event s) s).1 = listeners_count event s
  ∧ filter (λ x : slot, is_Some x) (gen_list (listeners event s) s).1
    = raw <$> live event s.
Proof.
  rewrite gen_list_listeners. split; [by rewrite length_fmap|].
  unfold live. induction (events_get event s) as [|x l IH]; [done|].
  rewrite fmap_cons, !filter_cons, IH.
  destruct x as [[name|uid func]|]; simpl; try done.
Qed.

(** X2. [emit] with listeners that only observe: every entry of the event
    is called exactly once, in registration order, with the arguments of
    [emit]; [emit] returns [True]; afterwards the one-time entries are
    gone and the others are in place in the same order; the stack, the
    queues and the lists of the other events are as before. *)
Theorem emit_calls_in_order body fuel event args s :
  wf s →
  events_get event s ≠ [] →
  Forall (observing body) (events_get event s) →
  queue (_removals s) event = [] →
  queue (_additions s) event = [] →
  length (events_get event s) ≤ fuel →
  ∃ s', emit body (S fuel) event args s = Ok true s' ∧
    calls s' = calls s ++ notify (events_get event s) args ∧
    events_get event s' =
      filter (λ x : slot, is_once x = false) (events_get event s) ∧
    _emitting s' = _emitting s ∧
    (∀ e, e ≠ event → events_get e s' = events_get e s) ∧
    (∀ e, queue (_removals s') e = queue (_removals s) e) ∧
    (∀ e, queue (_additions s') e = queue (_additions s) e) ∧
    wf s'.
Proof.
  intros Hw Hne Hall Hr Ha Hlen.
  destruct (emit_passive body fuel event args s Hne Hall Hr Ha Hlen)
    as (s' & He & Hg & Hc & Hst & Hd).
  destruct (Hd Hw) as (_ & D2 & D3 & D4 & _).
  pose proof (emit_wf body (S fuel) event args s Hw) as Hw'.
  rewrite He in Hw'.
  exists s'. repeat split; try done; try apply Hw'.
  intros e Hn. apply D4. by intros ->%list_elem_of_singleton.
Qed.

Lemma noop_observing c : target c = noop → observing scripts (Some c).
Proof. intros H. exists c. split; [done|]. intros args. by rewrite H. Qed.

Lemma observer_target_observing c :
  target c = observer → observing scripts (Some c).
Proof.
  intros H. exists c. split; [done|]. rewrite H. by intros [|[] [|? []]].
Qed.

Example mixed_reached :
  (on (emit scripts 1) "e" (Fn noop) ;;
   once (emit scripts 1) "e" (Fn noop) ;;
   on (emit scripts 1) "e" (Fn observer)) init = Ok tt mixed.
Proof. reflexivity. Qed.

Lemma mixed_observing : Forall (observing scripts) (events_get "e" mixed).
Proof.
  repeat apply Forall_cons_2; try apply Forall_nil_2;
    [apply noop_observing | apply noop_observing
     | apply observer_target_observing]; done.
Qed.

Lemma emit_calls_in_order_witness :
  ∃ s', emit scripts 4 "e" [VInt 5] mixed = Ok true s' ∧
    calls s' = [(noop, [VInt 5]); (noop, [VInt 5]); (observer, [VInt 5])]
    ∧ events_get "e" s' = [Some (Fn noop); Some (Fn observer)].
Proof.
  destruct (emit_calls_in_order scripts 3 "e" [VInt 5] mixed)
    as (s' & H & Hc & Hg & _).
  - apply wfb_wf. vm_compute. reflexivity.
  - discriminate.
  - apply mixed_observing.
  - reflexivity.
  - reflexivity.
  - vm_compute. lia.
  - by exists s'.
Defined.




Lemma remove_first_snoc listener c (l : list slot) :
  raw (Some c) = Some listener →
  (Forall (λ x, raw x ≠ Some listener) l →
     remove_first listener (l ++ [Some c]) = l)
  ∧ (∀ l1 x l2, l = l1 ++ x :: l2 →
       Forall (λ y, raw y ≠ Some listener) l1 → raw x = Some listener →
       remove_first listener (l ++ [Some c]) = l1 ++ l2 ++ [Some c]).
Proof.
  intros Hc. unfold remove_first. split.
  - intros Hno. rewrite find_offset_middle by done.
    by rewrite delete_middle, app_nil_r.
  - intros l1 x l2 -> Hl1 Hx. rewrite <- app_assoc. simpl.
    rewrite find_offset_middle by done. by rewrite delete_middle.
Qed.

(** Registering the entry [c] and then removing [listener], the raw
    listener of [c], with the registration events only observed. *)
Lemma register_then_remove body fuel event c listener ln lr s :
  raw (Some c) = Some listener →
  wf s → event ∉ _emitting s →
  event ≠ "new_listener" → event ≠ "remove_listener" →
  ready body "new_listener" ln s → ready body "remove_listener" lr s →
  length ln ≤ fuel → length lr ≤ fuel →
  ∃ s1 s2,
    _on (emit body (S fuel)) event c s = Ok tt s1 ∧
    remove (emit body (S fuel)) event listener s1 = Ok tt s2 ∧
    events_get event s2 =
      remove_first listener (events_get event s ++ [Some c]) ∧
    calls s2 = calls s ++ notify ln [VStr event; VObj c]
               ++ notify lr [VStr event; VObj listener] ∧
    _emitting s2 = _emitting s.
Proof.
  intros Hc Hw Hidle Hn Hr Hrn Hrr Hln Hlr.
  destruct (_on_ready body fuel event c ln s Hw Hn Hrn Hln)
    as (s1 & H1 & Hw1 & Hg1 & Hd1 & _ & Hc1).
  assert (Hrr1 : ready body "remove_listener" lr s1).
  { eapply ready_differs; [|done..]. mem. }
  destruct Hd1 as (D1 & _).
  destruct (_remove_ready body fuel event listener lr s1 Hw1 Hr Hrr1 Hlr)
    as (s2 & H2 & _ & Hg2 & (E1 & _) & _ & Hc2).
  exists s1, s2. split; [done|]. split.
  { rewrite <- H2. unfold remove, is_emitting.
    by rewrite D1, bool_decide_eq_false_2. }
  rewrite Hg2, Hg1. split; [done|]. split; [|congruence].
  rewrite Hc2, Hc1, Hg1.
  assert (is_Some (find_offset listener (events_get event s ++ [Some c])))
    as [i ->]; [|by rewrite <- app_assoc].
  destruct (find_offset listener (events_get event s ++ [Some c])) eqn:Hf;
    [by eexists|].
  apply find_offset_None, Forall_app in Hf as [_ Hf].
  rewrite Forall_singleton in Hf. congruence.
Qed.

(** X4. With the registration events only observed, [on] followed by
    [remove] of the same listener leaves the list of the event as it was
    when the listener was not registered before; when it was, the entry
    that goes is the oldest one and the new entry stays at the end (the
    listener being a plain callable, not a one-time wrapper).  The
    listeners of ["new_listener"] and then those of ["remove_listener"]
    are notified with the event and the listener. *)
Theorem on_then_remove body fuel event listener ln lr s :
  raw (Some listener) = Some listener →
  wf s → event ∉ _emitting s →
  event ≠ "new_listener" → event ≠ "remove_listener" →
  ready body "new_listener" ln s → ready body "remove_listener" lr s →
  length ln ≤ fuel → length lr ≤ fuel →
  ∃ s1 s2,
    on (emit body (S fuel)) event listener s = Ok tt s1 ∧
    remove (emit body (S fuel)) event listener s1 = Ok tt s2 ∧
    (Forall (λ x, raw x ≠ Some listener) (events_get event s) →
       events_get event s2 = events_get event s) ∧
    (∀ l1 x l2, events_get event s = l1 ++ x :: l2 →
       Forall (λ y, raw y ≠ Some listener) l1 → raw x = Some listener →
       events_get event s2 = l1 ++ l2 ++ [Some listener]) ∧
    calls s2 = calls s ++ notify ln [VStr event; VObj listener]
               ++ notify lr [VStr event; VObj listener] ∧
    _emitting s2 = _emitting s.
Proof.
  intros Hraw Hw Hidle Hn Hr Hrn Hrr Hln Hlr.
  destruct (register_then_remove body fuel event listener listener ln lr s)
    as (s1 & s2 & H1 & H2 & Hg & Hc & Hst); try done.
  destruct (remove_first_snoc listener listener (events_get event s) Hraw)
    as [R1 R2].
  exists s1, s2. rewrite on_idle by done. split; [done|]. split; [done|].
  rewrite Hg. split; [done|]. split; [|done].
  intros l1 x l2 Hl Hl1 Hx. by apply (R2 l1 x l2).
Qed.

Lemma on_then_remove_witness :
  ∃ s1 s2,
    on (emit scripts 2) "e" (Fn noop) twice = Ok tt s1 ∧
    remove (emit scripts 2) "e" (Fn noop) s1 = Ok tt s2 ∧
    events_get "e" s2 = [Some (Fn fail); Some (Fn noop); Some (Fn noop)].
Proof.
  assert (Hw : wf twice) by (apply wfb_wf; vm_compute; reflexivity).
  assert (Hr : ∀ e, e ≠ "e" → ready scripts e [] twice).
  { intros e He. split; [|by repeat split].
    unfold events_get. simpl. by rewrite lookup_insert_ne. }
  destruct (on_then_remove scripts 1 "e" (Fn noop) [] [] twice eq_refl Hw
              (not_elem_of_nil _) ltac:(done) ltac:(done) (Hr "new_listener" ltac:(done))
              (Hr "remove_listener" ltac:(done))
              ltac:(simpl; lia) ltac:(simpl; lia))
    as (s1 & s2 & H1 & H2 & _ & Hg & _).
  exists s1, s2. split; [done|]. split; [done|].
  apply (Hg [] (Some (Fn noop)) [Some (Fn fail); Some (Fn noop)]); done.
Defined.

(** X5. With the registration events only observed, [once] followed by
    [remove] of the listener, before any [emit], takes the one-time entry
    out again when the listener was not registered before: the list is as
    it was, so the listener is never called.  The listeners of
    ["new_listener"] have been notified with the wrapper, those of
    ["remove_listener"] with the listener itself. *)
Theorem once_then_remove body fuel event listener ln lr s :
  wf s → event ∉ _emitting s →
  event ≠ "new_listener" → event ≠ "remove_listener" →
  ready body "new_listener" ln s → ready body "remove_listener" lr s →
  length ln ≤ fuel → length lr ≤ fuel →
  Forall (λ x, raw x ≠ Some listener) (events_get event s) →
  ∃ s1 s2,
    once (emit body (S fuel)) event listener s = Ok tt s1 ∧
    remove (emit body (S fuel)) event listener s1 = Ok tt s2 ∧
    events_get event s2 = events_get event s ∧
    calls s2 = calls s
      ++ notify ln [VStr event; VObj (_Once (next_uid s) listener)]
      ++ notify lr [VStr event; VObj listener] ∧
    _emitting s2 = _emitting s.
Proof.
  intros Hw Hidle Hn Hr Hrn Hrr Hln Hlr Hno.
  rewrite once_unfold, on_idle by done.
  set (w := _Once (next_uid s) listener).
  destruct (register_then_remove body fuel event w listener ln lr
              (set_next_uid (S (next_uid s)) s))
    as (s1 & s2 & H1 & H2 & Hg & Hc & Hst); try done.
  { by destruct Hw. }
  destruct (remove_first_snoc listener w (events_get event s) eq_refl)
    as [R1 _].
  exists s1, s2. split; [done|]. split; [done|].
  split; [|by split]. rewrite Hg. by apply R1.
Qed.

Lemma once_then_remove_witness :
  ∃ s1 s2,
    once (emit scripts 2) "e" (Fn adder) twice = Ok tt s1 ∧
    remove (emit scripts 2) "e" (Fn adder) s1 = Ok tt s2 ∧
    events_get "e" s2 = events_get "e" twice.
Proof.
  assert (Hw : wf twice) by (apply wfb_wf; vm_compute; reflexivity).
  assert (Hr : ∀ e, e ≠ "e" → ready scripts e [] twice).
  { intros e He. split; [|by repeat split].
    unfold events_get. simpl. by rewrite lookup_insert_ne. }
  assert (Hno : Forall (λ x, raw x ≠ Some (Fn adder)) (events_get "e" twice))
    by (repeat constructor; discriminate).
  destruct (once_then_remove scripts 1 "e" (Fn adder) [] [] twice Hw
              (not_elem_of_nil _) ltac:(done) ltac:(done) (Hr "new_listener" ltac:(done))
              (Hr "remove_listener" ltac:(done))
              ltac:(simpl; lia) ltac:(simpl; lia) Hno)
    as (s1 & s2 & H1 & H2 & Hg & _).
  by exists s1, s2.
Defined.

(** ** Listeners that raise *)

Lemma run_failing emit_rec x a s :
  failing x a →
  ∃ s', run emit_rec a s = Err x s' ∧ same_emitter s s' ∧ calls s' = calls s.
Proof.
  revert s. induction a as [|y|v k IH|k IH|event args k IH|event l k IH
    |event l k IH|event l k IH|event k IH|event k IH|b IHb h IHh k IHk];
    intros s Hp; simpl in Hp; try done.
  - subst y. exists s. by repeat split.
  - destruct (IH (set_notes (λ n, n ++ [v]) s) Hp) as (s' & Hr & Hs & Hc).
    exists s'. simpl. unfold bind, modify. by rewrite Hr.
  - destruct (IH (notes s) s (Hp _)) as (s' & Hr & Hs & Hc).
    exists s'. simpl. unfold bind, gets. by rewrite Hr.
  - destruct (IH (listeners_count event s) s (Hp _)) as (s' & Hr & Hs & Hc).
    exists s'. simpl. unfold bind, gets. by rewrite Hr.
  - destruct (IH (gen_list (listeners event s) s).1 s (Hp _))
      as (s' & Hr & Hs & Hc).
    exists s'. simpl. unfold bind, gets. by rewrite Hr.
Qed.

Lemma call_failing body emit_rec c args x s :
  failing x (body (target c) args) →
  ∃ s', call body emit_rec c args s = Err x s' ∧ same_emitter s s' ∧
        calls s' = calls s ++ [(target c, args)].
Proof.
  induction c as [name|uid func IH]; simpl; intros Hb; [|by apply IH].
  destruct (run_failing emit_rec x (body name args)
              (set_calls (λ l, l ++ [(name, args)]) s) Hb)
    as (s' & Hr & Hs & Hc).
  exists s'. unfold bind, modify. by rewrite Hr.
Qed.

(** The loop over a first part of the list whose entries only observe. *)
Lemma dispatch_prefix body emit_rec event args a pre :
  ∀ done tail steps s,
  _events s !! event = Some a →
  deref a s = done ++ pre ++ tail →
  Forall (observing body) pre →
  ∃ s1,
    dispatch body emit_rec (length pre + steps) a event args (length done) s
    = dispatch body emit_rec steps a event args (length done + length pre) s1
    ∧ touches a s s1
    ∧ deref a s1 = done ++ (spent <$> pre) ++ tail
    ∧ calls s1 = calls s ++ notify pre args.
Proof.
  induction pre as [|x pre IH]; intros done tail steps s He Hd Hall.
  - exists s. simpl. rewrite Nat.add_0_r, app_nil_r.
    split; [done|]. split; [apply touches_refl|]. done.
  - apply Forall_cons in Hall as [(c & -> & Hb) Hall].
    assert (Hx : deref a s !! length done = Some (Some c)).
    { rewrite Hd. by apply list_lookup_middle. }
    destruct (turn_passive body emit_rec event args a (length done) c s
                Hb He Hx) as (s1 & Ht & T1 & Hd1 & Hc1).
    destruct (IH (done ++ [spent (Some c)]) tail steps s1) as
      (s2 & Hdis & T2 & Hd2 & Hc2).
    { destruct T1 as (-> & _). done. }
    { rewrite Hd1, Hd, <- app_assoc. simpl.
      by rewrite insert_app_r_alt, Nat.sub_diag by lia. }
    { done. }
    exists s2. cbn [length Nat.add]. rewrite dispatch_S, Hx.
    unfold bind. rewrite Ht.
    rewrite length_app, Nat.add_1_r in Hdis. simpl in Hdis.
    rewrite Hdis. split; [f_equal; lia|].
    split; [by eapply touches_trans|]. split.
    + rewrite Hd2, <- app_assoc. done.
    + rewrite Hc2, Hc1, <- app_assoc. done.
Qed.

(** A turn whose listener raises while nothing listens for ["error"], or
    within ["error"] itself: the exception goes on after the [finally]
    clause. *)
Lemma turn_failing body emit_rec event args a offset c x s :
  failing x (body (target c) args) →
  _events s !! event = Some a →
  deref a s !! offset = Some (Some c) →
  event = "error" ∨ events_get "error" s = [] →
  ∃ s', turn body emit_rec event args offset (Some c) s = Err x s' ∧
    touches a s s' ∧
    deref a s' = <[offset := spent (Some c)]> (deref a s) ∧
    calls s' = calls s ++ [(target c, args)].
Proof.
  intros Hb He Hl Herr.
  destruct (call_failing body emit_rec c args x s Hb)
    as (s1 & Hc & Hsame & Hcalls).
  pose proof (same_emitter_touches a _ _ Hsame) as Ht.
  destruct Hsame as (E1 & E2 & _).
  rewrite (turn_raise_escapes body emit_rec event args offset (Some c)
             s x s1 Hc).
  2:{ destruct Herr as [->|Herr]; [by left|right].
      apply listeners_count_0. unfold events_get, deref in *.
      by rewrite E1, E2. }
  unfold finally_clause, spent.
  assert (Hd : deref a s1 = deref a s) by (unfold deref; by rewrite E2).
  destruct (is_once (Some c)).
  - unfold bind, events_getitem. rewrite E1, He. unfold list_setitem.
    rewrite Hd. case_decide as Hlt.
    + eexists. split; [done|]. split; [|split].
      * eapply touches_trans; [done|]. repeat split; try done.
        intros a' Ha. simpl. by rewrite lookup_insert_ne.
      * unfold deref. simpl. by rewrite lookup_insert_eq.
      * done.
    + apply lookup_lt_Some in Hl. by destruct Hlt.
  - exists s1. repeat split; try done; try apply Ht.
    rewrite Hd. symmetry. by apply list_insert_id.
Qed.

(** What [touches] keeps of the list of another event. *)
Lemma touches_events_get a e s s' :
  touches a s s' → _events s !! e ≠ Some a →
  events_get e s' = events_get e s.
Proof.
  intros (E1 & _ & _ & _ & _ & _ & E7) Hne. unfold events_get, deref.
  rewrite E1. destruct (_events s !! e) as [a'|]; [|done].
  rewrite E7; [done|]. by intros ->.
Qed.

(** [emit] when a listener raises after listeners that only observe, and
    nothing listens for ["error"]: the exception leaves [emit] from
    within the loop. *)
Lemma emit_failing body fuel event args a pre c post x s :
  _events s !! event = Some a →
  deref a s = pre ++ Some c :: post →
  Forall (observing body) pre →
  failing x (body (target c) args) →
  event = "error" ∨ events_get "error" s = [] →
  length pre < fuel →
  ∃ s', emit body (S fuel) event args s = Err x s' ∧
    touches a (set_emitting (λ l, l ++ [event]) s) s' ∧
    deref a s' = (spent <$> pre) ++ spent (Some c) :: post ∧
    calls s' = calls s ++ notify pre args ++ [(target c, args)].
Proof.
  intros He Hd Hall Hb Herr Hlen.
  assert (Hg : events_get event s = deref a s).
  { unfold events_get. by rewrite He. }
  simpl. unfold emit_body. rewrite bool_decide_eq_false_2.
  2:{ rewrite Hg, Hd. by destruct pre. }
  unfold bind at 1, emit_loop. unfold bind at 1, modify at 1.
  unfold bind at 1, events_getitem. simpl. rewrite He.
  set (s1 := set_emitting _ s).
  destruct (dispatch_prefix body (emit body fuel) event args a pre []
              (Some c :: post) (fuel - length pre) s1 He Hd Hall)
    as (s2 & Hdis & T1 & Hd2 & Hc2).
  replace (length pre + (fuel - length pre)) with fuel in Hdis by lia.
  simpl in Hdis. rewrite Hdis.
  destruct (fuel - length pre) as [|steps] eqn:Hsteps; [lia|].
  assert (Hx : deref a s2 !! length pre = Some (Some c)).
  { rewrite Hd2. simpl. rewrite <- (length_fmap spent pre).
    by apply list_lookup_middle. }
  destruct (turn_failing body (emit body fuel) event args a (length pre)
              c x s2 Hb) as (s3 & Ht & T2 & Hd3 & Hc3); try done.
  { by destruct T1 as (-> & _). }
  { destruct Herr as [->|Herr]; [by left|right].
    rewrite (touches_events_get a "error" s1 s2 T1); [done|].
    intros He'. unfold events_get in Herr. simpl in He'.
    rewrite He' in Herr. rewrite Herr in Hd. by destruct pre. }
  rewrite dispatch_S, Hx. unfold bind at 1. rewrite Ht.
  exists s3. split; [done|]. split; [by eapply touches_trans|]. split.
  - rewrite Hd3, Hd2. simpl. rewrite <- (length_fmap spent pre).
    by rewrite insert_app_r_alt, Nat.sub_diag by lia.
  - rewrite Hc3, Hc2. by rewrite <- app_assoc.
Qed.

(** [emit] to listeners that only observe, in terms of the store: the
    event is bound to a new list and the other list objects are left as
    they are but for the one the loop went over. *)
Lemma emit_observed_store body fuel event args a s :
  _events s !! event = Some a →
  deref a s ≠ [] →
  Forall (observing body) (deref a s) →
  queue (_removals s) event = [] →
  queue (_additions s) event = [] →
  length (deref a s) ≤ fuel →
  ∃ s', emit body (S fuel) event args s = Ok true s' ∧
    _events s' = <[event := next_list s]> (_events s) ∧
    next_list s' = S (next_list s) ∧
    lists s' !! next_list s =
      Some (filter (λ x : slot, is_once x = false) (deref a s)) ∧
    (∀ a', a' ≠ a → a' ≠ next_list s → lists s' !! a' = lists s !! a') ∧
    _emitting s' = _emitting s ∧
    (∀ e, queue (_removals s') e = queue (_removals s) e) ∧
    (∀ e, queue (_additions s') e = queue (_additions s) e) ∧
    calls s' = calls s ++ notify (deref a s) args ∧
    next_uid s' = next_uid s.
Proof.
  intros He Hne Hall Hr Ha Hlen.
  assert (Hg : events_get event s = deref a s).
  { unfold events_get. by rewrite He. }
  simpl. unfold emit_body. rewrite bool_decide_eq_false_2 by by rewrite Hg.
  unfold bind at 1, emit_loop. unfold bind at 1, modify at 1.
  unfold bind at 1, events_getitem. simpl. rewrite He.
  set (s1 := set_emitting _ s).
  destruct (dispatch_passive body (emit body fuel) event args a
              (deref a s) [] fuel s1) as
    (s2 & Hd & (E1 & E2 & E3 & E4 & E5 & E6 & E7) & Hl & Hc); try done.
  simpl in Hd. rewrite Hd.
  destruct (epilogue_quiet (emit body fuel) event a (_emitting s) s2)
    as (s3 & Hep & F1 & F2 & F3 & F4 & F5 & F6 & F7 & F8 & F9).
  { by rewrite E1. }
  { by rewrite E3. }
  { by rewrite E5. }
  { by rewrite E4. }
  rewrite Hep. exists s3. split; [done|].
  split; [by rewrite F1, E1, E2|]. split; [by rewrite F3, E2|].
  split; [|split; [|split; [done|split; [|split; [|split]]]]].
  - rewrite F2, E2. simpl. rewrite lookup_insert_eq. f_equal.
    rewrite Hl. simpl. apply (filter_spent (deref a s)).
    eapply Forall_impl; [done|]. intros x (c & -> & _). by eexists.
  - intros a' Ha1 Ha2. rewrite F2, E2. simpl.
    rewrite lookup_insert_ne by done. by apply E7.
  - intros e. by rewrite F5, E5.
  - intros e. by rewrite F6, E4.
  - by rewrite F7, Hc.
  - by rewrite F9, E6.
Qed.

(** X6. A listener that raises [x] without having called a method that
    changes the emitter (it has at most noted, recalled, counted or
    listed; in particular it has not emitted), registered after listeners
    that only observe, while nothing listens for ["error"] or the event
    is ["error"] itself: [emit] raises [x].  The listeners registered
    before it have been called once each, in order; the listeners after
    it are not called; the event stays on the stack and the list keeps,
    overwritten, the one-time entries that were called; the queues are as
    before. *)
Theorem emit_raise_stops_dispatch body fuel event args pre c post x s :
  events_get event s = pre ++ Some c :: post →
  Forall (observing body) pre →
  failing x (body (target c) args) →
  event = "error" ∨ events_get "error" s = [] →
  length pre < fuel →
  ∃ s', emit body (S fuel) event args s = Err x s' ∧
    calls s' = calls s ++ notify pre args ++ [(target c, args)] ∧
    events_get event s' = (spent <$> pre) ++ spent (Some c) :: post ∧
    _emitting s' = _emitting s ++ [event] ∧
    _removals s' = _removals s ∧ _additions s' = _additions s.
Proof.
  intros Hg Hall Hb Herr Hlen.
  destruct (events_get_bound event s) as [a He].
  { rewrite Hg. by destruct pre. }
  assert (Hd : deref a s = pre ++ Some c :: post).
  { rewrite <- Hg. unfold events_get. by rewrite He. }
  destruct (emit_failing body fuel event args a pre c post x s
              He Hd Hall Hb Herr Hlen)
    as (s' & Hem & (E1 & E2 & E3 & E4 & E5 & E6 & E7) & Hd' & Hc).
  exists s'. split; [done|]. split; [done|]. split; [|done].
  unfold events_get. by rewrite E1; simpl; rewrite He.
Qed.

Lemma emit_raise_stops_dispatch_witness :
  ∃ s', emit scripts 3 "e" [VInt 1] twice = Err (UserError 7) s' ∧
    calls s' = [(noop, [VInt 1]); (fail, [VInt 1])] ∧
    events_get "e" s' = [Some (Fn noop); Some (Fn fail); Some (Fn noop)] ∧
    _emitting s' = ["e"].
Proof.
  destruct (emit_raise_stops_dispatch scripts 2 "e" [VInt 1]
              [Some (Fn noop)] (Fn fail) [Some (Fn noop)] (UserError 7) twice)
    as (s' & H & Hc & Hg & Hst & _).
  - reflexivity.
  - apply Forall_singleton. by apply noop_observing.
  - reflexivity.
  - by right.
  - simpl. lia.
  - by exists s'.
Defined.

(** The [finally] clause for an entry that is in the list the event is
    bound to. *)
Lemma finally_clause_spent event a offset c s :
  _events s !! event = Some a →
  deref a s !! offset = Some (Some c) →
  ∃ s', finally_clause event offset (Some c) s = Ok tt s' ∧
    touches a s s' ∧
    deref a s' = <[offset := spent (Some c)]> (deref a s) ∧
    calls s' = calls s.
Proof.
  intros He Hl. unfold finally_clause, spent.
  destruct (is_once (Some c)).
  - unfold bind, events_getitem. rewrite He. unfold list_setitem.
    case_decide as Hlt.
    + eexists. split; [done|]. split; [|split].
      * repeat split; try done.
        intros a' Ha. simpl. by rewrite lookup_insert_ne.
      * unfold deref. simpl. by rewrite lookup_insert_eq.
      * done.
    + apply lookup_lt_Some in Hl. by destruct Hlt.
  - exists s. split; [done|]. split; [apply touches_refl|]. split; [|done].
    symmetry. by apply list_insert_id.
Qed.

Lemma observing_is_Some body (l : list slot) :
  Forall (observing body) l → Forall is_Some l.
Proof.
  intros H. eapply Forall_impl; [done|]. intros x (c & -> & _). by eexists.
Qed.

Lemma emit_S body fuel event args :
  emit body (S fuel) event args =
  emit_body body (emit body fuel) fuel event args.
Proof. done. Qed.

(** X7. A listener that raises [x] without having called a method that
    changes the emitter (it has at most noted, recalled, counted or
    listed; in particular it has not emitted), among listeners of the
    event that only observe, while listeners that only observe are
    registered for ["error"] and nothing is queued for either event: the
    exception is handed to the listeners of ["error"], with the event,
    and does not leave [emit].  The loop goes on with the listeners
    registered after the one that raised, and [emit] returns [True] with
    the stack as before and the one-time entries of both events gone. *)
Theorem emit_error_redirected body fuel event args pre c post x s :
  wf s → event ≠ "error" →
  events_get event s = pre ++ Some c :: post →
  Forall (observing body) pre → Forall (observing body) post →
  failing x (body (target c) args) →
  events_get "error" s ≠ [] →
  Forall (observing body) (events_get "error" s) →
  queue (_removals s) event = [] → queue (_additions s) event = [] →
  queue (_removals s) "error" = [] → queue (_additions s) "error" = [] →
  length (events_get event s) ≤ fuel →
  length (events_get "error" s) < fuel →
  ∃ s', emit body (S fuel) event args s = Ok true s' ∧
    calls s' = calls s ++ notify pre args ++ [(target c, args)]
      ++ notify (events_get "error" s) [VStr event; VExc x]
      ++ notify post args ∧
    events_get event s' =
      filter (λ x : slot, is_once x = false) (events_get event s) ∧
    events_get "error" s' =
      filter (λ x : slot, is_once x = false) (events_get "error" s) ∧
    _emitting s' = _emitting s.
Proof.
  intros Hw Hne Hg Hpre Hpost Hb Hle Hobs Hr Ha Hre Hae Hlen Hlene.
  destruct (events_get_bound event s) as [a He].
  { rewrite Hg. by destruct pre. }
  destruct (events_get_bound "error" s Hle) as [ae Hee].
  assert (Hd : deref a s = pre ++ Some c :: post).
  { rewrite <- Hg. unfold events_get. by rewrite He. }
  assert (Hge : events_get "error" s = deref ae s).
  { unfold events_get. by rewrite Hee. }
  rewrite Hge in *.
  assert (Hae1 : a ≠ ae).
  { intros ->. apply Hne. by eapply (wf_inj s Hw). }
  assert (Hb1 : a < next_list s) by by eapply (wf_bound s Hw).
  assert (Hb2 : ae < next_list s) by by eapply (wf_bound s Hw).
  destruct fuel as [|f]; [lia|].
  rewrite Hg, length_app in Hlen. simpl in Hlen.
  rewrite emit_S. unfold emit_body at 1.
  rewrite bool_decide_eq_false_2 by (rewrite Hg; by destruct pre).
  unfold bind at 1, emit_loop. unfold bind at 1, modify at 1.
  unfold bind at 1, events_getitem. cbn [_events set_emitting]. rewrite He.
  set (s1 := set_emitting _ s).
  destruct (dispatch_prefix body (emit body (S f)) event args a pre []
              (Some c :: post) (S f - length pre) s1 He Hd Hpre)
    as (s2 & Hdis & T1 & Hd2 & Hc2).
  replace (length pre + (S f - length pre)) with (S f) in Hdis by lia.
  cbn [length Nat.add] in Hdis. rewrite Hdis.
  destruct (S f - length pre) as [|steps] eqn:Hsteps; [lia|].
  assert (Hx : deref a s2 !! length pre = Some (Some c)).
  { rewrite Hd2. simpl. rewrite <- (length_fmap spent pre).
    by apply list_lookup_middle. }
  rewrite dispatch_S, Hx. unfold bind at 1.
  destruct (call_failing body (emit body (S f)) c args x s2 Hb)
    as (s3 & Hcall & Hsame & Hc3).
  pose proof (same_emitter_touches a _ _ Hsame) as T2.
  pose proof (touches_trans a _ _ _ T1 T2) as T12.
  destruct T12 as (E1 & E2 & E3 & E4 & E5 & E6 & E7).
  assert (Hde3 : deref ae s3 = deref ae s).
  { unfold deref. rewrite E7 by done. done. }
  assert (Hd3 : deref a s3 = deref a s2).
  { unfold deref. by destruct Hsame as (_ & -> & _). }
  rewrite (turn_raise_redirects body (emit body (S f)) event args
             (length pre) (Some c) s2 x s3 Hcall Hne).
  2:{ unfold listeners_count, events_get. rewrite E1. simpl. rewrite Hee.
      rewrite Hde3. by destruct (deref ae s). }
  destruct (emit_observed_store body f "error" [VStr event; VExc x] ae s3)
    as (s4 & Hem & F1 & F2 & F3 & F4 & F5 & F6 & F7 & F8 & F9).
  { by rewrite E1. }
  { by rewrite Hde3. }
  { by rewrite Hde3. }
  { by rewrite E5. }
  { by rewrite E4. }
  { rewrite Hde3. lia. }
  rewrite Hem.
  assert (He4 : _events s4 !! event = Some a).
  { rewrite F1, E1. simpl. by rewrite lookup_insert_ne. }
  assert (Hd4 : deref a s4 = deref a s2).
  { rewrite <- Hd3. unfold deref. rewrite F4; [done..|].
    rewrite E2. simpl. lia. }
  destruct (finally_clause_spent event a (length pre) c s4 He4)
    as (s5 & Hfin & T5 & Hd5 & Hc5).
  { by rewrite Hd4. }
  rewrite Hfin.
  assert (Hd5' : deref a s5 =
                 ((spent <$> pre) ++ [spent (Some c)]) ++ post).
  { rewrite Hd5, Hd4, Hd2. simpl. rewrite <- (length_fmap spent pre).
    rewrite insert_app_r_alt, Nat.sub_diag by lia. simpl.
    by rewrite <- app_assoc. }
  destruct (dispatch_passive body (emit body (S f)) event args a post
              ((spent <$> pre) ++ [spent (Some c)]) steps s5)
    as (s6 & Hdis6 & T6 & Hd6 & Hc6); try done.
  { by destruct T5 as (-> & _). }
  { lia. }
  rewrite length_app, length_fmap, Nat.add_1_r in Hdis6.
  rewrite Hdis6.
  pose proof (touches_trans a _ _ _ T5 T6) as T56.
  destruct T56 as (G1 & G2 & G3 & G4 & G5 & G6 & G7).
  destruct (epilogue_quiet (emit body (S f)) event a (_emitting s) s6)
    as (s7 & Hep & K1 & K2 & K3 & K4 & K5 & K6 & K7 & K8 & K9).
  { by rewrite G1. }
  { by rewrite G3, F5, E3. }
  { by rewrite G5, F6, E5. }
  { by rewrite G4, F7, E4. }
  rewrite Hep. exists s7. split; [done|].
  split; [|split; [|split; [|done]]].
  - rewrite K7, Hc6, Hc5, F8, Hc3, Hc2, Hde3. simpl.
    by rewrite <- !app_assoc.
  - unfold events_get at 1, deref. rewrite K1, K2, lookup_insert_eq.
    rewrite lookup_insert_eq. simpl. rewrite Hd6, Hg.
    rewrite <- app_assoc. simpl.
    change ((spent <$> pre) ++ spent (Some c) :: (spent <$> post))
      with ((spent <$> pre) ++ (spent <$> Some c :: post)).
    rewrite <- fmap_app. apply filter_spent.
    apply Forall_app. split; [by eapply observing_is_Some|].
    apply Forall_cons. split; [by eexists|by eapply observing_is_Some].
  - unfold events_get at 1, deref. rewrite K1, K2, G1, F1.
    rewrite lookup_insert_ne by done. rewrite lookup_insert_eq.
    rewrite lookup_insert_ne by (rewrite G2, F2; lia).
    rewrite G7 by (rewrite E2; simpl; lia).
    rewrite F3. simpl. by rewrite Hde3.
Qed.

Example guarded_reached :
  (on (emit scripts 1) "e" (Fn noop) ;;
   once (emit scripts 1) "e" (Fn fail) ;;
   on (emit scripts 1) "e" (Fn noop) ;;
   on (emit scripts 1) "error" (Fn observer)) init = Ok tt guarded.
Proof. reflexivity. Qed.

Lemma emit_error_redirected_witness :
  ∃ s', emit scripts 4 "e" [] guarded = Ok true s' ∧
    calls s' = [(noop, []); (fail, []);
                (observer, [VStr "e"; VExc (UserError 7)]); (noop, [])] ∧
    events_get "e" s' = [Some (Fn noop); Some (Fn noop)] ∧
    _emitting s' = [].
Proof.
  destruct (emit_error_redirected scripts 3 "e" []
              [Some (Fn noop)] (_Once 0 (Fn fail)) [Some (Fn noop)]
              (UserError 7) guarded)
    as (s' & H & Hc & Hg & _ & Hst).
  - apply wfb_wf. vm_compute. reflexivity.
  - done.
  - reflexivity.
  - apply Forall_singleton. by apply noop_observing.
  - apply Forall_singleton. by apply noop_observing.
  - reflexivity.
  - discriminate.
  - apply Forall_singleton. by apply observer_target_observing.
  - reflexivity.
  - reflexivity.
  - reflexivity.
  - reflexivity.
  - vm_compute. lia.
  - vm_compute. lia.
  - by exists s'.
Defined.

(** X8. An exception raised by a listener of ["error"] is not handled.
    When a listener of the event, registered after listeners that only
    observe, raises [x] and, among the listeners of ["error"], one raises
    [y] after listeners that only observe, neither of the two having
    called a method that changes the emitter before it raised (they have
    at most noted, recalled, counted or listed; in particular they have
    not emitted), [emit] raises [y].  Both the event and ["error"] stay
    on the stack, and the listeners registered after the two that raised
    are not called. *)
Theorem emit_error_listener_raises body fuel event args pre c post x
    epre ce epost y s :
  wf s → event ≠ "error" →
  events_get event s = pre ++ Some c :: post →
  Forall (observing body) pre →
  failing x (body (target c) args) →
  events_get "error" s = epre ++ Some ce :: epost →
  Forall (observing body) epre →
  failing y (body (target ce) [VStr event; VExc x]) →
  length pre < fuel → S (length epre) < fuel →
  ∃ s', emit body (S fuel) event args s = Err y s' ∧
    calls s' = calls s ++ notify pre args ++ [(target c, args)]
      ++ notify epre [VStr event; VExc x]
      ++ [(target ce, [VStr event; VExc x])] ∧
    _emitting s' = _emitting s ++ [event; "error"] ∧
    events_get event s' = (spent <$> pre) ++ spent (Some c) :: post ∧
    events_get "error" s' = (spent <$> epre) ++ spent (Some ce) :: epost.
Proof.
  intros Hw Hne Hg Hpre Hb Hge Hepre Hbe Hlen Hlene.
  destruct (events_get_bound event s) as [a He].
  { rewrite Hg. by destruct pre. }
  destruct (events_get_bound "error" s) as [ae Hee].
  { rewrite Hge. by destruct epre. }
  assert (Hd : deref a s = pre ++ Some c :: post).
  { rewrite <- Hg. unfold events_get. by rewrite He. }
  assert (Hde : deref ae s = epre ++ Some ce :: epost).
  { rewrite <- Hge. unfold events_get. by rewrite Hee. }
  assert (Hae1 : a ≠ ae).
  { intros ->. apply Hne. by eapply (wf_inj s Hw). }
  destruct fuel as [|f]; [lia|].
  rewrite emit_S. unfold emit_body at 1.
  rewrite bool_decide_eq_false_2 by (rewrite Hg; by destruct pre).
  unfold bind at 1, emit_loop. unfold bind at 1, modify at 1.
  unfold bind at 1, events_getitem. cbn [_events set_emitting]. rewrite He.
  set (s1 := set_emitting _ s).
  destruct (dispatch_prefix body (emit body (S f)) event args a pre []
              (Some c :: post) (S f - length pre) s1 He Hd Hpre)
    as (s2 & Hdis & T1 & Hd2 & Hc2).
  replace (length pre + (S f - length pre)) with (S f) in Hdis by lia.
  cbn [length Nat.add] in Hdis. rewrite Hdis.
  destruct (S f - length pre) as [|steps] eqn:Hsteps; [lia|].
  assert (Hx : deref a s2 !! length pre = Some (Some c)).
  { rewrite Hd2. simpl. rewrite <- (length_fmap spent pre).
    by apply list_lookup_middle. }
  rewrite dispatch_S, Hx. unfold bind at 1.
  destruct (call_failing body (emit body (S f)) c args x s2 Hb)
    as (s3 & Hcall & Hsame & Hc3).
  pose proof (same_emitter_touches a _ _ Hsame) as T2.
  pose proof (touches_trans a _ _ _ T1 T2) as T12.
  destruct T12 as (E1 & E2 & E3 & E4 & E5 & E6 & E7).
  assert (Hde3 : deref ae s3 = deref ae s).
  { unfold deref. rewrite E7 by done. done. }
  assert (Hd3 : deref a s3 = deref a s2).
  { unfold deref. by destruct Hsame as (_ & -> & _). }
  rewrite (turn_raise_redirects body (emit body (S f)) event args
             (length pre) (Some c) s2 x s3 Hcall Hne).
  2:{ unfold listeners_count, events_get. rewrite E1. simpl. rewrite Hee.
      rewrite Hde3, Hde. rewrite length_app. simpl. lia. }
  destruct (emit_failing body f "error" [VStr event; VExc x] ae epre ce
              epost y s3)
    as (s4 & Hem & (F1 & F2 & F3 & F4 & F5 & F6 & F7) & Hd4 & Hc4);
    try done.
  { by rewrite E1. }
  { by rewrite Hde3. }
  { by left. }
  { lia. }
  rewrite Hem.
  destruct (finally_clause_spent event a (length pre) c s4)
    as (s5 & Hfin & (G1 & G2 & G3 & G4 & G5 & G6 & G7) & Hd5 & Hc5).
  { by rewrite F1; simpl; rewrite E1. }
  { unfold deref. rewrite F7 by done. simpl. fold (deref a s3).
    by rewrite Hd3. }
  rewrite Hfin. exists s5. split; [done|].
  split; [|split; [|split]].
  - rewrite Hc5, Hc4, Hc3, Hc2. simpl. by rewrite <- !app_assoc.
  - rewrite G3, F3. simpl. rewrite E3. simpl. by rewrite <- app_assoc.
  - unfold events_get. rewrite G1, F1. simpl. rewrite E1. simpl. rewrite He.
    rewrite Hd5. unfold deref at 1. rewrite F7 by done. simpl.
    fold (deref a s3). rewrite Hd3, Hd2. simpl.
    rewrite <- (length_fmap spent pre).
    by rewrite insert_app_r_alt, Nat.sub_diag by lia.
  - unfold events_get. rewrite G1, F1. simpl. rewrite E1. simpl. rewrite Hee.
    unfold deref. rewrite G7 by done. fold (deref ae s4). done.
Qed.

Example faulty_reached :
  (on (emit scripts 1) "e" (Fn fail) ;;
   on (emit scripts 1) "e" (Fn noop) ;;
   on (emit scripts 1) "error" (Fn noop) ;;
   on (emit scripts 1) "error" (Fn fail_check)) init = Ok tt faulty.
Proof. reflexivity. Qed.

Lemma emit_error_listener_raises_witness :
  ∃ s', emit scripts 4 "e" [] faulty = Err (UserError 9) s' ∧
    calls s' = [(fail, []); (noop, [VStr "e"; VExc (UserError 7)]);
                (fail_check, [VStr "e"; VExc (UserError 7)])] ∧
    _emitting s' = ["e"; "error"].
Proof.
  destruct (emit_error_listener_raises scripts 3 "e" []
              [] (Fn fail) [Some (Fn noop)] (UserError 7)
              [Some (Fn noop)] (Fn fail_check) [] (UserError 9) faulty)
    as (s' & H & Hc & Hst & _).
  - apply wfb_wf. vm_compute. reflexivity.
  - done.
  - reflexivity.
  - apply Forall_nil_2.
  - reflexivity.
  - reflexivity.
  - apply Forall_singleton. by apply noop_observing.
  - reflexivity.
  - simpl. lia.
  - simpl. lia.
  - by exists s'.
Defined.

(** ** The limit on listeners is not consulted *)

Lemma unlimited_ret {A} (a : A) : unlimited (ret a).
Proof. done. Qed.

Lemma unlimited_raise {A} x : unlimited (raise (A:=A) x).
Proof. done. Qed.

Lemma unlimited_bind {A B} (m : M A) (k : A → M B) :
  unlimited m → (∀ a, unlimited (k a)) → unlimited (bind m k).
Proof.
  intros Hm Hk z s. unfold bind. rewrite Hm.
  destruct (m s) as [a s'|x s'|]; simpl; [apply Hk|done..].
Qed.

Lemma unlimited_modify f :
  (∀ z s, f (set_max z s) = set_max z (f s)) → unlimited (modify f).
Proof. intros H z s. unfold modify. simpl. by rewrite H. Qed.

Lemma unlimited_gets {A} (f : Emitter → A) :
  (∀ z s, f (set_max z s) = f s) → unlimited (gets f).
Proof. intros H z s. unfold gets. simpl. by rewrite H. Qed.

Lemma unlimited_for_each {A} (f : A → M unit) l :
  (∀ x, unlimited (f x)) → unlimited (for_each f l).
Proof.
  intros H. induction l as [|x l IH]; [done|].
  cbn [for_each]. by apply unlimited_bind.
Qed.

Lemma gen_take_set_max n z s :
  ∀ g, gen_take n g (set_max z s) = gen_take n g s.
Proof.
  induction n as [|n IH]; intros g; [done|]. cbn [gen_take].
  change (gen_next g (set_max z s)) with (gen_next g s).
  destruct (gen_next g s) as [[x|] g']; [|done]. by rewrite IH.
Qed.

Lemma gen_list_set_max event z s :
  gen_list (listeners event (set_max z s)) (set_max z s)
  = gen_list (listeners event s) s.
Proof. unfold gen_list. by rewrite gen_take_set_max. Qed.

Lemma unlimited_events_getitem event : unlimited (events_getitem event).
Proof. intros z s. unfold events_getitem. simpl. by destruct (_ !! _). Qed.

Lemma unlimited_list_setitem a i x : unlimited (list_setitem a i x).
Proof.
  intros z s. unfold list_setitem.
  change (deref a (set_max z s)) with (deref a s). by case_decide.
Qed.

Lemma unlimited_emitting_pop : unlimited emitting_pop.
Proof. intros z s. unfold emitting_pop. simpl. by destruct (_emitting s). Qed.

Lemma unlimited_purge event : unlimited (purge event).
Proof.
  unfold purge. apply unlimited_bind; [apply unlimited_events_getitem|].
  intros a. apply unlimited_bind; [by apply unlimited_gets|].
  intros kept. by apply unlimited_modify.
Qed.

Section Unlimited.
Variable body : nat → list value → act.
Variable emit_rec : string → list value → M bool.
Hypothesis emit_rec_unlimited : ∀ event args, unlimited (emit_rec event args).

Lemma unlimited__on event listener : unlimited (_on emit_rec event listener).
Proof.
  unfold _on. apply unlimited_bind; [done|]. intros _.
  apply unlimited_bind; [apply unlimited_events_getitem|]. intros a.
  by apply unlimited_modify.
Qed.

Lemma unlimited_on event listener : unlimited (on emit_rec event listener).
Proof.
  intros z s. unfold on.
  change (is_emitting event (set_max z s)) with (is_emitting event s).
  destruct (is_emitting event s); simpl; [done|]. apply unlimited__on.
Qed.

Lemma unlimited_once event listener : unlimited (once emit_rec event listener).
Proof.
  intros z s. unfold once. cbv zeta.
  change (is_emitting event (set_next_uid _ (set_max z s)))
    with (is_emitting event s).
  change (is_emitting event (set_next_uid _ s)) with (is_emitting event s).
  destruct (is_emitting event s); simpl; [done|].
  apply (unlimited__on event _ z (set_next_uid (S (next_uid s)) s)).
Qed.

Lemma unlimited__remove event listener :
  unlimited (_remove emit_rec event listener).
Proof.
  intros z s. unfold _remove.
  change (events_get event (set_max z s)) with (events_get event s).
  destruct (find_offset listener (events_get event s)); [|done].
  revert z s. apply unlimited_bind; [apply unlimited_events_getitem|].
  intros a. apply unlimited_bind; [by apply unlimited_modify|]. intros _.
  apply unlimited_bind; [done|]. intros _. apply unlimited_ret.
Qed.

Lemma unlimited_remove event listener :
  unlimited (remove emit_rec event listener).
Proof.
  intros z s. unfold remove.
  change (is_emitting event (set_max z s)) with (is_emitting event s).
  destruct (is_emitting event s); simpl; [done|]. apply unlimited__remove.
Qed.

Lemma unlimited_run a : unlimited (run emit_rec a).
Proof.
  induction a as [|x|v k IH|k IH|event args k IH|event l k IH
    |event l k IH|event l k IH|event k IH|event k IH|b IHb h IHh k IHk];
    cbn [run].
  - apply unlimited_ret.
  - apply unlimited_raise.
  - apply unlimited_bind; [by apply unlimited_modify|done].
  - apply unlimited_bind; [by apply unlimited_gets|done].
  - by apply unlimited_bind.
  - apply unlimited_bind; [apply unlimited_on|done].
  - apply unlimited_bind; [apply unlimited_once|done].
  - apply unlimited_bind; [apply unlimited_remove|done].
  - apply unlimited_bind; [by apply unlimited_gets|done].
  - apply unlimited_bind; [|done]. apply unlimited_gets.
    intros z s. by rewrite gen_list_set_max.
  - intros z s. rewrite IHb. destruct (run emit_rec b s) as [[] s'|x s'|];
      simpl; [apply IHk| |done].
    apply (unlimited_bind (run emit_rec (h x)) (λ _, run emit_rec k));
      [apply IHh|done].
Qed.

Lemma unlimited_call c args : unlimited (call body emit_rec c args).
Proof.
  induction c as [name|uid func IH]; cbn [call]; [|done].
  apply unlimited_bind; [by apply unlimited_modify|]. intros _.
  apply unlimited_run.
Qed.

Lemma unlimited_invoke listener args :
  unlimited (invoke body emit_rec listener args).
Proof. destruct listener; [apply unlimited_call|apply unlimited_raise]. Qed.

Lemma unlimited_finally_clause event offset listener :
  unlimited (finally_clause event offset listener).
Proof.
  unfold finally_clause. destruct (is_once listener); [|apply unlimited_ret].
  apply unlimited_bind; [apply unlimited_events_getitem|]. intros a.
  apply unlimited_list_setitem.
Qed.

Lemma unlimited_turn event args offset listener :
  unlimited (turn body emit_rec event args offset listener).
Proof.
  intros z s. unfold turn. cbv zeta. rewrite unlimited_invoke.
  destruct (invoke body emit_rec listener args s) as [[] s1|x s1|]; simpl;
    [apply unlimited_finally_clause| |done].
  change (events_get "error" (set_max z s1)) with (events_get "error" s1).
  destruct (bool_decide (event = "error")
            || bool_decide (events_get "error" s1 = [])).
  - rewrite unlimited_finally_clause.
    by destruct (finally_clause event offset listener s1).
  - rewrite (unlimited_bind (emit_rec "error" [VStr event; VExc x])
               (λ _, ret tt)); [|done|intros; apply unlimited_ret].
    destruct ((emit_rec "error" [VStr event; VExc x];; ret tt) s1)
      as [[] s2|y s2|]; simpl; [apply unlimited_finally_clause| |done].
    rewrite unlimited_finally_clause.
    by destruct (finally_clause event offset listener s2).
Qed.

Lemma unlimited_dispatch steps a event args :
  ∀ offset, unlimited (dispatch body emit_rec steps a event args offset).
Proof.
  induction steps as [|steps IH]; intros offset z s; cbn [dispatch];
    change (deref a (set_max z s)) with (deref a s);
    destruct (deref a s !! offset); try done.
  apply unlimited_bind; [apply unlimited_turn|done].
Qed.

Lemma unlimited_flush event : unlimited (flush emit_rec event).
Proof.
  unfold flush. apply unlimited_bind; [by apply unlimited_gets|].
  intros removals. apply unlimited_bind; [by apply unlimited_modify|].
  intros _. apply unlimited_bind; [by apply unlimited_gets|].
  intros additions. apply unlimited_bind; [by apply unlimited_modify|].
  intros _. apply unlimited_bind.
  - apply unlimited_for_each. intros x. apply unlimited__remove.
  - intros _. apply unlimited_for_each. intros x. apply unlimited__on.
Qed.

Lemma unlimited_epilogue event : unlimited (epilogue emit_rec event).
Proof.
  unfold epilogue. apply unlimited_bind; [apply unlimited_purge|].
  intros _. apply unlimited_bind; [apply unlimited_emitting_pop|].
  intros _. apply unlimited_bind; [by apply unlimited_gets|].
  intros idle. apply unlimited_bind; [|intros; apply unlimited_ret].
  destruct idle; [apply unlimited_flush|apply unlimited_ret].
Qed.

Lemma unlimited_emit_body steps event args :
  unlimited (emit_body body emit_rec steps event args).
Proof.
  intros z s. unfold emit_body.
  change (events_get event (set_max z s)) with (events_get event s).
  destruct (bool_decide (events_get event s = [])); [done|]. revert z s.
  apply unlimited_bind; [|intros; apply unlimited_epilogue].
  unfold emit_loop. apply unlimited_bind; [by apply unlimited_modify|].
  intros _. apply unlimited_bind; [apply unlimited_events_getitem|].
  intros a. apply unlimited_dispatch.
Qed.

End Unlimited.

Lemma unlimited_emit body fuel :
  ∀ event args, unlimited (emit body fuel event args).
Proof.
  induction fuel as [|fuel IH]; intros event args; [done|].
  cbn [emit]. by apply unlimited_emit_body.
Qed.

(** X9. [max_listeners] is a stored number and nothing more: the setter
    changes what the getter returns, and no method consults the limit.
    Setting it before [emit], [on], [once] or [remove] gives the outcome
    of the call made without setting it, in the same state but for the
    limit; the counts are the same.  No registration is refused, whatever
    the limit. *)
Theorem max_listeners_not_enforced body fuel event args listener z s :
  (set_max_listeners z ;; gets max_listeners) s = Ok z (set_max z s)
  ∧ (set_max_listeners z ;; gets (listeners_count event)) s
    = Ok (listeners_count event s) (set_max z s)
  ∧ (set_max_listeners z ;; emit body fuel event args) s
    = with_max z (emit body fuel event args s)
  ∧ (set_max_listeners z ;; on (emit body fuel) event listener) s
    = with_max z (on (emit body fuel) event listener s)
  ∧ (set_max_listeners z ;; once (emit body fuel) event listener) s
    = with_max z (once (emit body fuel) event listener s)
  ∧ (set_max_listeners z ;; remove (emit body fuel) event listener) s
    = with_max z (remove (emit body fuel) event listener s).
Proof.
  pose proof (unlimited_emit body fuel) as He.
  split; [done|]. split; [done|]. split; [apply He|].
  split; [by apply unlimited_on|]. split; [by apply unlimited_once|].
  by apply unlimited_remove.
Qed.

(** ** Changes asked for during a dispatch *)

Lemma deferred_refl a event s : deferred a event [] [] s s.
Proof.
  repeat split; try done; intros e; case_decide; by rewrite app_nil_r.
Qed.

Lemma deferred_trans a event rs1 ad1 rs2 ad2 s1 s2 s3 :
  deferred a event rs1 ad1 s1 s2 → deferred a event rs2 ad2 s2 s3 →
  deferred a event (rs1 ++ rs2) (ad1 ++ ad2) s1 s3.
Proof.
  intros (A1 & A2 & A3 & A4 & A5 & A6) (B1 & B2 & B3 & B4 & B5 & B6).
  split; [congruence|]. split; [congruence|]. split; [congruence|].
  split; [|split].
  - intros a' Ha. by rewrite B4, A4.
  - intros e. rewrite B5, A5. case_decide; by rewrite <- ?app_assoc.
  - intros e. rewrite B6, A6. case_decide; by rewrite <- ?app_assoc.
Qed.

Lemma touches_deferred a event s s' :
  touches a s s' → deferred a event [] [] s s'.
Proof.
  intros (E1 & E2 & E3 & E4 & E5 & E6 & E7).
  repeat split; try done; intros e; rewrite ?E4, ?E5; case_decide;
    by rewrite app_nil_r.
Qed.

Lemma queue_enqueue_app event x m e :
  queue (enqueue event x m) e =
  queue m e ++ (if decide (e = event) then [x] else []).
Proof.
  rewrite queue_enqueue. destruct (decide (e = event)) as [->|Hne].
  - by rewrite decide_True.
  - rewrite decide_False by done. by rewrite app_nil_r.
Qed.

(** Run while its event is on the stack, such a script only queues. *)
Lemma run_deferring emit_rec event a :
  ∀ s, event ∈ _emitting s → deferring event a →
  ∃ rs adds s', run emit_rec a s = Ok tt s' ∧
    deferred 0 event rs adds s s' ∧ lists s' = lists s ∧
    calls s' = calls s.
Proof.
  induction a as [|x|v k IH|k IH|e args k IH|e l k IH
    |e l k IH|e l k IH|e k IH|e k IH|b IHb h IHh k IHk];
    intros s Hin Hp; simpl in Hp; try done.
  - exists [], [], s. split; [done|]. split; [apply deferred_refl|done].
  - destruct (IH (set_notes (λ n, n ++ [v]) s) Hin Hp)
      as (rs & adds & s' & Hr & Hs & Hl & Hc).
    exists rs, adds, s'. simpl. unfold bind, modify. by rewrite Hr.
  - destruct (IH (notes s) s Hin (Hp _)) as (rs & adds & s' & Hr & Hs & Hl & Hc).
    exists rs, adds, s'. simpl. unfold bind, gets. by rewrite Hr.
  - destruct Hp as [-> Hp]. cbn [run]. unfold bind at 1.
    rewrite on_emitting by done.
    destruct (IH (set_additions (enqueue event l) s) Hin Hp)
      as (rs & adds & s' & Hr & Hs & Hl & Hc).
    exists rs, (l :: adds), s'. split; [done|]. split; [|done].
    eapply (deferred_trans 0 event [] [l] rs adds); [|done].
    repeat split; try done; intros e; simpl;
      rewrite ?queue_enqueue_app; case_decide; by rewrite ?app_nil_r.
  - destruct Hp as [-> Hp]. cbn [run]. unfold bind at 1.
    rewrite once_emitting by done.
    destruct (IH (set_additions (enqueue event (_Once (next_uid s) l))
                    (set_next_uid (S (next_uid s)) s)) Hin Hp)
      as (rs & adds & s' & Hr & Hs & Hl & Hc).
    exists rs, (_Once (next_uid s) l :: adds), s'.
    split; [done|]. split; [|done].
    eapply (deferred_trans 0 event [] [_Once (next_uid s) l] rs adds);
      [|done].
    repeat split; try done; intros e; simpl;
      rewrite ?queue_enqueue_app; case_decide; by rewrite ?app_nil_r.
  - destruct Hp as [-> Hp]. cbn [run]. unfold bind at 1.
    rewrite remove_emitting by done.
    destruct (IH (set_removals (enqueue event l) s) Hin Hp)
      as (rs & adds & s' & Hr & Hs & Hl & Hc).
    exists (l :: rs), adds, s'. split; [done|]. split; [|done].
    eapply (deferred_trans 0 event [l] [] rs adds); [|done].
    repeat split; try done; intros e; simpl;
      rewrite ?queue_enqueue_app; case_decide; by rewrite ?app_nil_r.
  - destruct (IH (listeners_count e s) s Hin (Hp _))
      as (rs & adds & s' & Hr & Hs & Hl & Hc).
    exists rs, adds, s'. simpl. unfold bind, gets. by rewrite Hr.
  - destruct (IH (gen_list (listeners e s) s).1 s Hin (Hp _))
      as (rs & adds & s' & Hr & Hs & Hl & Hc).
    exists rs, adds, s'. simpl. unfold bind, gets. by rewrite Hr.
Qed.

Lemma call_deferring body emit_rec event c args s :
  event ∈ _emitting s →
  deferring event (body (target c) args) →
  ∃ rs adds s', call body emit_rec c args s = Ok tt s' ∧
    deferred 0 event rs adds s s' ∧ lists s' = lists s ∧
    calls s' = calls s ++ [(target c, args)].
Proof.
  induction c as [name|uid func IH]; simpl; intros Hin Hb; [|by apply IH].
  destruct (run_deferring emit_rec event (body name args)
              (set_calls (λ l, l ++ [(name, args)]) s) Hin Hb)
    as (rs & adds & s' & Hr & Hs & Hl & Hc).
  exists rs, adds, s'. unfold bind, modify. by rewrite Hr.
Qed.

Lemma deferred_address a a' event rs adds s s' :
  deferred a event rs adds s s' → lists s' = lists s →
  deferred a' event rs adds s s'.
Proof.
  intros (A1 & A2 & A3 & A4 & A5 & A6) Hl. repeat split; try done.
  intros ? _. by rewrite Hl.
Qed.

Lemma turn_deferring body emit_rec event args a offset c s :
  event ∈ _emitting s →
  deferring event (body (target c) args) →
  _events s !! event = Some a →
  deref a s !! offset = Some (Some c) →
  ∃ rs adds s',
    turn body emit_rec event args offset (Some c) s = Ok tt s' ∧
    deferred a event rs adds s s' ∧
    deref a s' = <[offset := spent (Some c)]> (deref a s) ∧
    calls s' = calls s ++ [(target c, args)].
Proof.
  intros Hin Hb He Hl. unfold turn. cbn [invoke].
  destruct (call_deferring body emit_rec event c args s Hin Hb)
    as (rs & adds & s1 & Hc & Hdef & Hlists & Hcalls).
  apply (deferred_address 0 a) in Hdef; [|done].
  rewrite Hc.
  destruct (finally_clause_spent event a offset c s1)
    as (s2 & Hfin & T & Hd & Hc2).
  { destruct Hdef as (-> & _). done. }
  { unfold deref. by rewrite Hlists. }
  exists rs, adds, s2. split; [done|]. split; [|split].
  - rewrite <- (app_nil_r rs), <- (app_nil_r adds).
    eapply deferred_trans; [done|]. by apply touches_deferred.
  - rewrite Hd. unfold deref. by rewrite Hlists.
  - by rewrite Hc2.
Qed.

Lemma dispatch_deferring body emit_rec event args a rest :
  ∀ done steps s,
  event ∈ _emitting s →
  _events s !! event = Some a →
  deref a s = done ++ rest →
  Forall (heeding body event) rest →
  length rest ≤ steps →
  ∃ rs adds s',
    dispatch body emit_rec steps a event args (length done) s = Ok tt s' ∧
    deferred a event rs adds s s' ∧
    deref a s' = done ++ (spent <$> rest) ∧
    calls s' = calls s ++ notify rest args.
Proof.
  induction rest as [|x rest IH]; intros done steps s Hin He Hd Hall Hlen.
  - exists [], [], s. rewrite app_nil_r in *.
    assert (Hn : deref a s !! length done = None).
    { rewrite Hd. by apply lookup_ge_None. }
    split; [by destruct steps; simpl; rewrite Hn|].
    split; [apply deferred_refl|]. split; [done|].
    unfold notify. simpl. by rewrite app_nil_r.
  - destruct steps as [|steps]; [simpl in Hlen; lia|].
    apply Forall_cons in Hall as [(c & -> & Hb) Hall].
    assert (Hx : deref a s !! length done = Some (Some c)).
    { rewrite Hd. by apply list_lookup_middle. }
    destruct (turn_deferring body emit_rec event args a (length done) c s
                Hin (Hb _) He Hx)
      as (rs1 & ad1 & s1 & Ht & D1 & Hd1 & Hc1).
    destruct (IH (done ++ [spent (Some c)]) steps s1) as
      (rs2 & ad2 & s2 & Hdis & D2 & Hd2 & Hc2).
    { by destruct D1 as (_ & _ & -> & _). }
    { by destruct D1 as (-> & _). }
    { rewrite Hd1, Hd, <- app_assoc. simpl.
      by rewrite insert_app_r_alt, Nat.sub_diag by lia. }
    { done. }
    { simpl in Hlen. lia. }
    exists (rs1 ++ rs2), (ad1 ++ ad2), s2.
    rewrite dispatch_S, Hx. unfold bind. rewrite Ht.
    rewrite length_app, Nat.add_1_r in Hdis. rewrite Hdis.
    split; [done|]. split; [by eapply deferred_trans|]. split.
    + rewrite Hd2, <- app_assoc. done.
    + rewrite Hc2, Hc1, <- app_assoc. done.
Qed.

(** X10. Listeners that call [on], [once] and [remove] for the event
    being emitted do not disturb the dispatch: every entry registered when
    [emit] starts is called exactly once, in registration order, and the
    loop ends with the list as long as it was, the one-time entries
    overwritten.  What the listeners asked for is in the queues by then
    and is applied before [emit] returns [True]: the one-time entries are
    dropped, then the removals are made and then the additions, each with
    its notification. *)
Theorem emit_defers_changes body fuel event args ln lr s :
  wf s → event ∉ _emitting s →
  event ≠ "new_listener" → event ≠ "remove_listener" →
  events_get event s ≠ [] →
  Forall (heeding body event) (events_get event s) →
  queue (_removals s) event = [] → queue (_additions s) event = [] →
  ready body "new_listener" ln s → ready body "remove_listener" lr s →
  length (events_get event s) ≤ S fuel →
  length ln ≤ fuel → length lr ≤ fuel →
  ∃ s1 s',
    emit_loop body (emit body (S fuel)) (S fuel) event args s = Ok tt s1 ∧
    calls s1 = calls s ++ notify (events_get event s) args ∧
    events_get event s1 = spent <$> events_get event s ∧
    emit body (S (S fuel)) event args s = Ok true s' ∧
    calls s' = calls s1
      ++ removal_calls event lr (queue (_removals s1) event)
           (filter (λ x : slot, is_once x = false) (events_get event s))
      ++ addition_calls event ln (queue (_additions s1) event) ∧
    events_get event s' =
      foldl (λ l r, remove_first r l)
        (filter (λ x : slot, is_once x = false) (events_get event s))
        (queue (_removals s1) event)
      ++ (Some <$> queue (_additions s1) event) ∧
    _emitting s' = _emitting s.
Proof.
  intros Hw Hidle Hn Hr Hne Hall Hqr Hqa Hrn Hrr Hlen Hln Hlr.
  destruct (events_get_bound event s Hne) as [a He].
  assert (Hg : events_get event s = deref a s).
  { unfold events_get. by rewrite He. }
  rewrite Hg in *.
  assert (Hloop : ∃ s1,
    emit_loop body (emit body (S fuel)) (S fuel) event args s = Ok tt s1 ∧
    deferred a event (queue (_removals s1) event) (queue (_additions s1) event)
      (set_emitting (λ l, l ++ [event]) s) s1 ∧
    deref a s1 = spent <$> deref a s ∧
    calls s1 = calls s ++ notify (deref a s) args).
  { unfold emit_loop. unfold bind at 1, modify at 1.
    unfold bind at 1, events_getitem. cbn [_events set_emitting]. rewrite He.
    set (s0 := set_emitting _ s).
    destruct (dispatch_deferring body (emit body (S fuel)) event args a
                (deref a s) [] (S fuel) s0)
      as (rs & adds & s1 & Hd & D & Hl & Hc); try done.
    { simpl. apply elem_of_app. right. by apply list_elem_of_singleton. }
    exists s1. split; [done|]. split; [|done].
    destruct D as (D1 & D2 & D3 & D4 & D5 & D6).
    pose proof (D5 event) as Q5. pose proof (D6 event) as Q6.
    simpl in Q5, Q6. rewrite Hqr, decide_True in Q5 by done.
    rewrite Hqa, decide_True in Q6 by done. simpl in Q5, Q6.
    rewrite Q5, Q6. by repeat split. }
  destruct Hloop as (s1 & Hloop & (D1 & D2 & D3 & D4 & D5 & D6) & Hd1 & Hc1).
  assert (Hw1 : wf s1).
  { destruct Hw as [Hb Hi]. split.
    - intros e a'. rewrite D1, D2. apply Hb.
    - intros e1 e2 a'. rewrite D1. apply Hi. }
  assert (Hother : ∀ e l, e ≠ event → ready body e l s → ready body e l s1).
  { intros e l Hneq (R1 & R2 & R3 & R4). split; [|split; [done|]].
    - rewrite <- R1. unfold events_get, deref. rewrite D1. simpl.
      destruct (_events s !! e) as [a'|] eqn:He'; [|done].
      rewrite D4; [done|]. intros ->. apply Hneq.
      by eapply (wf_inj s Hw).
    - rewrite D5, D6. simpl. rewrite R3, R4.
      destruct (decide (e = event)); [done|]. by split. }
  assert (Hlive : live event s1 =
                  filter (λ x : slot, is_once x = false) (deref a s)).
  { unfold live, events_get. rewrite D1. simpl. rewrite He, Hd1.
    apply filter_spent. eapply Forall_impl; [done|].
    intros x (c & -> & _). by eexists. }
  destruct (epilogue_ready body fuel event (_emitting s) event ln lr s1)
    as (s' & Hep & _ & Hg' & Hc' & _ & _ & Hst); try done.
  { by apply Hother. }
  { by apply Hother. }
  exists s1, s'. split; [done|]. split; [done|]. split.
  { unfold events_get. rewrite D1. simpl. by rewrite He. }
  split.
  { rewrite emit_S. unfold emit_body.
    rewrite bool_decide_eq_false_2 by by rewrite Hg.
    unfold bind at 1. by rewrite Hloop. }
  by rewrite <- Hlive.
Qed.

Lemma staged_heeding : Forall (heeding scripts "e") (events_get "e" staged).
Proof.
  repeat apply Forall_cons_2; try apply Forall_nil_2.
  - exists (Fn noop). by split.
  - exists (_Once 0 (Fn editor)). by split.
  - exists (Fn observer). split; [done|]. by intros [|[] [|? []]].
Qed.

Lemma emit_defers_changes_witness :
  ∃ s', emit scripts 4 "e" [] staged = Ok true s' ∧
    calls s' = calls queued
      ++ removal_calls "e" [Some (Fn observer)] [Fn noop]
           [Some (Fn noop); Some (Fn observer)]
      ++ addition_calls "e" [Some (Fn observer)] [Fn adder] ∧
    events_get "e" s' = [Some (Fn observer); Some (Fn adder)].
Proof.
  assert (Hready : ∀ e, e = "new_listener" ∨ e = "remove_listener" →
            ready scripts e [Some (Fn observer)] staged).
  { intros e He. split; [by destruct He as [-> | ->]|].
    split; [|by split]. apply Forall_singleton.
    split; [apply observer_observing|done]. }
  destruct (emit_defers_changes scripts 2 "e" []
              [Some (Fn observer)] [Some (Fn observer)] staged)
    as (s1 & s' & Hl & _ & _ & He & Hc & Hg & _).
  - apply wfb_wf. vm_compute. reflexivity.
  - apply not_elem_of_nil.
  - done.
  - done.
  - discriminate.
  - apply staged_heeding.
  - reflexivity.
  - reflexivity.
  - apply Hready. by left.
  - apply Hready. by right.
  - vm_compute. lia.
  - simpl. lia.
  - simpl. lia.
  - rewrite queued_reached in Hl. injection Hl as <-.
    exists s'. split; [done|]. split; [exact Hc|exact Hg].
Defined.

(** ** The stack is balanced *)

Lemma balanced_ret {A} (a : A) : balanced (ret a).
Proof. by intros s Hs. Qed.

Lemma balanced_raise {A} x : balanced (raise (A:=A) x).
Proof. by intros s Hs. Qed.

Lemma balanced_bind {A B} (m : M A) (k : A → M B) :
  balanced m → (∀ a, balanced (k a)) → balanced (bind m k).
Proof.
  intros Hm Hk s Hs. unfold bind. specialize (Hm s Hs).
  destruct (m s) as [a s1|x s1|]; [|done..].
  destruct Hm as [Hs1 Hst1]. specialize (Hk a s1 Hs1).
  destruct (k a s1) as [b s2|x s2|]; [|done..].
  destruct Hk as [Hs2 Hst2]. split; [done|congruence].
Qed.

Lemma balanced_modify f :
  (∀ s, _events (f s) = _events s) → (∀ s, lists (f s) = lists s) →
  (∀ s, next_list (f s) = next_list s) →
  (∀ s, _emitting (f s) = _emitting s) →
  balanced (modify f).
Proof.
  intros H1 H2 H3 H4 s [[Hb Hi] He]. unfold modify. split; [|done].
  split; [split|].
  - intros e a. rewrite H1, H3. apply Hb.
  - intros e1 e2 a. rewrite H1. apply Hi.
  - unfold events_get, deref in *. by rewrite H1, H2.
Qed.

Lemma balanced_gets {A} (f : Emitter → A) : balanced (gets f).
Proof. by intros s Hs. Qed.

Lemma balanced_for_each {A} (f : A → M unit) l :
  (∀ x, balanced (f x)) → balanced (for_each f l).
Proof.
  intros H. induction l as [|x l IH]; [apply balanced_ret|].
  cbn [for_each]. by apply balanced_bind.
Qed.

Lemma balanced_events_getitem event : balanced (events_getitem event).
Proof.
  intros s [Hw He].
  destruct (events_getitem_spec event s Hw)
    as (a & s1 & Hg & Hw1 & _ & Hv & Hem & _).
  rewrite Hg. split; [|done]. split; [done|]. by rewrite Hv.
Qed.

Lemma balanced_purge event : event ≠ "error" → balanced (purge event).
Proof.
  intros Hne s [Hw He].
  destruct (purge_spec event s Hw) as (s' & Hp & Hw' & _ & Ho & Hem & _).
  rewrite Hp. split; [|done]. split; [done|]. by rewrite Ho.
Qed.

Lemma balanced_finally_clause event offset listener :
  balanced (finally_clause event offset listener).
Proof.
  unfold finally_clause. destruct (is_once listener); [|apply balanced_ret].
  intros s [Hw He].
  destruct (events_getitem_spec event s Hw)
    as (a & s1 & Hg & Hw1 & He1 & Hv & Hem & _).
  unfold bind. rewrite Hg. unfold list_setitem.
  assert (Hs1 : unhandled s1) by (split; [done|by rewrite Hv]).
  case_decide as Hlt; [|done].
  destruct (store_spec event a (<[offset := None]> (deref a s1)) s1 Hw1 He1)
    as (Hw2 & _ & Ho).
  split; [|done]. split; [done|].
  destruct (decide (event = "error")) as [->|Hne].
  - destruct Hs1 as [_ Hn]. unfold events_get in Hn. rewrite He1 in Hn.
    rewrite Hn in Hlt. simpl in Hlt. lia.
  - rewrite Ho by done. by rewrite Hv.
Qed.

Section Balanced.
Variable body : nat → list value → act.
Variable emit_rec : string → list value → M bool.
Hypothesis body_forthright : ∀ name args, forthright (body name args).
Hypothesis emit_rec_balanced : ∀ event args, balanced (emit_rec event args).

Lemma balanced__on event listener :
  event ≠ "error" → balanced (_on emit_rec event listener).
Proof.
  intros Hne s Hs. rewrite _on_unfold.
  specialize (emit_rec_balanced "new_listener" [VStr event; VObj listener]
                s Hs).
  destruct (emit_rec _ _ s) as [b s1|x s1|]; [|done..].
  destruct emit_rec_balanced as [[Hw1 He1] Hst].
  destruct (appended_spec event (Some listener) s1 Hw1)
    as (Hw2 & _ & (D1 & _ & _ & D4 & _) & _).
  split; [|congruence]. split; [done|]. rewrite D4; [done|].
  by intros ?%list_elem_of_singleton.
Qed.

Lemma balanced_on event listener :
  event ≠ "error" → balanced (on emit_rec event listener).
Proof.
  intros Hne s Hs. unfold on. destruct (is_emitting event s); simpl.
  - by apply (balanced_modify (set_additions (enqueue event listener))).
  - by apply balanced__on.
Qed.

Lemma balanced_once event listener :
  event ≠ "error" → balanced (once emit_rec event listener).
Proof.
  intros Hne s Hs. rewrite once_unfold.
  assert (Hs' : unhandled (set_next_uid (S (next_uid s)) s)).
  { destruct Hs as [Hw He]. split; [by destruct Hw|done]. }
  apply (balanced_on event _ Hne _ Hs').
Qed.

Lemma balanced__remove event listener :
  balanced (_remove emit_rec event listener).
Proof.
  intros s [Hw He]. unfold _remove.
  destruct (find_offset listener (events_get event s)) as [offset|] eqn:Hf;
    [|done].
  assert (Hne : event ≠ "error").
  { intros ->. by rewrite He in Hf. }
  destruct (events_get_bound event s) as [a Ha].
  { intros Hnil. by rewrite Hnil in Hf. }
  unfold bind at 1, events_getitem. rewrite Ha.
  unfold bind at 1, list_pop, modify.
  destruct (store_spec event a (delete offset (deref a s)) s Hw Ha)
    as (Hw1 & _ & Ho).
  set (s1 := set_lists _ s) in *.
  assert (Hs1 : unhandled s1).
  { split; [done|]. by rewrite Ho. }
  pose proof (emit_rec_balanced "remove_listener" [VStr event; VObj listener]
                s1 Hs1) as H.
  unfold bind. destruct (emit_rec _ _ s1) as [b s2|x s2|]; [|done..].
  done.
Qed.

Lemma balanced_remove event listener :
  balanced (remove emit_rec event listener).
Proof.
  intros s Hs. unfold remove. destruct (is_emitting event s); simpl.
  - by apply (balanced_modify (set_removals (enqueue event listener))).
  - by apply balanced__remove.
Qed.

Lemma balanced_run a : forthright a → balanced (run emit_rec a).
Proof.
  induction a as [|x|v k IH|k IH|event args k IH|event l k IH
    |event l k IH|event l k IH|event k IH|event k IH|b IHb h IHh k IHk];
    cbn [run forthright]; intros Hp.
  - apply balanced_ret.
  - apply balanced_raise.
  - apply balanced_bind; [by apply balanced_modify|auto].
  - apply balanced_bind; [apply balanced_gets|auto].
  - apply balanced_bind; [done|auto].
  - destruct Hp. apply balanced_bind; [by apply balanced_on|auto].
  - destruct Hp. apply balanced_bind; [by apply balanced_once|auto].
  - apply balanced_bind; [apply balanced_remove|auto].
  - apply balanced_bind; [apply balanced_gets|auto].
  - apply balanced_bind; [apply balanced_gets|auto].
  - done.
Qed.

Lemma balanced_call c args : balanced (call body emit_rec c args).
Proof.
  induction c as [name|uid func IH]; cbn [call]; [|done].
  apply balanced_bind; [by apply balanced_modify|]. intros _.
  by apply balanced_run.
Qed.

Lemma balanced_turn event args offset listener :
  balanced (turn body emit_rec event args offset listener).
Proof.
  intros s Hs. unfold turn. cbv zeta.
  assert (Hi : balanced (invoke body emit_rec listener args)).
  { destruct listener; [apply balanced_call|apply balanced_raise]. }
  specialize (Hi s Hs).
  destruct (invoke body emit_rec listener args s) as [[] s1|x s1|];
    [| |done].
  - destruct Hi as [Hs1 Hst].
    pose proof (balanced_finally_clause event offset listener s1 Hs1) as H.
    destruct (finally_clause event offset listener s1); [|done..].
    destruct H. split; [done|congruence].
  - destruct Hi as [Hw1 He1].
    rewrite (bool_decide_eq_true_2 (events_get "error" s1 = [])) by done.
    rewrite orb_true_r.
    pose proof (balanced_finally_clause event offset listener s1
                  (conj Hw1 He1)) as H.
    destruct (finally_clause event offset listener s1); [|done..].
    by destruct H.
Qed.

Lemma balanced_dispatch steps a event args :
  ∀ offset, balanced (dispatch body emit_rec steps a event args offset).
Proof.
  induction steps as [|steps IH]; intros offset s Hs; cbn [dispatch];
    destruct (deref a s !! offset) as [listener|] eqn:Hl; try done.
  apply (balanced_bind (turn body emit_rec event args offset listener)
           (λ _, dispatch body emit_rec steps a event args (S offset)));
    [apply balanced_turn|done|done].
Qed.

Lemma balanced_flush event :
  event ≠ "error" → balanced (flush emit_rec event).
Proof.
  intros Hne. unfold flush. apply balanced_bind; [apply balanced_gets|].
  intros removals. apply balanced_bind; [by apply balanced_modify|].
  intros _. apply balanced_bind; [apply balanced_gets|].
  intros additions. apply balanced_bind; [by apply balanced_modify|].
  intros _. apply balanced_bind.
  - apply balanced_for_each. intros x. apply balanced__remove.
  - intros _. apply balanced_for_each. intros x. by apply balanced__on.
Qed.

Lemma balanced_emit_body steps event args :
  balanced (emit_body body emit_rec steps event args).
Proof.
  intros s Hs. unfold emit_body. case_bool_decide as Hnil; [done|].
  assert (Hne : event ≠ "error").
  { intros ->. by destruct Hs. }
  unfold bind at 1, emit_loop. unfold bind at 1, modify at 1.
  set (s1 := set_emitting _ s).
  assert (Hs1 : unhandled s1).
  { destruct Hs as [Hw He]. split; [by destruct Hw|done]. }
  assert (Hloop : balanced (a <- events_getitem event ;;
                            dispatch body emit_rec steps a event args 0)).
  { apply balanced_bind; [apply balanced_events_getitem|].
    intros a. apply balanced_dispatch. }
  specialize (Hloop s1 Hs1).
  destruct ((a <- events_getitem event ;;
             dispatch body emit_rec steps a event args 0) s1)
    as [[] s2|x s2|]; [|done..].
  destruct Hloop as [Hs2 Hst2]. unfold epilogue. unfold bind at 1.
  pose proof (balanced_purge event Hne s2 Hs2) as Hp.
  destruct (purge event s2) as [[] s3|x s3|]; [|done..].
  destruct Hp as [Hs3 Hst3]. unfold bind at 1.
  rewrite (emitting_pop_snoc (_emitting s) event s3)
    by (by rewrite Hst3, Hst2).
  set (s4 := set_emitting _ s3).
  assert (Hs4 : unhandled s4).
  { destruct Hs3 as [Hw He]. split; [by destruct Hw|done]. }
  unfold bind at 1, gets at 1.
  assert (Hrest : balanced
            ((if negb (is_emitting event s4) then flush emit_rec event
              else ret tt) ;; ret true)).
  { apply balanced_bind; [|intros; apply balanced_ret].
    destruct (negb _); [by apply balanced_flush|apply balanced_ret]. }
  specialize (Hrest s4 Hs4).
  destruct (((if negb (is_emitting event s4) then flush emit_rec event
              else ret tt) ;; ret true) s4) as [b s5|x s5|]; [|done..].
  destruct Hrest as [Hs5 Hst5]. split; [done|]. by rewrite Hst5.
Qed.

End Balanced.

Lemma balanced_emit body fuel :
  (∀ name args, forthright (body name args)) →
  ∀ event args, balanced (emit body fuel event args).
Proof.
  intros Hb. induction fuel as [|fuel IH]; intros event args; [done|].
  cbn [emit]. by apply balanced_emit_body.
Qed.

(** X11. The stack of events being emitted is balanced over every call
    of [emit] that returns, whatever the listeners do with the emitter
    (emit again, register, remove), as long as no exception can be
    swallowed on the way: no listener has a [try] block, nothing listens
    for ["error"] and no listener registers for it.  Then a call that
    returns leaves the stack as it found it, and still nothing listens
    for ["error"]. *)
Theorem emit_returns_balanced body fuel event args s b s' :
  (∀ name args, forthright (body name args)) →
  wf s → events_get "error" s = [] →
  emit body fuel event args s = Ok b s' →
  _emitting s' = _emitting s ∧ wf s' ∧ events_get "error" s' = [].
Proof.
  intros Hb Hw He Hem.
  pose proof (balanced_emit body fuel Hb event args s (conj Hw He)) as H.
  rewrite Hem in H. by destruct H as [[? ?] ?].
Qed.

Lemma scripts_forthright name args : forthright (scripts name args).
Proof.
  destruct name as [|[|[|[|[|[|[|[|[|[|name]]]]]]]]]]; simpl; try done;
    try (destruct args as [|[| | [| |] | | | |] [|? ?]]; simpl; done).
  destruct args as [|[] [|? [|? ?]]]; simpl; done.
Qed.

Lemma emit_returns_balanced_witness :
  ∃ s', emit scripts 4 "e" [] staged = Ok true s' ∧ _emitting s' = [].
Proof.
  eexists. split; [vm_compute; reflexivity|].
  refine (proj1 (emit_returns_balanced scripts 4 "e" [] staged true _
                   scripts_forthright _ _ _)).
  - apply wfb_wf. vm_compute. reflexivity.
  - reflexivity.
  - vm_compute. reflexivity.
Defined.



(** X13. An overwritten entry that is still in the list when [emit]
    starts (the loop of an earlier [emit] raised after a one-time listener
    was called, so the list was not purged) is called like any other:
    calling [None] raises [TypeError].  With nothing listening for
    ["error"], [emit] raises it once the listeners before the entry have
    been called; those after it are not called, and the event is pushed
    on the stack once more. *)
Theorem emit_reaches_overwritten_entry body fuel event args pre post s :
  events_get event s = pre ++ None :: post →
  Forall (observing body) pre →
  event = "error" ∨ events_get "error" s = [] →
  length pre < fuel →
  ∃ s', emit body (S fuel) event args s = Err TypeError s' ∧
    calls s' = calls s ++ notify pre args ∧
    events_get event s' = (spent <$> pre) ++ None :: post ∧
    _emitting s' = _emitting s ++ [event].
Proof.
  intros Hg Hall Herr Hlen.
  destruct (events_get_bound event s) as [a He].
  { rewrite Hg. by destruct pre. }
  assert (Hd : deref a s = pre ++ None :: post).
  { rewrite <- Hg. unfold events_get. by rewrite He. }
  rewrite emit_S. unfold emit_body. rewrite bool_decide_eq_false_2.
  2:{ rewrite Hg. by destruct pre. }
  unfold bind at 1, emit_loop. unfold bind at 1, modify at 1.
  unfold bind at 1, events_getitem. cbn [_events set_emitting]. rewrite He.
  set (s1 := set_emitting _ s).
  destruct (dispatch_prefix body (emit body fuel) event args a pre []
              (None :: post) (fuel - length pre) s1 He Hd Hall)
    as (s2 & Hdis & T1 & Hd2 & Hc2).
  replace (length pre + (fuel - length pre)) with fuel in Hdis by lia.
  cbn [length Nat.add] in Hdis. rewrite Hdis.
  destruct (fuel - length pre) as [|steps] eqn:Hsteps; [lia|].
  assert (Hx : deref a s2 !! length pre = Some None).
  { rewrite Hd2. simpl. rewrite <- (length_fmap spent pre).
    by apply list_lookup_middle. }
  rewrite dispatch_S, Hx. unfold bind at 1.
  rewrite (turn_raise_escapes body (emit body fuel) event args (length pre)
             None s2 TypeError s2 eq_refl).
  2:{ destruct Herr as [->|Herr]; [by left|right].
      apply listeners_count_0.
      rewrite (touches_events_get a "error" s1 s2 T1); [done|].
      intros He'. unfold events_get in Herr. simpl in He'.
      rewrite He' in Herr. rewrite Herr in Hd. by destruct pre. }
  simpl. exists s2. split; [done|]. split; [done|].
  destruct T1 as (E1 & _ & E3 & _). split; [|by rewrite E3].
  unfold events_get. rewrite E1. simpl. by rewrite He, Hd2.
Qed.

Lemma emit_reaches_overwritten_entry_witness :
  emit scripts 3 "e" [] fragile = Err (UserError 7) broken ∧
  ∃ s', emit scripts 3 "e" [] broken = Err TypeError s' ∧
    calls s' = calls broken ∧ _emitting s' = ["e"; "e"].
Proof.
  split; [reflexivity|].
  destruct (emit_reaches_overwritten_entry scripts 2 "e" [] []
              [Some (Fn fail)] broken)
    as (s' & H & Hc & _ & Hst).
  - reflexivity.
  - apply Forall_nil_2.
  - by right.
  - simpl. lia.
  - exists s'. split; [done|]. split; [|done].
    rewrite Hc. apply app_nil_r.
Defined.

(** ** A dispatch within a dispatch *)

Lemma dispatched_same x ax cs s0 s s' :
  same_emitter s0 s → calls s = calls s0 →
  dispatched x ax cs s s' → dispatched x ax cs s0 s'.
Proof.
  intros (E1 & E2 & E3 & E4 & E5 & E6 & E7 & E8) Hc
    (D1 & D2 & D3 & D4 & D5 & D6 & D7 & D8).
  unfold dispatched, deref in *. rewrite E1, E2, E3, E4, E5, E6, Hc in *.
  done.
Qed.

Lemma same_dispatched x ax cs s s1 s' :
  dispatched x ax cs s s1 → same_emitter s1 s' → calls s' = calls s1 →
  dispatched x ax cs s s'.
Proof.
  intros (D1 & D2 & D3 & D4 & D5 & D6 & D7 & D8)
    (E1 & E2 & E3 & E4 & E5 & E6 & E7 & E8) Hc.
  unfold dispatched. rewrite E1, E2, E3, E4, E5, E6, Hc. done.
Qed.

(** Such a script, run when the listeners of [x] only observe. *)
Lemma run_relaying body fuel x args ax a :
  ∀ s, relaying x args a →
  _events s !! x = Some ax →
  deref ax s ≠ [] →
  Forall (observing body) (deref ax s) →
  queue (_removals s) x = [] → queue (_additions s) x = [] →
  length (deref ax s) ≤ fuel →
  ∃ s', run (emit body (S fuel)) a s = Ok tt s' ∧
    dispatched x ax (notify (deref ax s) args) s s'.
Proof.
  induction a as [|y|v k IH|k IH|e ar k IH|e l k IH
    |e l k IH|e l k IH|e k IH|e k IH|b IHb h IHh k IHk];
    intros s Hp He Hne Hall Hr Ha Hlen; simpl in Hp; try done.
  - destruct (IH (set_notes (λ n, n ++ [v]) s) Hp He Hne Hall Hr Ha Hlen)
      as (s' & Hrun & Hd).
    exists s'. cbn [run]. unfold bind, modify. by rewrite Hrun.
  - destruct (IH (notes s) s (Hp _) He Hne Hall Hr Ha Hlen)
      as (s' & Hrun & Hd).
    exists s'. cbn [run]. unfold bind, gets. by rewrite Hrun.
  - destruct Hp as (-> & -> & Hp).
    destruct (emit_observed_store body fuel x args ax s He Hne Hall Hr Ha
                Hlen)
      as (s1 & Hem & F1 & F2 & F3 & F4 & F5 & F6 & F7 & F8 & F9).
    destruct (run_passive (emit body (S fuel)) (k true) s1 (Hp _))
      as (s' & Hrun & Hsame & Hc).
    exists s'. cbn [run]. unfold bind at 1. rewrite Hem. split; [done|].
    eapply same_dispatched; [|done..]. by repeat split.
  - destruct (IH (listeners_count e s) s (Hp _) He Hne Hall Hr Ha Hlen)
      as (s' & Hrun & Hd).
    exists s'. cbn [run]. unfold bind, gets. by rewrite Hrun.
  - destruct (IH (gen_list (listeners e s) s).1 s (Hp _) He Hne Hall Hr Ha
                Hlen) as (s' & Hrun & Hd).
    exists s'. cbn [run]. unfold bind, gets. by rewrite Hrun.
Qed.

Lemma call_relaying body fuel x args ax c args0 s :
  relaying x args (body (target c) args0) →
  _events s !! x = Some ax →
  deref ax s ≠ [] →
  Forall (observing body) (deref ax s) →
  queue (_removals s) x = [] → queue (_additions s) x = [] →
  length (deref ax s) ≤ fuel →
  ∃ s', call body (emit body (S fuel)) c args0 s = Ok tt s' ∧
    dispatched x ax ((target c, args0) :: notify (deref ax s) args) s s'.
Proof.
  induction c as [name|uid func IH]; cbn [call target];
    intros Hp He Hne Hall Hr Ha Hlen; [|by apply IH].
  destruct (run_relaying body fuel x args ax (body name args0)
              (set_calls (λ l, l ++ [(name, args0)]) s) Hp He Hne Hall Hr Ha
              Hlen) as (s' & Hrun & D1 & D2 & D3 & D4 & D5 & D6 & D7 & D8).
  exists s'. unfold bind, modify. rewrite Hrun. split; [done|].
  repeat split; try done. rewrite D8. simpl. by rewrite <- app_assoc.
Qed.

(** X14. [emit] is synchronous and depth first.  A listener of the event
    that emits another event [x], whose listeners only observe, has them
    all called, in order, before the next listener of the event is
    called; the outer dispatch then goes on, and [emit] returns [True]
    with the stack as before and the one-time entries of both events
    gone. *)
Theorem emit_nested_dispatch body fuel event args pre c post x args' s :
  wf s → x ≠ event →
  events_get event s = pre ++ Some c :: post →
  Forall (observing body) pre → Forall (observing body) post →
  relaying x args' (body (target c) args) →
  events_get x s ≠ [] →
  Forall (observing body) (events_get x s) →
  queue (_removals s) event = [] → queue (_additions s) event = [] →
  queue (_removals s) x = [] → queue (_additions s) x = [] →
  length (events_get event s) ≤ fuel →
  length (events_get x s) < fuel →
  ∃ s', emit body (S fuel) event args s = Ok true s' ∧
    calls s' = calls s ++ notify pre args ++ [(target c, args)]
      ++ notify (events_get x s) args' ++ notify post args ∧
    events_get event s' =
      filter (λ y : slot, is_once y = false) (events_get event s) ∧
    events_get x s' =
      filter (λ y : slot, is_once y = false) (events_get x s) ∧
    _emitting s' = _emitting s.
Proof.
  intros Hw Hne Hg Hpre Hpost Hb Hle Hobs Hr Ha Hre Hae Hlen Hlene.
  destruct (events_get_bound event s) as [a He].
  { rewrite Hg. by destruct pre. }
  destruct (events_get_bound x s Hle) as [ax Hex].
  assert (Hd : deref a s = pre ++ Some c :: post).
  { rewrite <- Hg. unfold events_get. by rewrite He. }
  assert (Hgx : events_get x s = deref ax s).
  { unfold events_get. by rewrite Hex. }
  rewrite Hgx in *.
  assert (Hae1 : a ≠ ax).
  { intros ->. apply Hne. by eapply (wf_inj s Hw). }
  assert (Hb1 : a < next_list s) by by eapply (wf_bound s Hw).
  assert (Hb2 : ax < next_list s) by by eapply (wf_bound s Hw).
  destruct fuel as [|f]; [lia|].
  rewrite Hg, length_app in Hlen. simpl in Hlen.
  rewrite emit_S. unfold emit_body at 1.
  rewrite bool_decide_eq_false_2 by (rewrite Hg; by destruct pre).
  unfold bind at 1, emit_loop. unfold bind at 1, modify at 1.
  unfold bind at 1, events_getitem. cbn [_events set_emitting]. rewrite He.
  set (s1 := set_emitting _ s).
  destruct (dispatch_prefix body (emit body (S f)) event args a pre []
              (Some c :: post) (S f - length pre) s1 He Hd Hpre)
    as (s2 & Hdis & T1 & Hd2 & Hc2).
  replace (length pre + (S f - length pre)) with (S f) in Hdis by lia.
  cbn [length Nat.add] in Hdis. rewrite Hdis.
  destruct (S f - length pre) as [|steps] eqn:Hsteps; [lia|].
  assert (Hx : deref a s2 !! length pre = Some (Some c)).
  { rewrite Hd2. simpl. rewrite <- (length_fmap spent pre).
    by apply list_lookup_middle. }
  rewrite dispatch_S, Hx. unfold bind at 1.
  destruct T1 as (E1 & E2 & E3 & E4 & E5 & E6 & E7).
  assert (Hdx2 : deref ax s2 = deref ax s).
  { unfold deref. rewrite E7 by done. done. }
  destruct (call_relaying body f x args' ax c args s2)
    as (s4 & Hcall & F1 & F2 & F3 & F4 & F5 & F6 & F7 & F8); try done.
  { by rewrite E1. }
  { by rewrite Hdx2. }
  { by rewrite Hdx2. }
  { by rewrite E5. }
  { by rewrite E4. }
  { rewrite Hdx2. lia. }
  unfold turn. cbn [invoke]. rewrite Hcall.
  assert (He4 : _events s4 !! event = Some a).
  { rewrite F1, E1. simpl. by rewrite lookup_insert_ne. }
  assert (Hd4 : deref a s4 = deref a s2).
  { unfold deref. rewrite F4; [done..|]. rewrite E2. simpl. lia. }
  destruct (finally_clause_spent event a (length pre) c s4 He4)
    as (s5 & Hfin & T5 & Hd5 & Hc5).
  { by rewrite Hd4. }
  rewrite Hfin.
  assert (Hd5' : deref a s5 =
                 ((spent <$> pre) ++ [spent (Some c)]) ++ post).
  { rewrite Hd5, Hd4, Hd2. simpl. rewrite <- (length_fmap spent pre).
    rewrite insert_app_r_alt, Nat.sub_diag by lia. simpl.
    by rewrite <- app_assoc. }
  destruct (dispatch_passive body (emit body (S f)) event args a post
              ((spent <$> pre) ++ [spent (Some c)]) steps s5)
    as (s6 & Hdis6 & T6 & Hd6 & Hc6); try done.
  { by destruct T5 as (-> & _). }
  { lia. }
  rewrite length_app, length_fmap, Nat.add_1_r in Hdis6.
  rewrite Hdis6.
  pose proof (touches_trans a _ _ _ T5 T6) as T56.
  destruct T56 as (G1 & G2 & G3 & G4 & G5 & G6 & G7).
  destruct (epilogue_quiet (emit body (S f)) event a (_emitting s) s6)
    as (s7 & Hep & K1 & K2 & K3 & K4 & K5 & K6 & K7 & K8 & K9).
  { by rewrite G1. }
  { by rewrite G3, F5, E3. }
  { by rewrite G5, F6, E5. }
  { by rewrite G4, F7, E4. }
  rewrite Hep. exists s7. split; [done|].
  split; [|split; [|split; [|done]]].
  - rewrite K7, Hc6, Hc5, F8, Hc2, Hdx2. simpl.
    by rewrite <- !app_assoc.
  - unfold events_get at 1, deref. rewrite K1, K2, lookup_insert_eq.
    rewrite lookup_insert_eq. simpl. rewrite Hd6, Hg.
    rewrite <- app_assoc. simpl.
    change ((spent <$> pre) ++ spent (Some c) :: (spent <$> post))
      with ((spent <$> pre) ++ (spent <$> Some c :: post)).
    rewrite <- fmap_app. apply filter_spent.
    apply Forall_app. split; [by eapply observing_is_Some|].
    apply Forall_cons. split; [by eexists|by eapply observing_is_Some].
  - unfold events_get at 1, deref. rewrite K1, K2, G1, F1.
    rewrite lookup_insert_ne by done. rewrite lookup_insert_eq.
    rewrite lookup_insert_ne by (rewrite G2, F2; lia).
    rewrite G7 by (rewrite E2; simpl; lia).
    rewrite F3. simpl. by rewrite Hdx2.
Qed.

Example chained_reached :
  (on (emit scripts 1) "outer" (Fn noop) ;;
   once (emit scripts 1) "outer" (Fn reenter) ;;
   on (emit scripts 1) "outer" (Fn noop) ;;
   on (emit scripts 1) "e" (Fn observer) ;;
   once (emit scripts 1) "e" (Fn noop)) init = Ok tt chained.
Proof. reflexivity. Qed.

Lemma emit_nested_dispatch_witness :
  ∃ s', emit scripts 4 "outer" [VInt 0] chained = Ok true s' ∧
    calls s' = [(noop, [VInt 0]); (reenter, [VInt 0]);
                (observer, [VInt 1]); (noop, [VInt 1]); (noop, [VInt 0])] ∧
    events_get "outer" s' = [Some (Fn noop); Some (Fn noop)] ∧
    events_get "e" s' = [Some (Fn observer)].
Proof.
  destruct (emit_nested_dispatch scripts 3 "outer" [VInt 0]
              [Some (Fn noop)] (_Once 0 (Fn reenter)) [Some (Fn noop)]
              "e" [VInt 1] chained)
    as (s' & H & Hc & Hg & Hgx & _).
  - apply wfb_wf. vm_compute. reflexivity.
  - done.
  - reflexivity.
  - apply Forall_singleton. by apply noop_observing.
  - apply Forall_singleton. by apply noop_observing.
  - by repeat split.
  - discriminate.
  - repeat apply Forall_cons_2; try apply Forall_nil_2.
    + by apply observer_target_observing.
    + by apply noop_observing.
  - reflexivity.
  - reflexivity.
  - reflexivity.
  - reflexivity.
  - vm_compute. lia.
  - vm_compute. lia.
  - by exists s'.
Defined.
